(** * CliMT: the component life cycle of [lib/climt/component.py]

    A shallow embedding of [Component.compute], [Component.step],
    [Component.__getitem__] and [Component.__setitem__], with the
    collaborators the methods call (parameter store, grid, state, I/O,
    monitor, compute kernel) kept behind the interface the methods use;
    of [Component._getAxisLength] and [Component._getShape3D]; and of
    the construction, restart reading and record writing of the class
    [IO] of [lib/climt/inout.py].

    Python dictionaries are finite maps from strings. Times, frequencies
    and the calendar parameters are floats, as the defaults and the
    restart reader ([time * 86400.]) make them, so [/] is true division.
    A float is the rational it stands for, and every sum, difference,
    product and quotient of floats is rounded as IEEE 754 binary64
    does: to 53 significant bits, to the nearest, a tie going to the
    even significand ([round64]). Magnitudes are taken to stay within
    the range of normal doubles: overflow to infinity and gradual
    underflow are not part of the model. *)

From Stdlib Require Import QArith Qround Qpower Lqa.
From stdpp Require Import gmap strings list fin_maps.

Set Warnings "-register-all".

Local Open Scope Z_scope.
Local Open Scope Q_scope.
Local Open Scope list_scope.
Local Open Scope stdpp_scope.

(** ** Exceptions and outcomes *)

Inductive exn :=
  | KeyError (k : string)
  | IndexError (k : string)
  | ZeroDivisionError
  | ValueError
  | TypeError
  | UnboundLocalError.

Inductive outcome (A : Type) :=
  | Done (a : A)
  | Raise (e : exn).
Arguments Done {A} a.
Arguments Raise {A} e.

(** ** Values held by the dictionaries *)

(** A numpy array: its shape and its elements in row-major (C) order. *)
Record ndarray := { shape : list nat; data : list Q }.

Inductive value :=
  | VStr (s : string)
  | VNum (x : Q)
  | VArr (a : ndarray)
  | VSeq (vs : list value).

Definition size_of (sh : list nat) : nat := foldr Nat.mul 1%nat sh.

(** [array(v).shape]: no dimension for a scalar or a string, the shape
    of an array, and for a sequence its length followed by the common
    shape of its items (none when the items differ in shape). *)
Fixpoint array_shape (v : value) : list nat :=
  match v with
  | VNum _ => []
  | VStr _ => []
  | VArr a => shape a
  | VSeq vs =>
      length vs ::
      match map array_shape vs with
      | [] => []
      | s :: ss => if forallb (λ s', bool_decide (s' = s)) ss then s else []
      end
  end.

(** Whether [array(v)] is an array of numbers: no string in it, and the
    items of every list of one shape. *)
Fixpoint numeric (v : value) : bool :=
  match v with
  | VStr _ => false
  | VNum _ => true
  | VArr _ => true
  | VSeq vs =>
      forallb numeric vs &&
      match map array_shape vs with
      | [] => true
      | s :: ss => forallb (λ s', bool_decide (s' = s)) ss
      end
  end.

(** The numbers of [array(v)] in row-major order: a number alone, those
    of an array, and for a list those of its items one after the
    other. *)
Fixpoint flattened (v : value) : list Q :=
  match v with
  | VStr _ => []
  | VNum x => [x]
  | VArr a => data a
  | VSeq vs => concat (map flattened vs)
  end.

(** [numpy.reshape(value, shape)]: same elements, same order, new shape;
    refused when the element counts differ. The value may be a number,
    an array or a list of numbers, nested or not; a value that numpy
    would turn into an array of strings or of objects is refused here,
    the arrays of the model holding numbers only. *)
Definition elements (v : value) : outcome (list Q) :=
  if numeric v then Done (flattened v) else Raise ValueError.

Definition reshape (v : value) (sh : list nat) : outcome value :=
  match elements v with
  | Done xs =>
      if (length xs =? size_of sh)%nat
      then Done (VArr {| shape := sh; data := xs |})
      else Raise ValueError
  | Raise e => Raise e
  end.

(** Modelled from the spec: [utils.squeeze], which is not part of the
    sources at hand; it drops the degenerate (length one) dimensions of a
    non-string value and keeps the elements. *)
Definition squeeze (v : value) : value :=
  match v with
  | VArr a =>
      VArr {| shape := filter (λ n, n ≠ 1%nat) (shape a); data := data a |}
  | _ => v
  end.

(** A value used as a scalar ([int(..)], comparison, float arithmetic):
    a float, or an array of exactly one element. *)
Definition as_num (v : value) : outcome Q :=
  match v with
  | VNum x => Done x
  | VArr a => match data a with [x] => Done x | _ => Raise TypeError end
  | _ => Raise TypeError
  end.

(** [int(x)] on a float: truncation toward zero. *)
Definition py_int (x : Q) : Z :=
  if Qle_bool 0 x then Qfloor x else Qceiling x.

(** ** Floats *)

(** Python's float arithmetic is that of IEEE 754 binary64 in its default
    mode: the exact result of the operation, rounded to the nearest
    number with a significand of 53 bits, a tie going to the even
    significand. *)

(** The integer nearest to [m], a tie going to the even one. *)
Definition nearest_even (m : Q) : Z :=
  let f := Qfloor m in
  match Qcompare (m - inject_Z f) (1 # 2) with
  | Lt => f
  | Gt => (f + 1)%Z
  | Eq => if Z.even f then f else (f + 1)%Z
  end.

(** The binade of a positive [x]: the [l] with [2^l <= x < 2^(l+1)]. *)
Definition binade (x : Q) : Z :=
  let k := (Z.log2 (Qnum x) - Z.log2 (Zpos (Qden x)))%Z in
  if Qle_bool (Qpower 2 k) x then k else (k - 1)%Z.

(** A positive [x] rounded to 53 significant bits: the nearest multiple
    of the unit of its binade. *)
Definition round_to_53 (x : Q) : Q :=
  let e := (binade x - 52)%Z in
  inject_Z (nearest_even (x / Qpower 2 e)) * Qpower 2 e.

(** Rounding to binary64, as a fraction in lowest terms. *)
Definition round64 (x : Q) : Q :=
  match Qnum x with
  | Z0 => 0
  | Zpos _ => Qred (round_to_53 x)
  | Zneg _ => Qred (- round_to_53 (- x))
  end.

(** [x + y], [x - y], [x * y] and [x / y] on floats. *)
Definition float_add (x y : Q) : Q := round64 (x + y).
Definition float_sub (x y : Q) : Q := round64 (x - y).
Definition float_mul (x y : Q) : Q := round64 (x * y).
Definition float_div (x y : Q) : Q := round64 (x / y).

(** The rationals that are floats: those rounding leaves alone. *)
Definition is_float (x : Q) : Prop := round64 x == x.

(** [a / b] on floats: a zero divisor raises. *)
Definition py_div (a b : Q) : outcome Q :=
  if Qeq_bool b 0 then Raise ZeroDivisionError else Done (float_div a b).

(** [int(time/freq) != int((time-dt)/freq)]: the boundary test shared by
    the recompute gate and the output and monitor triggers. *)
Definition crossed (time dt freq : Q) : outcome bool :=
  match py_div time freq with
  | Done a =>
      match py_div (float_sub time dt) freq with
      | Done b => Done (negb (py_int a =? py_int b)%Z)
      | Raise e => Raise e
      end
  | Raise e => Raise e
  end.

(** [a + b] on numeric values, elementwise on arrays of one shape and
    broadcasting a scalar over an array. *)
Definition vadd (a b : value) : outcome value :=
  match a, b with
  | VNum x, VNum y => Done (VNum (float_add x y))
  | VArr u, VNum y =>
      Done (VArr {| shape := shape u;
                    data := map (λ x, float_add x y) (data u) |})
  | VNum x, VArr w =>
      Done (VArr {| shape := shape w;
                    data := map (λ y, float_add x y) (data w) |})
  | VArr u, VArr w =>
      if decide (shape u = shape w)
      then Done (VArr {| shape := shape u;
                         data := zip_with float_add (data u) (data w) |})
      else Raise ValueError
  | _, _ => Raise TypeError
  end.

(** Iterating over a value, as [zip] does. *)
Fixpoint chunks (n : nat) (k : nat) (xs : list Q) : list (list Q) :=
  match n with
  | O => []
  | S n' => take k xs :: chunks n' k (drop k xs)
  end.

Definition py_iter (v : value) : outcome (list value) :=
  match v with
  | VSeq vs => Done vs
  | VArr a =>
      match shape a with
      | [] => Raise TypeError
      | [n] => Done (map VNum (take n (data a)))
      | n :: rest =>
          Done (map (λ xs, VArr {| shape := rest; data := xs |})
                    (chunks n (size_of rest) (data a)))
      end
  | VStr s => Done (map (λ ch, VStr (String ch EmptyString)) (String.list_ascii_of_string s))
  | VNum _ => Raise TypeError
  end.

(** [dict(pairs)]: a later pair replaces an earlier one with the same key. *)
Definition py_dict (pairs : list (string * value)) : gmap string value :=
  foldl (λ m p, <[p.1 := p.2]> m) ∅ pairs.

(** ** Declarations of a component class *)

(** The class attributes a concrete component defines, the kernel
    ([driver]) and the table [KnownFields] of [state.py], of which the
    methods here read the dimension tag [KnownFields[key][2]]. *)
Record Declaration := {
  Prognostic : list string;
  Diagnostic : list string;
  ToExtension : list string;
  FromExtension : list string;
  SteppingScheme : string;
  driver : list value → value;
  KnownFields : gmap string (string * string * string);
}.

(** Calls that leave the component: the kernel, and the collaborators
    whose bodies live in other modules. *)
Inductive call :=
  | CallDriver (args : list value)
  | CallAdvance
  | CallWrite
  | CallRefresh.

(** ** The component instance *)

(** Modelled from the spec: the attribute layout of the collaborator
    classes [Parameters], [Grid], [State], [IO] and [Monitor], whose
    modules are not part of the sources at hand. [parameters] and [grid]
    stand for [self.parameters.value] and [self.grid.value], [Now], [Old]
    and [ElapsedTime] for the attributes of [self.state], [OutputFreq] for
    [self.io.OutputFreq], [Monitoring] and [MonitorFreq] for the
    attributes of [self.monitor]. [attrs] holds the attributes that
    [compute] sets with [exec] (output names are taken not to clash with
    the attributes listed here). [calls] logs the calls made so far, most
    recent first. *)
Record Component := {
  Fixed : list string;
  parameters : gmap string value;
  update_frequency : Q;
  grid : gmap string value;
  Shape3D : nat * nat * nat;
  Now : gmap string value;
  Old : gmap string value;
  ElapsedTime : Q;
  Inc : gmap string value;
  attrs : gmap string value;
  OutputFreq : Q;
  Monitoring : bool;
  MonitorFreq : Q;
  calls : list call;
}.

Definition set_parameters (f : gmap string value → gmap string value) (c : Component) :=
  {| Fixed := Fixed c; parameters := f (parameters c);
     update_frequency := update_frequency c; grid := grid c;
     Shape3D := Shape3D c; Now := Now c; Old := Old c;
     ElapsedTime := ElapsedTime c; Inc := Inc c; attrs := attrs c;
     OutputFreq := OutputFreq c; Monitoring := Monitoring c;
     MonitorFreq := MonitorFreq c; calls := calls c |}.

Definition set_grid (f : gmap string value → gmap string value) (c : Component) :=
  {| Fixed := Fixed c; parameters := parameters c;
     update_frequency := update_frequency c; grid := f (grid c);
     Shape3D := Shape3D c; Now := Now c; Old := Old c;
     ElapsedTime := ElapsedTime c; Inc := Inc c; attrs := attrs c;
     OutputFreq := OutputFreq c; Monitoring := Monitoring c;
     MonitorFreq := MonitorFreq c; calls := calls c |}.

Definition set_Now (f : gmap string value → gmap string value) (c : Component) :=
  {| Fixed := Fixed c; parameters := parameters c;
     update_frequency := update_frequency c; grid := grid c;
     Shape3D := Shape3D c; Now := f (Now c); Old := Old c;
     ElapsedTime := ElapsedTime c; Inc := Inc c; attrs := attrs c;
     OutputFreq := OutputFreq c; Monitoring := Monitoring c;
     MonitorFreq := MonitorFreq c; calls := calls c |}.

Definition set_Old (f : gmap string value → gmap string value) (c : Component) :=
  {| Fixed := Fixed c; parameters := parameters c;
     update_frequency := update_frequency c; grid := grid c;
     Shape3D := Shape3D c; Now := Now c; Old := f (Old c);
     ElapsedTime := ElapsedTime c; Inc := Inc c; attrs := attrs c;
     OutputFreq := OutputFreq c; Monitoring := Monitoring c;
     MonitorFreq := MonitorFreq c; calls := calls c |}.

Definition set_ElapsedTime (f : Q → Q) (c : Component) :=
  {| Fixed := Fixed c; parameters := parameters c;
     update_frequency := update_frequency c; grid := grid c;
     Shape3D := Shape3D c; Now := Now c; Old := Old c;
     ElapsedTime := f (ElapsedTime c); Inc := Inc c; attrs := attrs c;
     OutputFreq := OutputFreq c; Monitoring := Monitoring c;
     MonitorFreq := MonitorFreq c; calls := calls c |}.

Definition set_Inc (f : gmap string value → gmap string value) (c : Component) :=
  {| Fixed := Fixed c; parameters := parameters c;
     update_frequency := update_frequency c; grid := grid c;
     Shape3D := Shape3D c; Now := Now c; Old := Old c;
     ElapsedTime := ElapsedTime c; Inc := f (Inc c); attrs := attrs c;
     OutputFreq := OutputFreq c; Monitoring := Monitoring c;
     MonitorFreq := MonitorFreq c; calls := calls c |}.

Definition set_attrs (f : gmap string value → gmap string value) (c : Component) :=
  {| Fixed := Fixed c; parameters := parameters c;
     update_frequency := update_frequency c; grid := grid c;
     Shape3D := Shape3D c; Now := Now c; Old := Old c;
     ElapsedTime := ElapsedTime c; Inc := Inc c; attrs := f (attrs c);
     OutputFreq := OutputFreq c; Monitoring := Monitoring c;
     MonitorFreq := MonitorFreq c; calls := calls c |}.

Definition log (e : call) (c : Component) :=
  {| Fixed := Fixed c; parameters := parameters c;
     update_frequency := update_frequency c; grid := grid c;
     Shape3D := Shape3D c; Now := Now c; Old := Old c;
     ElapsedTime := ElapsedTime c; Inc := Inc c; attrs := attrs c;
     OutputFreq := OutputFreq c; Monitoring := Monitoring c;
     MonitorFreq := MonitorFreq c; calls := e :: calls c |}.

(** ** Methods as state transformers that may raise *)

(** A method body: it starts from a component, ends in a component, and
    either returns or raises. What it wrote before raising stays written. *)
Definition Py (A : Type) : Type := Component → outcome A * Component.

Definition ret {A} (a : A) : Py A := λ c, (Done a, c).
Definition raise {A} (e : exn) : Py A := λ c, (Raise e, c).
Definition bind {A B} (m : Py A) (k : A → Py B) : Py B :=
  λ c, match m c with
       | (Done a, c') => k a c'
       | (Raise e, c') => (Raise e, c')
       end.
Definition lift {A} (o : outcome A) : Py A := λ c, (o, c).
Definition get : Py Component := λ c, (Done c, c).
Definition modify (f : Component → Component) : Py unit := λ c, (Done tt, f c).

Declare Scope py_scope.
Delimit Scope py_scope with py.
Notation "x <~ m ;; k" := (bind m (λ x, k))
  (at level 100, m at next level, right associativity) : py_scope.
Notation "m ;;; k" := (bind m (λ _, k))
  (at level 100, right associativity) : py_scope.
Local Open Scope py_scope.

(** [for x in xs: body(x)] *)
Fixpoint for_each {A} (xs : list A) (body : A → Py unit) : Py unit :=
  match xs with
  | [] => ret tt
  | x :: xs' => body x ;;; for_each xs' body
  end.

(** [d[key]] on a dictionary. *)
Definition subscript (d : gmap string value) (key : string) : outcome value :=
  match d !! key with
  | Some v => Done v
  | None => Raise (KeyError key)
  end.

(** ** The field-indexed accessor *)

Definition is_str (v : value) : bool :=
  match v with VStr _ => true | _ => false end.

(** What [__getitem__] hands back for a stored object. *)
Definition fetched (v : value) : value :=
  if is_str v then v else squeeze v.

(** Modelled from the spec: membership and item access of the parameter
    store, [key in self.parameters], [self.parameters[key]] and
    [self.parameters[key] = value] of [parameters.py], which is not part
    of the sources at hand: those of its dictionary [value]. *)
Definition Parameters_getitem (c : Component) (key : string) : outcome value :=
  subscript (parameters c) key.

Definition Parameters_setitem (key : string) (v : value) : Py unit :=
  modify (set_parameters <[key := v]>).

(** Modelled from the spec: membership and item access of the grid, of
    [grid.py], which is not part of the sources at hand: those of its
    dictionary [value]. *)
Definition Grid_setitem (key : string) (v : value) : Py unit :=
  modify (set_grid <[key := v]>).

(** Modelled from the spec: membership and item access of the state,
    [key in self.state], [self.state[key]] and [self.state[key] = value]
    of [state.py], which is not part of the sources at hand: those of the
    current time level [Now]. *)
Definition State_setitem (key : string) (v : value) : Py unit :=
  modify (set_Now <[key := v]>).

(** The objects [__getitem__] goes through, in its order, each as the
    dictionary that answers [key in obj] and [obj[key]]. *)
Definition lookup_order (c : Component) : list (gmap string value) :=
  [parameters c; grid c; Now c].

(** [Component.__getitem__]: the first of parameters, grid and state
    that holds the key. *)
Fixpoint first_holding (objs : list (gmap string value)) (key : string)
    : outcome value :=
  match objs with
  | [] => Raise (IndexError key)
  | obj :: rest =>
      match obj !! key with
      | Some v => Done (fetched v)
      | None => first_holding rest key
      end
  end.

Definition getitem (c : Component) (key : string) : outcome value :=
  first_holding (lookup_order c) key.

(** [Component.__setitem__]. *)
Definition setitem (D : Declaration) (key : string) (v : value) : Py unit :=
  c <~ get ;;
  if decide (is_Some (parameters c !! key)) then Parameters_setitem key v
  else if decide (is_Some (grid c !! key)) then Grid_setitem key v
  else if decide (is_Some (Now c !! key)) then
    match KnownFields D !! key with
    | None => raise (KeyError key)
    | Some (_, _, dims) =>
        let '(nlev, nlat, nlon) := Shape3D c in
        if decide (dims = "2D") then
          r <~ lift (reshape v [nlat; nlon]) ;;
          State_setitem key r
        else if decide (dims = "3D") then
          r <~ lift (reshape v [nlev; nlat; nlon]) ;;
          State_setitem key r
        else raise (IndexError key)
    end
  else raise (IndexError key).

(** [self[key]] read as a scalar. *)
Definition getnum (key : string) : Py Q :=
  c <~ get ;;
  v <~ lift (getitem c key) ;;
  lift (as_num v).

(** ** [Component.compute] *)

(** The test of line 86, operands evaluated left to right; [true] when
    the update boundary was crossed. *)
Definition time_for_update : Py bool :=
  c <~ get ;;
  let freq := update_frequency c in
  let time := ElapsedTime c in
  a <~ lift (py_div time freq) ;;
  dt <~ getnum "dt" ;;
  b <~ lift (py_div (float_sub time dt) freq) ;;
  ret (negb (py_int a =? py_int b)%Z).

(** The union of state, grid and parameters, later updates winning. *)
Definition baseline_input (c : Component) : gmap string value :=
  <["UpdateFreq" := VNum (update_frequency c)]>
    (parameters c ∪ (grid c ∪ Now c)).

(** [for key in self.Prognostic: Input[key+'old'] = self.state.Old[key]] *)
Fixpoint append_old (old : gmap string value) (keys : list string)
    (Input : gmap string value) : outcome (gmap string value) :=
  match keys with
  | [] => Done Input
  | key :: rest =>
      match subscript old key with
      | Done v => append_old old rest (<[key +:+ "old" := v]> Input)
      | Raise e => Raise e
      end
  end.

Definition assemble_input (D : Declaration) (c : Component)
    : outcome (gmap string value) :=
  let Input := baseline_input c in
  let Input :=
    if decide (SteppingScheme D = "implicit") then Old c ∪ Input else Input in
  if decide (SteppingScheme D = "semi-implicit")
  then append_old (Old c) (Prognostic D) Input
  else Done Input.

(** [[ Input[key] for key in self.ToExtension ]] *)
Fixpoint extension_args (Input : gmap string value) (keys : list string)
    : outcome (list value) :=
  match keys with
  | [] => Done []
  | key :: rest =>
      match subscript Input key with
      | Done v =>
          match extension_args Input rest with
          | Done vs => Done (v :: vs)
          | Raise e => Raise e
          end
      | Raise e => Raise e
      end
  end.

(** Lines 104-106: the kernel call and the dictionary of its outputs. *)
Definition build_output (names : list string) (OutputValues : value)
    : outcome (gmap string value) :=
  match names with
  | [name] => Done {[ name := OutputValues ]}
  | _ =>
      match py_iter OutputValues with
      | Done vs => Done (py_dict (zip names vs))
      | Raise e => Raise e
      end
  end.

Definition call_driver (D : Declaration) (args : list value)
    : Py (gmap string value) :=
  modify (log (CallDriver args)) ;;;
  lift (build_output (FromExtension D) (driver D args)).

(** Lines 109-110; the rest of [Output] is returned. *)
Fixpoint extract_increments (keys : list string) (Output : gmap string value)
    : Py (gmap string value) :=
  match keys with
  | [] => ret Output
  | key :: rest =>
      v <~ lift (subscript Output (key +:+ "inc")) ;;
      modify (set_Inc <[key := v]>) ;;;
      extract_increments rest (delete (key +:+ "inc") Output)
  end.

(** [for key in keys: if key in d: d.pop(key)] *)
Definition remove_keys (keys : list string) (d : gmap string value)
    : gmap string value :=
  foldl (λ m key, delete key m) d keys.

(** Modelled from the spec: [State.update(Output)] merges the entries of
    [Output] into [Now], replacing prior values. *)
Definition State_update (Output : gmap string value) : Py unit :=
  modify (set_Now (λ now, Output ∪ now)).

(** Lines 108-119: what [compute] does with the kernel's outputs. *)
Definition store_output (D : Declaration) (Output : gmap string value)
    : Py unit :=
  Output <~ extract_increments (Prognostic D) Output ;;
  c <~ get ;;
  modify (set_Inc (remove_keys (Fixed c))) ;;;
  let Output := remove_keys (Fixed c) Output in
  State_update Output ;;;
  modify (set_attrs (λ a, Output ∪ a)).

(** Lines 88-106: the input, the arguments and the kernel call. *)
Definition run_kernel (D : Declaration) : Py (gmap string value) :=
  c <~ get ;;
  Input <~ lift (assemble_input D c) ;;
  args <~ lift (extension_args Input (ToExtension D)) ;;
  call_driver D args.

Definition compute (D : Declaration) (ForcedCompute : bool) : Py unit :=
  go <~ (if ForcedCompute then ret true else time_for_update) ;;
  if negb go then ret tt else
  Output <~ run_kernel D ;;
  store_output D Output.

(** Lines 49-52 of [__init__]: an empty [Inc], then a forced [compute]. *)
Definition seed_diagnostics (D : Declaration) : Py unit :=
  modify (set_Inc (λ _, ∅)) ;;;
  compute D true.

(** ** [Component.step] *)

(** The [RunLength] argument: an [int], a [float], or anything else. *)
Inductive run_length :=
  | Steps (n : Z)
  | Seconds (x : Q)
  | OtherLength.

(** Lines 132-137; a [RunLength] of another type leaves [NSteps] unbound. *)
Definition number_of_steps (RunLength : run_length) : Py Z :=
  match RunLength with
  | Steps n => ret n
  | Seconds x =>
      dt <~ getnum "dt" ;;
      q <~ lift (py_div x dt) ;;
      ret (py_int q)
  | OtherLength => raise UnboundLocalError
  end.

(** Lines 141-145, for one key of the external dictionary. On a numpy
    array [+=] writes the sum into the array [self.Inc[key]] names, and
    line 145 makes [self.Inc[key]] name the caller's own array; here the
    key is bound to the sum as a value. The entries of [Inc] are the same
    either way up to the second merge of one external array; a third
    merge onto an entry created from that array, with no kernel call in
    between, would add the doubled array in place of the original. *)
Definition add_external_increment (kv : string * value) : Py unit :=
  c <~ get ;;
  match Inc c !! kv.1 with
  | Some old =>
      s <~ lift (vadd old kv.2) ;;
      modify (set_Inc <[kv.1 := s]>)
  | None => modify (set_Inc <[kv.1 := kv.2]>)
  end.

(** Modelled from the spec: one prognostic field marched by
    [State.advance] (forward Euler): the current level becomes the old
    one and the increment is added to it. *)
Definition advance_field (key : string) : Py unit :=
  c <~ get ;;
  now <~ lift (subscript (Now c) key) ;;
  inc <~ lift (subscript (Inc c) key) ;;
  new <~ lift (vadd now inc) ;;
  modify (set_Old <[key := now]>) ;;;
  modify (set_Now <[key := new]>).

(** Modelled from the spec: [State.advance(component)], whose module is
    not part of the sources at hand: every Prognostic field that is not
    Fixed is marched with its entry of [Inc], which is read and left in
    place, and [ElapsedTime] grows by [dt]. *)
Definition State_advance (D : Declaration) : Py unit :=
  modify (log CallAdvance) ;;;
  c <~ get ;;
  for_each (filter (λ key, key ∉ Fixed c) (Prognostic D)) advance_field ;;;
  dt <~ getnum "dt" ;;
  modify (set_ElapsedTime (λ t, float_add t dt)).

(** Lines 154-156. *)
Definition advance_calendar (D : Declaration) : Py unit :=
  calday <~ getnum "calday" ;;
  dt <~ getnum "dt" ;;
  lod <~ getnum "lod" ;;
  q <~ lift (py_div dt lod) ;;
  setitem D "calday" (VNum (float_add calday q)) ;;;
  calday <~ getnum "calday" ;;
  daysperyear <~ getnum "daysperyear" ;;
  if Qle_bool calday daysperyear then ret tt else
  calday <~ getnum "calday" ;;
  daysperyear <~ getnum "daysperyear" ;;
  setitem D "calday" (VNum (float_sub calday daysperyear)).

(** Lines 159-167; [write] and [monitor.refresh] are calls to
    collaborators and are logged. *)
Definition periodic_triggers : Py unit :=
  c <~ get ;;
  dtv <~ lift (Parameters_getitem c "dt") ;;
  dt <~ lift (as_num dtv) ;;
  let time := ElapsedTime c in
  w <~ lift (crossed time dt (OutputFreq c)) ;;
  (if w : bool then modify (log CallWrite) else ret tt) ;;;
  if Monitoring c then
    r <~ lift (crossed time dt (MonitorFreq c)) ;;
    if r : bool then modify (log CallRefresh) else ret tt
  else ret tt.

(** One pass through the body of the loop of [step]. [ExternalInc] lists
    the items of the [Inc] argument in the order the dictionary yields
    them. *)
Definition step_iteration (D : Declaration)
    (ExternalInc : list (string * value)) : Py unit :=
  for_each ExternalInc add_external_increment ;;;
  State_advance D ;;;
  compute D false ;;;
  advance_calendar D ;;;
  periodic_triggers.

(** [for i in range(NSteps): body] *)
Fixpoint repeat_body (n : nat) (body : Py unit) : Py unit :=
  match n with
  | O => ret tt
  | S n' => body ;;; repeat_body n' body
  end.

Definition step (D : Declaration) (RunLength : run_length)
    (ExternalInc : list (string * value)) : Py unit :=
  NSteps <~ number_of_steps RunLength ;;
  repeat_body (Z.to_nat NSteps) (step_iteration D ExternalInc).

(** * Predicates and measures used in the statements *)

(** [keeps proj m]: whatever [m] does, returning or raising, it leaves
    the [proj] part of the component as it found it. *)
Definition keeps {X A} (proj : Component → X) (m : Py A) : Prop :=
  ∀ c, proj (m c).2 = proj c.

(** The component a method ends in differs from [c] in [Inc] alone. *)
Definition only_Inc_changed (c c' : Component) : Prop :=
  c' = set_Inc (λ _, Inc c') c.

(** The gate lets the call through. *)
Definition gate_open (ForcedCompute : bool) (c : Component) : Prop :=
  ForcedCompute = true ∨ time_for_update c = (Done true, c).

Definition kernel_invoked (c c' : Component) : Prop :=
  ∃ args, calls c' = CallDriver args :: calls c.

(** What the merge stores for a key: the sum when [Inc] had the key, the
    external value itself when it had not. *)
Definition merged (old : option value) (dv s : value) : Prop :=
  match old with
  | Some o => vadd o dv = Done s
  | None => s = dv
  end.

(** The Prognostic fields that are marched: those not Fixed. *)
Definition marched (D : Declaration) (c : Component) : gset string :=
  list_to_set (Prognostic D) ∖ list_to_set (Fixed c).

(** The components a program meets: the one [__init__] leaves, and those
    reached from it by [compute] or by an iteration of [step] whose
    external increments are for marched fields, each having returned. *)
Inductive lifetime (D : Declaration) : Component → Prop :=
  | born c0 c :
      seed_diagnostics D c0 = (Done tt, c) → lifetime D c
  | computed forced c c' :
      lifetime D c → compute D forced c = (Done tt, c') → lifetime D c'
  | stepped ExternalInc c c' :
      lifetime D c →
      (∀ key, key ∈ ExternalInc.*1 → key ∈ marched D c) →
      step_iteration D ExternalInc c = (Done tt, c') →
      lifetime D c'.


Definition is_advance_call (e : call) : bool :=
  match e with CallAdvance => true | _ => false end.

(** How many calls of one kind the component has made. *)
Definition count_calls (p : call → bool) (c : Component) : nat :=
  length (List.filter p (calls c)).

(** The step count a [RunLength] asks for, with [dt] the timestep. *)
Definition requested_steps (RunLength : run_length) (dt : Q) : Z :=
  match RunLength with
  | Steps n => n
  | Seconds x => Qfloor (float_div x dt)
  | OtherLength => 0
  end.

(** What [step] needs to turn [RunLength] into a step count. *)
Definition length_given (RunLength : run_length) (c : Component) (dt : Q)
    : Prop :=
  match RunLength with
  | Steps _ => True
  | Seconds _ =>
      (∃ v, getitem c "dt" = Done v ∧ as_num v = Done dt) ∧ ¬ dt == 0
  | OtherLength => False
  end.

(** The calendar parameters, each a float in the parameter store. *)
Definition calendar_set (c : Component) (calday dt lod daysperyear : Q)
    : Prop :=
  parameters c !! "calday" = Some (VNum calday) ∧
  parameters c !! "dt" = Some (VNum dt) ∧
  parameters c !! "lod" = Some (VNum lod) ∧
  parameters c !! "daysperyear" = Some (VNum daysperyear).

(** [calday] after one iteration: lines 154-156. *)
Definition next_calday (calday dt lod daysperyear : Q) : Q :=
  let sum := float_add calday (float_div dt lod) in
  if Qle_bool sum daysperyear then sum else float_sub sum daysperyear.

Fixpoint calday_after (n : nat) (calday dt lod daysperyear : Q) : Q :=
  match n with
  | O => calday
  | S n' =>
      calday_after n' (next_calday calday dt lod daysperyear)
                   dt lod daysperyear
  end.

(** [n] iterations in which the calendar is never rounded: the quotient
    [dt/lod], each sum and each difference that lines 154-156 form are
    floats as they stand. *)
Fixpoint unrounded (n : nat) (calday dt lod daysperyear : Q) : Prop :=
  match n with
  | O => True
  | S n' =>
      is_float (dt / lod) ∧
      is_float (calday + dt / lod) ∧
      (if Qle_bool (calday + dt / lod) daysperyear then True
       else is_float (calday + dt / lod - daysperyear)) ∧
      unrounded n' (next_calday calday dt lod daysperyear)
                dt lod daysperyear
  end.

(** * A sample component *)

(** A column model with the fields [T] and [q]; its kernel returns the
    increment of [T] and a diagnostic flux. *)
Module Sample.

Definition kernel (args : list value) : value := VSeq [VNum 1; VNum 5].

Definition declaration (scheme : string) (prognostic : list string)
    : Declaration :=
  {| Prognostic := prognostic;
     Diagnostic := ["flux"];
     ToExtension := ["T"; "dt"];
     FromExtension := ["Tinc"; "flux"];
     SteppingScheme := scheme;
     driver := kernel;
     KnownFields := {[ "T" := ("temperature", "K", "2D");
                       "flux" := ("surface flux", "W m-2", "2D") ]} |}.

Definition radiation : Declaration := declaration "explicit" ["T"].
Definition lagged : Declaration := declaration "implicit" ["T"].
Definition moist : Declaration := declaration "explicit" ["T"; "q"].

(** The component as lines 18-46 of [__init__] leave it. *)
Definition configured (fixed : list string) (dt time : Q)
    (shape3d : nat * nat * nat) : Component :=
  {| Fixed := fixed;
     parameters := {[ "dt" := VNum dt; "lod" := VNum 86400;
                      "calday" := VNum 1; "daysperyear" := VNum 365 ]};
     update_frequency := 100;
     grid := ∅;
     Shape3D := shape3d;
     Now := {[ "T" := VNum 280 ]};
     Old := {[ "T" := VNum 250 ]};
     ElapsedTime := time;
     Inc := ∅;
     attrs := ∅;
     OutputFreq := 86400;
     Monitoring := false;
     MonitorFreq := 86400;
     calls := [] |}.

Definition column : Component := configured [] 30 0 (1, 1, 1)%nat.
Definition column_at_100 : Component := configured [] 30 100 (1, 1, 1)%nat.
Definition held : Component := configured ["T"] 30 0 (1, 1, 1)%nat.
Definition row : Component := configured [] 30 0 (1, 1, 3)%nat.
Definition plane : Component := configured [] 30 0 (1, 2, 3)%nat.
Definition seasonal : Component :=
  configured [] 6307200 0 (1, 1, 1)%nat.

(** A year of nine steps: a step is [40.5555...] days, not a float. *)
Definition ninths : Component :=
  configured [] 3504000 0 (1, 1, 1)%nat.

(** The floats written [0.1] and [0.6]. *)
Definition tenth : Q := round64 (1 # 10).
Definition six_tenths : Q := round64 (6 # 10).

(** A timestep of [0.1] seconds and an update every [0.1] seconds, at
    [t = 0.6]. *)
Definition fine : Component :=
  {| Fixed := [];
     parameters := {[ "dt" := VNum tenth; "lod" := VNum 86400;
                      "calday" := VNum 1; "daysperyear" := VNum 365 ]};
     update_frequency := tenth;
     grid := ∅;
     Shape3D := (1, 1, 1)%nat;
     Now := {[ "T" := VNum 280 ]};
     Old := {[ "T" := VNum 250 ]};
     ElapsedTime := six_tenths;
     Inc := ∅;
     attrs := ∅;
     OutputFreq := 86400;
     Monitoring := false;
     MonitorFreq := 86400;
     calls := [] |}.

(** [held] once constructed. *)
Definition held_born : Component := (seed_diagnostics radiation held).2.

(** [held_born] inside an iteration of [step(1, {'T': 2.})], where
    [compute] is about to be called. *)
Definition held_before_compute : Component :=
  (bind (for_each [("T", VNum 2)] add_external_increment)
        (λ _, State_advance radiation) held_born).2.


(** [column] constructed, then stepped with an increment for a name the
    component does not declare. *)
Definition column_born : Component := (seed_diagnostics radiation column).2.

Definition column_stepped : Component :=
  (step_iteration radiation [("q", VNum 1)] column_born).2.


End Sample.

Import Sample.

(** * Axis lengths, and the files of [lib/climt/inout.py] *)

(** ** [Component._getAxisLength] and [Component._getShape3D] *)

(** What the two methods end in: a length, or a failed [assert]. *)
Inductive asserted (A : Type) :=
  | Holds (a : A)
  | AssertionError.
Arguments Holds {A} a.
Arguments AssertionError {A}.

(** The keyword arguments, as the items of the dictionary in the order
    it yields them. [kwargs[key]] is the item with that key. *)
Definition keyword (kwargs : list (string * value)) (key : string)
    : option value :=
  (list_find (λ kv, kv.1 = key) kwargs) ≫= λ r, Some r.2.2.

(** [['lat','lon'].index(AxisName)] and [['lev','lat','lon'].index(AxisName)],
    for the three names the first [assert] lets through. *)
Definition index_2D (AxisName : string) : nat :=
  if decide (AxisName = "lat") then 0 else 1.

Definition index_3D (AxisName : string) : nat :=
  if decide (AxisName = "lev") then 0
  else if decide (AxisName = "lat") then 1 else 2.

(** [try: n = array(kwargs[key]).shape[i]] / [except: n = 1] *)
Definition shape_at (v : value) (i : nat) : nat :=
  default 1%nat (array_shape v !! i).

(** The body of the loop of lines 275-284: a known 2D field gives the
    length of 'lat' or 'lon', a known 3D field that of any axis, and
    anything else leaves [n] as it is. *)
Definition field_length (D : Declaration) (AxisName : string)
    (n : option nat) (kv : string * value) : option nat :=
  match KnownFields D !! kv.1 with
  | Some (_, _, dims) =>
      if decide (dims = "2D" ∧ AxisName ≠ "lev")
      then Some (shape_at kv.2 (index_2D AxisName))
      else if decide (dims = "3D")
      then Some (shape_at kv.2 (index_3D AxisName))
      else n
  | None => n
  end.

(** The loop itself, [n] being [None] at the start. *)
Definition length_from_fields (D : Declaration) (AxisName : string)
    (kwargs : list (string * value)) : option nat :=
  foldl (field_length D AxisName) None kwargs.

(** Lines 289-296: the length [n] is returned when the extension fixes
    none or the same. [extension_n] stands for
    [self.Extension.get_n<axis>()], [None] when that call raises (no
    extension, or none that fixes the axis). *)
Definition agreed (extension_n : string → option nat) (AxisName : string)
    (n : nat) : asserted nat :=
  let n_ext := default n (extension_n AxisName) in
  if decide (n_ext = n) then Holds n else AssertionError.

(** [Component._getAxisLength]. [get_n] stands for [get_nlev],
    [get_nlat] and [get_nlon] of the compiled module [_grid]. *)
Definition getAxisLength (D : Declaration) (get_n : string → nat)
    (extension_n : string → option nat) (AxisName : string)
    (kwargs : list (string * value)) : asserted nat :=
  if decide (AxisName ∈ ["lev"; "lat"; "lon"]) then
    let supplied :=
      match keyword kwargs AxisName with
      | Some v =>
          match array_shape v with
          | [] => Holds (Some 1%nat)
          | [n] => Holds (Some n)
          | _ => AssertionError
          end
      | None => Holds (length_from_fields D AxisName kwargs)
      end in
    match supplied with
    | Holds n =>
        agreed extension_n AxisName
               (match n with Some n => n | None => get_n AxisName end)
    | AssertionError => AssertionError
    end
  else AssertionError.

(** [Component._getShape3D] *)
Definition getShape3D (D : Declaration) (get_n : string → nat)
    (extension_n : string → option nat) (kwargs : list (string * value))
    : asserted (nat * nat * nat) :=
  match getAxisLength D get_n extension_n "lev" kwargs with
  | Holds nlev =>
      match getAxisLength D get_n extension_n "lat" kwargs with
      | Holds nlat =>
          match getAxisLength D get_n extension_n "lon" kwargs with
          | Holds nlon => Holds (nlev, nlat, nlon)
          | AssertionError => AssertionError
          end
      | AssertionError => AssertionError
      end
  | AssertionError => AssertionError
  end.

(** ** [inout.py]: reading a restart file *)

(** What a method of [IO] can raise: [IOError] from opening a file,
    [AttributeError] from reading an attribute the instance does not
    have, what the statement [raise '<text>'] of line 104 raises, or one
    of the exceptions above from indexing. *)
Inductive io_exn :=
  | IOError
  | AttributeError (name : string)
  | StringRaised
  | Uncaught (e : exn).

Inductive io_outcome (A : Type) :=
  | Returned (a : A)
  | Failed (e : io_exn).
Arguments Returned {A} a.
Arguments Failed {A} e.

(** A netCDF file as [readRestart] reads it: its global attributes
    ([File.<name>]) and its variables ([File.variables[name]]), each an
    array whose first axis is the record axis for 'time' and for the
    fields. (Parameter names are taken not to be names of the file
    object's own methods.) *)
Record NetCDFFile := {
  global_attributes : gmap string value;
  variables : gmap string ndarray;
}.

(** [a[-1]]: the last entry along the first axis. *)
Definition last_record (a : ndarray) : outcome value :=
  match shape a with
  | [] => Raise (IndexError "-1")
  | n :: rest =>
      match reverse (chunks n (size_of rest) (data a)) with
      | [] => Raise (IndexError "-1")
      | xs :: _ =>
          match rest, xs with
          | [], [x] => Done (VNum x)
          | _, _ => Done (VArr {| shape := rest; data := xs |})
          end
      end
  end.

(** [v[::-1]]: the entries along the first axis in reverse order. *)
Definition reversed (v : value) : outcome value :=
  match v with
  | VArr a =>
      match shape a with
      | [] => Raise (IndexError "::-1")
      | n :: rest =>
          Done (VArr {| shape := shape a;
                        data := concat (reverse (chunks n (size_of rest)
                                                        (data a))) |})
      end
  | VSeq vs => Done (VSeq (reverse vs))
  | _ => Raise (IndexError "::-1")
  end.

(** [v * 86400.] *)
Definition times (v : value) (k : Q) : value :=
  match v with
  | VNum x => VNum (float_mul x k)
  | VArr a =>
      VArr {| shape := shape a; data := map (λ x, float_mul x k) (data a) |}
  | _ => v
  end.

(** [len(a[:])] *)
Definition first_dimension (a : ndarray) : outcome nat :=
  match shape a with
  | [] => Raise TypeError
  | n :: _ => Done n
  end.

(** [File.variables[name]] *)
Definition variable (File : NetCDFFile) (name : string) : outcome ndarray :=
  match variables File !! name with
  | Some a => Done a
  | None => Raise (KeyError name)
  end.

(** Line 126-127. *)
Definition read_elapsed_time (File : NetCDFFile)
    (kwargs : gmap string value) : outcome (gmap string value) :=
  if decide (is_Some (kwargs !! "ElapsedTime")) then Done kwargs else
  match variable File "time" with
  | Done time =>
      match last_record time with
      | Done days => Done (<["ElapsedTime" := times days 86400]> kwargs)
      | Raise e => Raise e
      end
  | Raise e => Raise e
  end.

(** Lines 130-135: a parameter that is not supplied is taken from the
    global attribute of its name; when there is none, the [except]
    branch prints a notice and the parameter is left out. *)
Definition read_parameter (File : NetCDFFile) (kwargs : gmap string value)
    (Name : string) : gmap string value :=
  if decide (is_Some (kwargs !! Name)) then kwargs else
  match global_attributes File !! Name with
  | Some v => <[Name := v]> kwargs
  | None => kwargs
  end.

(** Lines 138-140, for one axis; 'lev' is stored top down and is
    reversed. *)
Definition read_axis (File : NetCDFFile) (reverse_it : bool)
    (kwargs : gmap string value) (Name : string)
    : outcome (gmap string value) :=
  if decide (is_Some (kwargs !! Name)) then Done kwargs else
  match variable File Name with
  | Done a =>
      if reverse_it then
        match reversed (VArr a) with
        | Done v => Done (<[Name := v]> kwargs)
        | Raise e => Raise e
        end
      else Done (<[Name := VArr a]> kwargs)
  | Raise e => Raise e
  end.

(** Lines 143-150: a field that is not supplied is taken from the last
    record of the variable of its name, a 3D field reversed along its
    first axis. Whatever the [try] block raises is caught: what it had
    assigned by then stays. *)
Definition read_field (known : gmap string (string * string * string))
    (File : NetCDFFile) (kwargs : gmap string value) (Name : string)
    : gmap string value :=
  if decide (is_Some (kwargs !! Name)) then kwargs else
  match variable File Name with
  | Done a =>
      match last_record a with
      | Done v =>
          let kwargs := <[Name := v]> kwargs in
          match known !! Name with
          | Some (_, _, dims) =>
              if decide (dims = "3D") then
                match reversed v with
                | Done r => <[Name := r]> kwargs
                | Raise _ => kwargs
                end
              else kwargs
          | None => kwargs
          end
      | Raise _ => kwargs
      end
  | Raise _ => kwargs
  end.

Definition lift_io {A} (o : outcome A) : io_outcome A :=
  match o with
  | Done a => Returned a
  | Raise e => Failed (Uncaught e)
  end.

(** [IO.readRestart]. [got_netcdf] is the module's flag, [opened] what
    [open_file(self.restart_filename, 'r')] gives (an [IOError] is raised
    again as it is), [appending] and [output_time_index] the attributes
    of the instance; the result is the dictionary returned and the
    instance's [output_time_index]. *)
Definition readRestart (got_netcdf : bool)
    (known : gmap string (string * string * string))
    (opened : io_outcome NetCDFFile)
    (appending : bool) (output_time_index : option nat)
    (FieldNames ParamNames : list string) (kwargs : gmap string value)
    : io_outcome (gmap string value * option nat) :=
  if negb got_netcdf then Returned (kwargs, output_time_index) else
  match opened with
  | Failed e => Failed e
  | Returned File =>
      match lift_io (read_elapsed_time File kwargs) with
      | Failed e => Failed e
      | Returned kwargs =>
          let kwargs := foldl (read_parameter File) kwargs ParamNames in
          match lift_io (read_axis File true kwargs "lev") with
          | Failed e => Failed e
          | Returned kwargs =>
          match lift_io (read_axis File false kwargs "lat") with
          | Failed e => Failed e
          | Returned kwargs =>
          match lift_io (read_axis File false kwargs "lon") with
          | Failed e => Failed e
          | Returned kwargs =>
              let kwargs := foldl (read_field known File) kwargs FieldNames in
              if appending then
                match lift_io (variable File "time") with
                | Failed e => Failed e
                | Returned time =>
                    match lift_io (first_dimension time) with
                    | Failed e => Failed e
                    | Returned n => Returned (kwargs, Some n)
                    end
                end
              else Returned (kwargs, output_time_index)
          end end end
      end
  end.
(** [k'] has everything of [k], as it was, and beyond that only names
    of [names]. *)
Definition fills (names : list string) (k k' : gmap string value) : Prop :=
  k ⊆ k' ∧ ∀ x, is_Some (k' !! x) → is_Some (k !! x) ∨ x ∈ names.

(** ** [inout.py]: the class [IO] *)

(** What an attribute of an [IO] instance, or a keyword argument of its
    constructor, holds: [None], a truth value, an integer, a float, a
    string or a list of names. An instance is the dictionary of the
    attributes that have been set on it. *)
Inductive attribute :=
  | ANone
  | ABool (b : bool)
  | AInt (n : Z)
  | AFloat (x : Q)
  | AStr (s : string)
  | ANames (names : list string).

Definition attribute_number (a : attribute) : option Q :=
  match a with
  | ABool b => Some (if b then 1 else 0)
  | AInt n => Some (inject_Z n)
  | AFloat x => Some x
  | _ => None
  end.

(** [a == b] *)
Definition attribute_eq (a b : attribute) : bool :=
  match a, b with
  | ANone, ANone => true
  | AStr s, AStr t => bool_decide (s = t)
  | ANames l, ANames m => bool_decide (l = m)
  | _, _ =>
      match attribute_number a, attribute_number b with
      | Some x, Some y => Qeq_bool x y
      | _, _ => false
      end
  end.

(** The truth value of an attribute. *)
Definition truthy (a : attribute) : bool :=
  match a with
  | ANone => false
  | ABool b => b
  | AInt n => negb (n =? 0)%Z
  | AFloat x => negb (Qeq_bool x 0)
  | AStr s => negb (bool_decide (s = ""))
  | ANames l => negb (bool_decide (l = []))
  end.

(** Iterating over an attribute, as [set(..)] and [for key in ..] do: a
    list yields its names, a string its characters. *)
Definition iterate_names (a : attribute) : outcome (list string) :=
  match a with
  | ANames l => Done l
  | AStr s =>
      Done (map (λ ch, String ch EmptyString) (String.list_ascii_of_string s))
  | _ => Raise TypeError
  end.

(** [if key in kwargs: self.<attr> = kwargs[key]] *)
Definition from_kwargs (kwargs : gmap string attribute) (key attr : string)
    (self : gmap string attribute) : gmap string attribute :=
  match kwargs !! key with
  | Some v => <[attr := v]> self
  | None => self
  end.

(** Lines 53-78: the defaults, each replaced by the keyword argument
    that sets it. *)
Definition IO_defaults : gmap string attribute :=
  <["OutputTimeIndex" := AInt 0]>
    (<["appending" := ABool false]>
       (<["doing_output" := ABool false]>
          (<["output_frequency" := AFloat 86400]>
             (<["output_fields" := ANone]>
                (<["output_filename" := ANone]>
                   (<["restart_filename" := ANone]> ∅)))))).

Definition IO_settings (kwargs : gmap string attribute)
    : gmap string attribute :=
  from_kwargs kwargs "OutputFreq" "output_frequency"
    (from_kwargs kwargs "OutputFields" "output_fields"
       (from_kwargs kwargs "OutputFile" "output_filename"
          (from_kwargs kwargs "RestartFile" "restart_filename" IO_defaults))).

(** [list(set(Required).union(Diagnostic).union(Prognostic))], in the
    order the set yields its members. *)
Definition all_fields_of (Required Diagnostic Prognostic : list string)
    : list string :=
  base.elements (list_to_set (Required ++ Diagnostic ++ Prognostic) : gset string).

(** [a is None] *)
Definition is_None (a : attribute) : bool :=
  match a with ANone => true | _ => false end.

(** Lines 100-103: the output fields that are not fields of the
    component. *)
Definition odd_fields_of (output_fields : attribute)
    (all_fields : list string) : outcome (list string) :=
  if is_None output_fields then Done [] else
  match iterate_names output_fields with
  | Done names =>
      Done (base.elements
              (list_to_set names ∖ list_to_set all_fields : gset string))
  | Raise e => Raise e
  end.

(** [IO.__init__], given the module's flag [got_netcdf] and the three
    field lists of the component. *)
Definition IO_init (got_netcdf : bool)
    (Required Diagnostic Prognostic : list string)
    (kwargs : gmap string attribute) : io_outcome (gmap string attribute) :=
  if negb got_netcdf then
    Returned (<["appending" := ABool false]>
                (<["doing_output" := ABool false]> ∅))
  else
    let self := IO_settings kwargs in
    let output_filename := default ANone (self !! "output_filename") in
    if is_None output_filename then Returned self else
    let self := <["doing_output" := ABool true]> self in
    let restart_filename := default ANone (self !! "restart_filename") in
    let self :=
      <["appending" := ABool (attribute_eq output_filename restart_filename)]>
        self in
    let all_fields := all_fields_of Required Diagnostic Prognostic in
    let self := <["all_fields" := ANames all_fields]> self in
    let output_fields := default ANone (self !! "output_fields") in
    match odd_fields_of output_fields all_fields with
    | Raise e => Failed (Uncaught e)
    | Done odd_fields =>
        if (0 <? length odd_fields)%nat then Failed StringRaised
        else Returned (<["output_time_index" := AInt 0]> self)
    end.

(** ** [IO.writeOutput] *)

(** What [writeOutput] asks of the open file. A record is handed over
    with [astype('f')]: the file keeps it in single precision. *)
Inductive file_write :=
  | PutTime (index : attribute) (days : Q)
  | PutRecord (name : string) (index : attribute) (v : value)
  | PutAttribute (name : string) (v : value)
  | CloseFile.

(** [State[key].copy()]: only an array has the method. *)
Definition copy_of (v : value) : io_outcome ndarray :=
  match v with
  | VArr a => Returned a
  | _ => Failed (AttributeError "copy")
  end.

(** [out[:, :]]: all of an array of two or more dimensions. *)
Definition whole_2D (a : ndarray) : io_outcome value :=
  match shape a with
  | _ :: _ :: _ => Returned (VArr a)
  | _ => Failed (Uncaught (IndexError ":, :"))
  end.

(** How many entries the slice [nlev-1::-1] takes of an axis of length
    [n]: from index [nlev-1] (the last one when that is beyond the axis,
    counted from the end when it is negative) down to the first. *)
Definition levels_taken (nlev : Z) (n : nat) : nat :=
  if (0 <? nlev)%Z then Nat.min (Z.to_nat nlev) n
  else Z.to_nat (nlev + Z.of_nat n).

(** [out[:,:,nlev-1::-1]]: along the third axis, the entries from index
    [nlev-1] down to the first. *)
Definition flip_levels (nlev : Z) (a : ndarray) : io_outcome value :=
  match shape a with
  | n1 :: n2 :: n3 :: rest =>
      let block := size_of rest in
      let taken := levels_taken nlev n3 in
      let rows := chunks (n1 * n2) (n3 * block) (data a) in
      let flip row := concat (reverse (take taken (chunks n3 block row))) in
      Returned (VArr {| shape := n1 :: n2 :: taken :: rest;
                        data := concat (map flip rows) |})
  | _ => Failed (Uncaught (IndexError ":,:,nlev-1::-1"))
  end.

(** A number used in a slice: it has to be whole. *)
Definition as_index (v : value) : io_outcome Z :=
  match v with
  | VNum x => if Qeq_bool (inject_Z (Qfloor x)) x then Returned (Qfloor x)
              else Failed (Uncaught TypeError)
  | _ => Failed (Uncaught TypeError)
  end.

(** Lines 244-250: the record asked to be written for one field, if
    any. [State[key]] reads [Now]. *)
Definition record_of (known : gmap string (string * string * string))
    (c : Component) (nlev : value) (index : attribute) (key : string)
    : io_outcome (option file_write) :=
  match known !! key with
  | None => Failed (Uncaught (KeyError key))
  | Some (_, _, dims) =>
      if decide (dims = "2D") then
        match lift_io (subscript (Now c) key) with
        | Failed e => Failed e
        | Returned v =>
        match copy_of v with
        | Failed e => Failed e
        | Returned out =>
        match whole_2D out with
        | Failed e => Failed e
        | Returned out => Returned (Some (PutRecord key index out))
        end end end
      else if decide (dims = "3D") then
        match lift_io (subscript (Now c) key) with
        | Failed e => Failed e
        | Returned v =>
        match copy_of v with
        | Failed e => Failed e
        | Returned out =>
        match as_index nlev with
        | Failed e => Failed e
        | Returned n =>
        match flip_levels n out with
        | Failed e => Failed e
        | Returned out => Returned (Some (PutRecord key index out))
        end end end end
      else Returned None
  end.

(** The loop of line 243. [put f w] is what the netCDF library makes of
    the request [w] on the file [f]: the file afterwards, or the
    exception it raises. *)
Fixpoint write_fields {File : Type}
    (put : File → file_write → io_outcome File)
    (known : gmap string (string * string * string))
    (c : Component) (nlev : value) (index : attribute) (keys : list string)
    (f : File) : io_outcome unit * File :=
  match keys with
  | [] => (Returned tt, f)
  | key :: rest =>
      match record_of known c nlev index key with
      | Failed e => (Failed e, f)
      | Returned None => write_fields put known c nlev index rest f
      | Returned (Some w) =>
          match put f w with
          | Failed e => (Failed e, f)
          | Returned f' => write_fields put known c nlev index rest f'
          end
      end
  end.

(** [index + 1] *)
Definition attribute_succ (index : attribute) : io_outcome attribute :=
  match index with
  | AInt n => Returned (AInt (n + 1))
  | ABool b => Returned (AInt (Z.b2z b + 1))
  | AFloat x => Returned (AFloat (x + 1))
  | _ => Failed (Uncaught TypeError)
  end.

(** [self.<name>] *)
Definition attr_of (self : gmap string attribute) (name : string)
    : io_outcome attribute :=
  match self !! name with
  | Some a => Returned a
  | None => Failed (AttributeError name)
  end.

(** [IO.writeOutput(Params, State)], the parameters and the state being
    those of the component [c]; [opened] is what
    [open_file(self.output_filename, 'a')] gives. The result is how the
    call ends, the instance as it leaves it, and the file as the last
    request granted left it, if it was opened. *)
Definition writeOutput {File : Type}
    (put : File → file_write → io_outcome File) (got_netcdf : bool)
    (known : gmap string (string * string * string))
    (self : gmap string attribute) (opened : io_outcome File)
    (c : Component)
    : io_outcome unit * gmap string attribute * option File :=
  if negb got_netcdf then (Returned tt, self, None) else
  match attr_of self "doing_output" with
  | Failed e => (Failed e, self, None)
  | Returned doing =>
  if negb (truthy doing) then (Returned tt, self, None) else
  match attr_of self "output_filename" with
  | Failed e => (Failed e, self, None)
  | Returned _ =>
  match opened with
  | Failed e => (Failed e, self, None)
  | Returned f =>
  match (if Qeq_bool (ElapsedTime c) 0 then Returned ANone
         else attr_of self "OutputFieldNames") with
  | Failed e => (Failed e, self, Some f)
  | Returned _ =>
  match attr_of self "output_fields" with
  | Failed e => (Failed e, self, Some f)
  | Returned OutputFieldNames =>
  match attr_of self "output_time_index" with
  | Failed e => (Failed e, self, Some f)
  | Returned index =>
      let days := float_div (ElapsedTime c) 86400 in
      match put f (PutTime index days) with
      | Failed e => (Failed e, self, Some f)
      | Returned f =>
      match lift_io (subscript (grid c) "nlev") with
      | Failed e => (Failed e, self, Some f)
      | Returned nlev =>
      match lift_io (iterate_names OutputFieldNames) with
      | Failed e => (Failed e, self, Some f)
      | Returned keys =>
      match write_fields put known c nlev index keys f with
      | (Failed e, f) => (Failed e, self, Some f)
      | (Returned _, f) =>
      match put f (PutTime index days) with
      | Failed e => (Failed e, self, Some f)
      | Returned f =>
      match lift_io (Parameters_getitem c "calday") with
      | Failed e => (Failed e, self, Some f)
      | Returned calday =>
      match put f (PutAttribute "calday" calday) with
      | Failed e => (Failed e, self, Some f)
      | Returned f =>
      match attribute_succ index with
      | Failed e => (Failed e, self, Some f)
      | Returned next =>
          let self := <["output_time_index" := next]> self in
          match put f CloseFile with
          | Failed e => (Failed e, self, Some f)
          | Returned f => (Returned tt, self, Some f)
          end
      end end end end end end end end
  end end end end end end.

(** * Further predicates and measures *)

(** The names under which the kernel returns the increments of the
    fields [keys]. *)
Definition increment_keys (keys : list string) : list string :=
  (λ k, k +:+ "inc") <$> keys.

Definition is_write_call (e : call) : bool :=
  match e with CallWrite => true | _ => false end.

(** What a construction that goes on to set up output leaves on the
    instance when it returns. *)
Definition output_instance (R D P : list string)
    (kwargs : gmap string attribute) : gmap string attribute :=
  <["output_time_index" := AInt 0]>
    (<["all_fields" := ANames (all_fields_of R D P)]>
       (<["appending" :=
            ABool (attribute_eq
                     (default ANone (kwargs !! "OutputFile"))
                     (default ANone
                        (IO_settings kwargs !! "restart_filename")))]>
          (<["doing_output" := ABool true]> (IO_settings kwargs)))).

(** * More sample components *)

Module Cases.

(** A declaration with other kernel inputs. *)
Definition with_inputs (D : Declaration) (names : list string)
    : Declaration :=
  {| Prognostic := Prognostic D; Diagnostic := Diagnostic D;
     ToExtension := names; FromExtension := FromExtension D;
     SteppingScheme := SteppingScheme D; driver := driver D;
     KnownFields := KnownFields D |}.

(** A declaration with another table of known fields. *)
Definition with_known_fields (D : Declaration)
    (known : gmap string (string * string * string)) : Declaration :=
  {| Prognostic := Prognostic D; Diagnostic := Diagnostic D;
     ToExtension := ToExtension D; FromExtension := FromExtension D;
     SteppingScheme := SteppingScheme D; driver := driver D;
     KnownFields := known |}.

(** A component with another update frequency. *)
Definition with_update_frequency (f : Q) (c : Component) : Component :=
  {| Fixed := Fixed c; parameters := parameters c;
     update_frequency := f; grid := grid c;
     Shape3D := Shape3D c; Now := Now c; Old := Old c;
     ElapsedTime := ElapsedTime c; Inc := Inc c; attrs := attrs c;
     OutputFreq := OutputFreq c; Monitoring := Monitoring c;
     MonitorFreq := MonitorFreq c; calls := calls c |}.

Definition centred : Declaration :=
  Sample.declaration "semi-implicit" ["T"].
Definition centred_moist : Declaration :=
  Sample.declaration "semi-implicit" ["T"; "q"].

(** [radiation] asking for the surface pressure, which no sample
    component holds. *)
Definition hungry : Declaration :=
  with_inputs Sample.radiation ["T"; "ps"; "dt"].

(** [radiation] with a 3D temperature. *)
Definition layered : Declaration :=
  with_known_fields Sample.radiation
    {[ "T" := ("temperature", "K", "3D");
       "Ts" := ("surface temperature", "K", "2D") ]}.

(** A timestep of [200] seconds, twice the update frequency, with the
    kernel's increment in place. *)
Definition coarse_born : Component :=
  set_Inc (λ _, {[ "T" := VNum 1 ]})
          (Sample.configured [] 200 0 (1, 1, 1)%nat).

Definition stalled : Component := with_update_frequency 0 Sample.column.

Definition column_grid : Component :=
  set_grid (λ _, {[ "T" := VNum 1 ]}) Sample.column.

Definition levels : Component :=
  Sample.configured [] 30 0 (2, 1, 3)%nat.

End Cases.

(** * Sample files and instances *)

Module Files.

Definition known : gmap string (string * string * string) :=
  {[ "T" := ("temperature", "K", "3D");
     "Ts" := ("surface temperature", "K", "2D") ]}.

(** A restart file with two records, one a day. *)
Definition two_days : NetCDFFile :=
  {| global_attributes := {[ "dt" := VNum 30 ]};
     variables :=
       {[ "time" := {| shape := [2%nat]; data := [1; 2] |};
          "lev" := {| shape := [2%nat]; data := [100; 1000] |};
          "lat" := {| shape := [1%nat]; data := [0] |};
          "lon" := {| shape := [1%nat]; data := [0] |};
          "Ts" := {| shape := [2; 1; 1]%nat; data := [280; 281] |} ]} |}.

(** A caller who brings a surface temperature. *)
Definition supplied : gmap string value := {[ "Ts" := VNum 300 ]}.

Definition restarted : gmap string value :=
  match readRestart true known (Returned two_days) true None
                    ["Ts"] ["dt"] supplied with
  | Returned (kwargs, _) => kwargs
  | Failed _ => ∅
  end.

(** Keyword arguments naming an output file, with and without output
    fields. *)
Definition to_file : gmap string attribute :=
  {[ "OutputFile" := AStr "out.nc"; "OutputFields" := ANames ["T"] ]}.
Definition to_file_all : gmap string attribute :=
  {[ "OutputFile" := AStr "out.nc" ]}.

(** A file that grants every request. *)
Definition granted (f : list file_write) (w : file_write)
    : io_outcome (list file_write) := Returned (f ++ [w]).

(** A column of two levels. *)
Definition two_levels : Component :=
  set_Now (λ _, {[ "T" := VArr {| shape := [1; 1; 2]%nat;
                                  data := [280; 250] |} ]})
          (Sample.configured [] 30 0 (2, 1, 1)%nat).

End Files.

(** * Rounding keeps the order *)

(** ** Powers of two *)

Lemma pow2_pos z : 0 < Qpower 2 z.
Proof. by apply Qpower_0_lt. Qed.

Lemma pow2_succ z : Qpower 2 (z + 1) == 2 * Qpower 2 z.
Proof. rewrite Qpower_plus by done. simpl. lra. Qed.

Lemma pow2_le a b : (a <= b)%Z → Qpower 2 a <= Qpower 2 b.
Proof. intros H. by apply Qpower_le_compat_l. Qed.

Lemma pow2_lt a b : (a < b)%Z → Qpower 2 a < Qpower 2 b.
Proof. intros H. by apply Qpower_lt_compat_l. Qed.

Lemma pow2_Z a : (0 <= a)%Z → inject_Z (2 ^ a) == Qpower 2 a.
Proof. intros H. by rewrite Zpower_Qpower. Qed.

(** A positive number lies in one binade only. *)
Lemma binade_interval_unique x a b :
  Qpower 2 a <= x → x < Qpower 2 (a + 1) →
  Qpower 2 b <= x → x < Qpower 2 (b + 1) → a = b.
Proof.
  intros Ha1 Ha2 Hb1 Hb2.
  destruct (Z.lt_trichotomy a b) as [Hlt|[Heq|Hgt]]; [|done|].
  - assert (Qpower 2 (a + 1) <= Qpower 2 b) by (apply pow2_le; lia). lra.
  - assert (Qpower 2 (b + 1) <= Qpower 2 a) by (apply pow2_le; lia). lra.
Qed.

Lemma log2_bounds (n : Z) :
  (0 < n)%Z →
  Qpower 2 (Z.log2 n) <= inject_Z n ∧
  inject_Z n < 2 * Qpower 2 (Z.log2 n).
Proof.
  intros Hn. destruct (Z.log2_spec n Hn) as [H1 H2].
  pose proof (Z.log2_nonneg n) as H0.
  rewrite <- pow2_succ. rewrite <- !pow2_Z by lia.
  rewrite <- Zle_Qle, <- Zlt_Qlt. replace (Z.log2 n + 1)%Z with (Z.succ (Z.log2 n)) by lia.
  done.
Qed.

Lemma binade_spec x :
  0 < x → Qpower 2 (binade x) <= x ∧ x < Qpower 2 (binade x + 1).
Proof.
  intros Hx. destruct x as [n d].
  assert (0 < n)%Z as Hn.
  { unfold Qlt in Hx. simpl in Hx. lia. }
  unfold binade. cbn [Qnum Qden].
  set (a := Z.log2 n). set (b := Z.log2 (Z.pos d)).
  destruct (log2_bounds n Hn) as [An1 An2]. fold a in An1, An2.
  destruct (log2_bounds (Z.pos d) eq_refl) as [Bd1 Bd2]. fold b in Bd1, Bd2.
  pose proof (pow2_pos a) as PA. pose proof (pow2_pos b) as PB.
  assert (Qpower 2 (a - b) * Qpower 2 b == Qpower 2 a) as Hab.
  { rewrite <- Qpower_plus by done. by replace (a - b + b)%Z with a by lia. }
  pose proof (pow2_pos (a - b)) as PK.
  assert (n # d == inject_Z n / inject_Z (Z.pos d)) as Hq by apply Qmake_Qdiv.
  assert (0 < inject_Z (Z.pos d)) as Hd by (rewrite <- (Zlt_Qlt 0); lia).
  assert ((n # d) * inject_Z (Z.pos d) == inject_Z n) as Hmul.
  { rewrite Hq. field. lra. }
  set (x := n # d) in *. set (dq := inject_Z (Z.pos d)) in *.
  set (nq := inject_Z n) in *.
  set (K := Qpower 2 (a - b)) in *. set (A := Qpower 2 a) in *.
  set (B := Qpower 2 b) in *.
  assert (x < 2 * K) as Hup.
  { apply (Qmult_lt_r _ _ dq Hd). rewrite Hmul.
    apply Qlt_le_trans with (2 * A); [done|].
    rewrite <- Hab. rewrite <- Qmult_assoc.
    apply Qmult_le_l; [lra|]. apply Qmult_le_l; [done|]. done. }
  assert (K <= 2 * x) as Hlow.
  { apply (Qmult_le_r _ _ dq Hd).
    rewrite <- Qmult_assoc, Hmul.
    apply Qle_trans with (K * (2 * B)).
    - apply Qmult_le_l; [done|]. lra.
    - rewrite (Qmult_comm 2 B), Qmult_assoc, Hab. lra. }
  destruct (Qle_bool K x) eqn:E.
  - apply Qle_bool_iff in E. split; [done|]. by rewrite pow2_succ.
  - assert (x < K) as Hlt.
    { apply Qnot_le_lt. intros H. apply Qle_bool_iff in H. congruence. }
    replace (a - b - 1 + 1)%Z with (a - b)%Z by lia. split; [|done].
    pose proof (pow2_pos (a - b - 1)).
    assert (2 * Qpower 2 (a - b - 1) == K) as HK2.
    { rewrite <- pow2_succ. by replace (a - b - 1 + 1)%Z with (a - b)%Z by lia. }
    lra.
Qed.

Lemma binade_unique x l :
  Qpower 2 l <= x → x < Qpower 2 (l + 1) → binade x = l.
Proof.
  intros H1 H2.
  assert (0 < x) as Hx by (pose proof (pow2_pos l); lra).
  destruct (binade_spec x Hx) as [B1 B2].
  by apply (binade_interval_unique x).
Qed.

Lemma binade_proper x y : 0 < x → x == y → binade x = binade y.
Proof.
  intros Hx Hxy. destruct (binade_spec x Hx) as [B1 B2].
  symmetry. apply binade_unique; by rewrite <- Hxy.
Qed.

Lemma binade_mono x y : 0 < x → x <= y → (binade x <= binade y)%Z.
Proof.
  intros Hx Hxy.
  destruct (binade_spec x Hx) as [X1 X2].
  destruct (binade_spec y) as [Y1 Y2]; [lra|].
  destruct (Z.le_gt_cases (binade x) (binade y)) as [|Hgt]; [done|].
  assert (Qpower 2 (binade y + 1) <= Qpower 2 (binade x))
    by (apply pow2_le; lia).
  lra.
Qed.

Lemma binade_double x : 0 < x → binade (2 * x) = (binade x + 1)%Z.
Proof.
  intros Hx. destruct (binade_spec x Hx) as [X1 X2].
  apply binade_unique; rewrite !pow2_succ in *; lra.
Qed.

(** ** Rounding to the nearest integer *)

Lemma nearest_even_proper m m' : m == m' → nearest_even m = nearest_even m'.
Proof.
  intros H. unfold nearest_even. rewrite (Qfloor_comp m m' H).
  assert (m - inject_Z (Qfloor m') == m' - inject_Z (Qfloor m')) as ->
    by (by rewrite H).
  done.
Qed.

Lemma nearest_even_Z z : nearest_even (inject_Z z) = z.
Proof.
  unfold nearest_even. rewrite Qfloor_Z.
  assert (inject_Z z - inject_Z z == 0) as -> by ring. done.
Qed.

Lemma nearest_even_floor m :
  (Qfloor m <= nearest_even m <= Qfloor m + 1)%Z.
Proof.
  unfold nearest_even.
  destruct (Qcompare _ _); [destruct (Z.even _)|..]; lia.
Qed.

Lemma nearest_even_mono m m' : m <= m' → (nearest_even m <= nearest_even m')%Z.
Proof.
  intros H. pose proof (Qfloor_resp_le m m' H) as Hf.
  destruct (Z.eq_dec (Qfloor m) (Qfloor m')) as [Heq|Hne].
  - unfold nearest_even. rewrite <- Heq.
    set (f := Qfloor m).
    destruct (Qcompare (m - inject_Z f) (1 # 2)) eqn:E1;
      destruct (Qcompare (m' - inject_Z f) (1 # 2)) eqn:E2;
      try (destruct (Z.even f)); try lia; exfalso;
      first [apply Qeq_alt in E1 | apply Qlt_alt in E1 | apply Qgt_alt in E1];
      first [apply Qeq_alt in E2 | apply Qlt_alt in E2 | apply Qgt_alt in E2];
      lra.
  - pose proof (nearest_even_floor m). pose proof (nearest_even_floor m').
    lia.
Qed.

Lemma nearest_even_between (a b : Z) m :
  inject_Z a <= m → m <= inject_Z b → (a <= nearest_even m <= b)%Z.
Proof.
  intros Ha Hb. split.
  - rewrite <- (nearest_even_Z a). by apply nearest_even_mono.
  - rewrite <- (nearest_even_Z b). by apply nearest_even_mono.
Qed.

(** ** Rounding a positive number to 53 bits *)

Lemma significand_range x :
  0 < x →
  let e := (binade x - 52)%Z in
  inject_Z (2 ^ 52) <= x / Qpower 2 e ∧ x / Qpower 2 e < inject_Z (2 ^ 53).
Proof.
  intros Hx e. destruct (binade_spec x Hx) as [B1 B2].
  pose proof (pow2_pos e) as Pe.
  assert (Qpower 2 (binade x) == inject_Z (2 ^ 52) * Qpower 2 e) as H52.
  { rewrite pow2_Z by done. rewrite <- Qpower_plus by done.
    unfold e. by replace (52 + (binade x - 52))%Z with (binade x) by lia. }
  assert (Qpower 2 (binade x + 1) == inject_Z (2 ^ 53) * Qpower 2 e) as H53.
  { rewrite pow2_Z by done. rewrite <- Qpower_plus by done.
    unfold e. by replace (53 + (binade x - 52))%Z with (binade x + 1)%Z by lia. }
  split.
  - apply Qle_shift_div_l; [done|]. by rewrite <- H52.
  - apply Qlt_shift_div_r; [done|]. by rewrite <- H53.
Qed.

Lemma round_to_53_range x :
  0 < x →
  Qpower 2 (binade x) <= round_to_53 x ∧
  round_to_53 x <= Qpower 2 (binade x + 1).
Proof.
  intros Hx. unfold round_to_53. set (e := (binade x - 52)%Z).
  destruct (significand_range x Hx) as [S1 S2]. fold e in S1, S2.
  destruct (nearest_even_between (2 ^ 52) (2 ^ 53) (x / Qpower 2 e))
    as [N1 N2]; [done|lra|].
  pose proof (pow2_pos e) as Pe.
  assert (Qpower 2 (binade x) == inject_Z (2 ^ 52) * Qpower 2 e) as ->.
  { rewrite pow2_Z by done. rewrite <- Qpower_plus by done.
    unfold e. by replace (52 + (binade x - 52))%Z with (binade x) by lia. }
  assert (Qpower 2 (binade x + 1) == inject_Z (2 ^ 53) * Qpower 2 e) as ->.
  { rewrite pow2_Z by done. rewrite <- Qpower_plus by done.
    unfold e. by replace (53 + (binade x - 52))%Z with (binade x + 1)%Z by lia. }
  split; (apply Qmult_le_r; [done|]); by rewrite <- Zle_Qle.
Qed.

Lemma round_to_53_pos x : 0 < x → 0 < round_to_53 x.
Proof.
  intros Hx. destruct (round_to_53_range x Hx) as [H _].
  pose proof (pow2_pos (binade x)). lra.
Qed.

Lemma round_to_53_proper x y : 0 < x → x == y → round_to_53 x == round_to_53 y.
Proof.
  intros Hx Hxy. unfold round_to_53.
  rewrite <- (binade_proper x y Hx Hxy).
  rewrite (nearest_even_proper (x / _) (y / Qpower 2 (binade x - 52)));
    [reflexivity|].
  by apply Qdiv_comp.
Qed.

Lemma round_to_53_mono x y :
  0 < x → x <= y → round_to_53 x <= round_to_53 y.
Proof.
  intros Hx Hxy. assert (0 < y) as Hy by lra.
  pose proof (binade_mono x y Hx Hxy) as Hb.
  destruct (Z.eq_dec (binade x) (binade y)) as [Heq|Hne].
  - unfold round_to_53. rewrite <- Heq.
    pose proof (pow2_pos (binade x - 52)) as Pe.
    apply Qmult_le_r; [done|]. rewrite <- Zle_Qle.
    apply nearest_even_mono. apply Qmult_le_r; [by apply Qinv_lt_0_compat|].
    done.
  - destruct (round_to_53_range x Hx) as [_ X2].
    destruct (round_to_53_range y Hy) as [Y1 _].
    assert (Qpower 2 (binade x + 1) <= Qpower 2 (binade y))
      by (apply pow2_le; lia).
    lra.
Qed.

Lemma round_to_53_double x :
  0 < x → round_to_53 (2 * x) == 2 * round_to_53 x.
Proof.
  intros Hx. unfold round_to_53. rewrite (binade_double x Hx).
  replace (binade x + 1 - 52)%Z with (binade x - 52 + 1)%Z by lia.
  set (e := (binade x - 52)%Z). pose proof (pow2_pos e) as Pe.
  rewrite (nearest_even_proper (2 * x / Qpower 2 (e + 1)) (x / Qpower 2 e)).
  - rewrite pow2_succ. ring.
  - rewrite pow2_succ. field. lra.
Qed.

(** ** [round64] *)

Lemma Qnum_pos x : 0 < x → ∃ p, Qnum x = Z.pos p.
Proof.
  destruct x as [[|p|p] d]; unfold Qlt; simpl; intros H; try lia. by exists p.
Qed.

Lemma Qnum_neg x : x < 0 → ∃ p, Qnum x = Z.neg p.
Proof.
  destruct x as [[|p|p] d]; unfold Qlt; simpl; intros H; try lia. by exists p.
Qed.

Lemma Qnum_zero x : x == 0 → Qnum x = 0%Z.
Proof. destruct x as [n d]. unfold Qeq. simpl. lia. Qed.

Lemma round64_of_pos x : 0 < x → round64 x = Qred (round_to_53 x).
Proof. intros [p Hp]%Qnum_pos. unfold round64. by rewrite Hp. Qed.

Lemma round64_of_neg x : x < 0 → round64 x = Qred (- round_to_53 (- x)).
Proof. intros [p Hp]%Qnum_neg. unfold round64. by rewrite Hp. Qed.

Lemma round64_of_zero x : x == 0 → round64 x = 0.
Proof. intros Hp%Qnum_zero. unfold round64. by rewrite Hp. Qed.

(** Equal numbers round to the same fraction. *)
Lemma round64_proper x y : x == y → round64 x = round64 y.
Proof.
  intros Hxy. destruct (Q_dec x 0) as [[Hneg|Hpos]|Hz].
  - rewrite (round64_of_neg x), (round64_of_neg y) by lra.
    apply Qred_complete. apply Qopp_comp.
    apply round_to_53_proper; [lra|]. by rewrite Hxy.
  - rewrite (round64_of_pos x), (round64_of_pos y) by lra.
    apply Qred_complete. by apply round_to_53_proper.
  - rewrite (round64_of_zero x), (round64_of_zero y); [done|lra|done].
Qed.

Lemma round64_opp x : round64 (- x) == - round64 x.
Proof.
  destruct (Q_dec x 0) as [[Hneg|Hpos]|Hz].
  - rewrite (round64_of_neg x), (round64_of_pos (- x)) by lra.
    rewrite !Qred_correct. ring.
  - rewrite (round64_of_pos x), (round64_of_neg (- x)) by lra.
    rewrite !Qred_correct.
    rewrite (round_to_53_proper (- - x) x); [done|lra|ring].
  - rewrite (round64_of_zero x), (round64_of_zero (- x)); [done|lra|done].
Qed.

Lemma round64_pos x : 0 < x → 0 < round64 x.
Proof.
  intros Hx. rewrite round64_of_pos, Qred_correct by done.
  by apply round_to_53_pos.
Qed.

Lemma round64_neg x : x < 0 → round64 x < 0.
Proof.
  intros Hx. rewrite round64_of_neg, Qred_correct by done.
  pose proof (round_to_53_pos (- x)). lra.
Qed.

Lemma round64_nonneg x : 0 <= x → 0 <= round64 x.
Proof.
  intros Hx. destruct (Qle_lt_or_eq _ _ Hx) as [Hpos|Hz].
  - apply Qlt_le_weak. by apply round64_pos.
  - rewrite round64_of_zero; [done|lra].
Qed.

(** Rounding keeps the order. *)
Lemma round64_mono x y : x <= y → round64 x <= round64 y.
Proof.
  intros Hxy. destruct (Q_dec x 0) as [[Hx|Hx]|Hx].
  - destruct (Q_dec y 0) as [[Hy|Hy]|Hy].
    + rewrite (round64_of_neg x), (round64_of_neg y), !Qred_correct by done.
      apply Qopp_le_compat. apply round_to_53_mono; lra.
    + pose proof (round64_neg x Hx). pose proof (round64_pos y Hy). lra.
    + pose proof (round64_neg x Hx). rewrite (round64_of_zero y) by done. lra.
  - rewrite (round64_of_pos x), (round64_of_pos y), !Qred_correct by lra.
    by apply round_to_53_mono.
  - rewrite (round64_of_zero x) by done. apply round64_nonneg. lra.
Qed.

Lemma round64_double x : round64 (2 * x) == 2 * round64 x.
Proof.
  destruct (Q_dec x 0) as [[Hx|Hx]|Hx].
  - rewrite (round64_of_neg x), (round64_of_neg (2 * x)), !Qred_correct by lra.
    rewrite (round_to_53_proper (- (2 * x)) (2 * - x)); [|lra|ring].
    rewrite round_to_53_double by lra. ring.
  - rewrite (round64_of_pos x), (round64_of_pos (2 * x)), !Qred_correct by lra.
    by apply round_to_53_double.
  - rewrite (round64_of_zero x), (round64_of_zero (2 * x)); [done|lra|done].
Qed.

Lemma round64_reduced x : Qred (round64 x) = round64 x.
Proof.
  unfold round64. destruct (Qnum x); [done|apply Qred_complete, Qred_correct..].
Qed.

(** ** The floats *)

Lemma inject_Z_succ_le a b : (a < b)%Z → inject_Z a + 1 <= inject_Z b.
Proof.
  intros H. change 1 with (inject_Z 1). rewrite <- inject_Z_plus.
  rewrite <- Zle_Qle. lia.
Qed.

Lemma inject_Z_pred_le a b : (a < b)%Z → inject_Z a <= inject_Z b - 1.
Proof. intros H. pose proof (inject_Z_succ_le a b H). lra. Qed.

(** A positive float is a 53-bit integer times the unit of its binade. *)
Lemma float_decompose y :
  is_float y → 0 < y →
  ∃ N : Z, y == inject_Z N * Qpower 2 (binade y - 52) ∧
           (2 ^ 52 <= N < 2 ^ 53)%Z.
Proof.
  intros Hf Hy. unfold is_float in Hf.
  rewrite round64_of_pos, Qred_correct in Hf by done.
  unfold round_to_53 in Hf. set (e := (binade y - 52)%Z) in *.
  set (N := nearest_even (y / Qpower 2 e)) in *.
  destruct (significand_range y Hy) as [S1 S2]. fold e in S1, S2.
  destruct (nearest_even_between (2 ^ 52) (2 ^ 53) (y / Qpower 2 e))
    as [N1 N2]; [done|lra|]. fold N in N1, N2.
  exists N. split; [by symmetry|]. split; [done|].
  pose proof (pow2_pos e) as Pe.
  rewrite Zlt_Qlt. apply (Qmult_lt_r _ _ (Qpower 2 e) Pe). rewrite Hf.
  apply (Qmult_lt_r _ _ (/ Qpower 2 e)); [by apply Qinv_lt_0_compat|].
  assert (inject_Z (2 ^ 53) * Qpower 2 e * / Qpower 2 e == inject_Z (2 ^ 53))
    as -> by (field; lra).
  done.
Qed.

Lemma unit_of_binade l :
  Qpower 2 l == inject_Z (2 ^ 52) * Qpower 2 (l - 52).
Proof.
  rewrite pow2_Z by done. rewrite <- Qpower_plus by done.
  by replace (52 + (l - 52))%Z with l by lia.
Qed.

(** Below a float [y] there is no float nearer than [y * 2^-53]. *)
Lemma float_gap x y :
  is_float x → is_float y → 0 < x → x < y →
  x <= y * (1 - (1 # 2 ^ 53)).
Proof.
  intros Fx Fy Hx Hxy. assert (0 < y) as Hy by lra.
  destruct (float_decompose x Fx Hx) as (Nx & Ex & Nx1 & Nx2).
  destruct (float_decompose y Fy Hy) as (Ny & Ey & Ny1 & Ny2).
  pose proof (binade_mono x y Hx (Qlt_le_weak _ _ Hxy)) as Hl.
  set (lx := binade x) in *. set (ly := binade y) in *.
  set (ux := Qpower 2 (lx - 52)) in *. set (uy := Qpower 2 (ly - 52)) in *.
  assert (0 < ux) as Pux by apply pow2_pos.
  assert (0 < uy) as Puy by apply pow2_pos.
  assert (inject_Z (2 ^ 52) <= inject_Z Nx) as Qx1 by (by rewrite <- Zle_Qle).
  assert (inject_Z Nx <= inject_Z (2 ^ 53) - 1) as Qx2
    by (by apply inject_Z_pred_le).
  assert (inject_Z (2 ^ 52) <= inject_Z Ny) as Qy1 by (by rewrite <- Zle_Qle).
  assert (inject_Z Ny <= inject_Z (2 ^ 53) - 1) as Qy2
    by (by apply inject_Z_pred_le).
  assert (y * (1 # 2 ^ 53) < uy) as Hulp.
  { rewrite Ey.
    assert (inject_Z Ny * uy * (1 # 2 ^ 53)
            == (inject_Z Ny * (1 # 2 ^ 53)) * uy) as -> by ring.
    rewrite <- (Qmult_1_l uy) at 2. apply Qmult_lt_r; [done|].
    change (inject_Z (2 ^ 53)) with (9007199254740992 # 1) in Qy2.
    change (1 # 2 ^ 53) with (1 # 9007199254740992). lra. }
  destruct (Z.eq_dec lx ly) as [Heq|Hne].
  - (* the same binade: the significands differ by one at least *)
    assert (ux = uy) as Hu by (unfold ux, uy; by rewrite Heq).
    rewrite Hu in Ex.
    assert (Nx < Ny)%Z as HN.
    { rewrite Zlt_Qlt. apply (Qmult_lt_r _ _ uy Puy). by rewrite <- Ex, <- Ey. }
    assert (inject_Z Nx <= inject_Z Ny - 1) as HN'
      by (by apply inject_Z_pred_le).
    assert (x <= y - uy) as Hstep.
    { rewrite Ex, Ey.
      assert (inject_Z Ny * uy - uy == (inject_Z Ny - 1) * uy) as -> by ring.
      by apply Qmult_le_r. }
    lra.
  - (* a lower binade *)
    assert (lx + 1 <= ly)%Z as Hlt by lia.
    pose proof (unit_of_binade ly) as Hly. fold uy in Hly.
    pose proof (unit_of_binade (lx + 1)) as Hlx1.
    replace (lx + 1 - 52)%Z with (lx - 52 + 1)%Z in Hlx1 by lia.
    rewrite (pow2_succ (lx - 52)) in Hlx1. fold ux in Hlx1.
    assert (x <= Qpower 2 (lx + 1) - ux) as Hxtop.
    { rewrite Ex, Hlx1.
      assert (inject_Z (2 ^ 52) * (2 * ux) - ux
              == (inject_Z (2 ^ 53) - 1) * ux) as ->.
      { change (inject_Z (2 ^ 52)) with (4503599627370496 # 1).
        change (inject_Z (2 ^ 53)) with (9007199254740992 # 1). ring. }
      by apply Qmult_le_r. }
    destruct (Z.eq_dec Ny (2 ^ 52)%Z) as [Hpow|Hbig].
    + (* [y] is a power of two *)
      assert (y == Qpower 2 ly) as Hy2 by (by rewrite Hly, Ey, Hpow).
      destruct (Z.eq_dec (lx + 1)%Z ly) as [Hnext|Hfar].
      * rewrite Hnext in Hxtop, Hlx1.
        assert (uy == 2 * ux) as Huu.
        { apply (Qmult_inj_l _ _ (inject_Z (2 ^ 52))); [done|].
          by rewrite <- Hly, <- Hlx1. }
        assert (y * (1 # 2 ^ 53) == ux) as Hc.
        { rewrite Hy2, Hlx1.
          change (inject_Z (2 ^ 52)) with (4503599627370496 # 1).
          change (1 # 2 ^ 53) with (1 # 9007199254740992). field. }
        lra.
      * assert (Qpower 2 (lx + 1 + 1) <= Qpower 2 ly) as Hhalf
          by (apply pow2_le; lia).
        rewrite pow2_succ in Hhalf.
        change (1 # 2 ^ 53) with (1 # 9007199254740992). lra.
    + (* [y] lies above the power of two that bounds [x] *)
      assert (inject_Z (2 ^ 52) + 1 <= inject_Z Ny) as HNy
        by (apply inject_Z_succ_le; lia).
      assert (Qpower 2 ly + uy <= y) as Hyy.
      { rewrite Hly, Ey.
        assert (inject_Z (2 ^ 52) * uy + uy
                == (inject_Z (2 ^ 52) + 1) * uy) as -> by ring.
        by apply Qmult_le_r. }
      assert (Qpower 2 (lx + 1) <= Qpower 2 ly) by (by apply pow2_le).
      lra.
Qed.

Lemma round64_below_one : round64 (1 - (1 # 2 ^ 53)) == 1 - (1 # 2 ^ 53).
Proof. apply Qeq_bool_iff. vm_compute. reflexivity. Qed.

(** The quotient of a float by a greater one rounds to less than one. *)
Lemma float_div_lt_1 x y :
  is_float x → is_float y → 0 <= x → x < y → float_div x y < 1.
Proof.
  intros Fx Fy Hx Hxy. assert (0 < y) as Hy by lra.
  unfold float_div.
  apply Qle_lt_trans with (round64 (1 - (1 # 2 ^ 53))).
  - apply round64_mono. apply Qle_shift_div_r; [done|].
    destruct (Qle_lt_or_eq _ _ Hx) as [Hpos|Hz].
    + rewrite Qmult_comm. by apply float_gap.
    + rewrite <- Hz. apply Qmult_le_0_compat; [|lra].
      change (1 # 2 ^ 53) with (1 # 9007199254740992). lra.
  - rewrite round64_below_one.
    change (1 # 2 ^ 53) with (1 # 9007199254740992). lra.
Qed.

Lemma float_div_nonneg x y : 0 <= x → 0 < y → 0 <= float_div x y.
Proof.
  intros Hx Hy. apply round64_nonneg.
  apply Qle_shift_div_l; [done|]. lra.
Qed.

(** * Reasoning about method bodies *)

Section Run.
Context {A B : Type}.

Lemma bind_Done (m : Py A) (k : A → Py B) c a c1 :
  m c = (Done a, c1) → bind m k c = k a c1.
Proof. unfold bind. by intros ->. Qed.

Lemma bind_Raise (m : Py A) (k : A → Py B) c e c1 :
  m c = (Raise e, c1) → bind m k c = (Raise e, c1).
Proof. unfold bind. by intros ->. Qed.

Lemma bind_inv_Done (m : Py A) (k : A → Py B) c b c' :
  bind m k c = (Done b, c') →
  ∃ a c1, m c = (Done a, c1) ∧ k a c1 = (Done b, c').
Proof.
  unfold bind. destruct (m c) as [[a|e] c1]; [eauto | discriminate].
Qed.
End Run.

Section Keeps.
Context {X : Type} (proj : Component → X).

Lemma keeps_ret {A} (a : A) : keeps proj (ret a).
Proof. done. Qed.

Lemma keeps_raise {A} e : keeps proj (@raise A e).
Proof. done. Qed.

Lemma keeps_lift {A} (o : outcome A) : keeps proj (lift o).
Proof. done. Qed.

Lemma keeps_get : keeps proj get.
Proof. done. Qed.

Lemma keeps_modify f : (∀ c, proj (f c) = proj c) → keeps proj (modify f).
Proof. intros H c. apply H. Qed.

Lemma keeps_bind {A B} (m : Py A) (k : A → Py B) :
  keeps proj m → (∀ a, keeps proj (k a)) → keeps proj (bind m k).
Proof.
  intros Hm Hk c. unfold bind. specialize (Hm c).
  destruct (m c) as [[a|e] c1]; simpl in *; [|done].
  by rewrite Hk.
Qed.

Lemma keeps_for_each {A} (xs : list A) body :
  (∀ x, keeps proj (body x)) → keeps proj (for_each xs body).
Proof.
  intros Hb. induction xs as [|x xs IH]; simpl.
  - apply keeps_ret.
  - apply keeps_bind; auto.
Qed.

Lemma keeps_repeat_body n body :
  keeps proj body → keeps proj (repeat_body n body).
Proof.
  intros Hb. induction n as [|n IH]; simpl.
  - apply keeps_ret.
  - apply keeps_bind; auto.
Qed.
End Keeps.

(** Structural steps shared by the [keeps] proofs below. *)
Ltac keeps_step :=
  first
    [ apply keeps_ret | apply keeps_raise | apply keeps_lift | apply keeps_get
    | apply keeps_bind; [|intros ?]
    | apply keeps_for_each; intros ?
    | apply keeps_repeat_body
    | apply keeps_modify; intros ?; reflexivity ].

Ltac keeps_auto :=
  repeat first
    [ keeps_step
    | match goal with
      | |- keeps _ (if ?b then _ else _) => destruct b
      | |- keeps _ (match ?x with _ => _ end) => destruct x
      | |- keeps _ (let '(_, _) := ?x in _) => destruct x
      end ].

(** Reading through the accessor changes nothing. *)
Lemma getnum_run key c :
  getnum key c =
    (match getitem c key with Done v => as_num v | Raise e => Raise e end, c).
Proof.
  unfold getnum, bind, get, lift. by destruct (getitem c key).
Qed.

Lemma keeps_getnum {X} (proj : Component → X) key : keeps proj (getnum key).
Proof. unfold getnum. keeps_auto. Qed.

Lemma time_for_update_state c : (time_for_update c).2 = c.
Proof. apply (keeps_bind id); intros; unfold getnum; keeps_auto. Qed.

(** * Input assembly *)

Lemma extension_args_lookup Input keys args i key :
  extension_args Input keys = Done args →
  keys !! i = Some key →
  args !! i = Input !! key.
Proof.
  revert args i. induction keys as [|k keys IH]; intros args i Hargs Hi.
  - done.
  - simpl in Hargs. unfold subscript in Hargs.
    destruct (Input !! k) as [v|] eqn:Hk; [|done].
    destruct (extension_args Input keys) as [vs|e] eqn:Hvs; [|done].
    injection Hargs as <-.
    destruct i as [|i]; simpl in *.
    + by injection Hi as <-.
    + by apply IH.
Qed.

Lemma assemble_input_implicit D c :
  SteppingScheme D = "implicit" →
  assemble_input D c = Done (Old c ∪ baseline_input c).
Proof.
  intros Hs. unfold assemble_input. rewrite Hs.
  by repeat case_decide.
Qed.

Lemma keeps_extract_increments {X} (proj : Component → X) keys Output :
  (∀ f c, proj (set_Inc f c) = proj c) →
  keeps proj (extract_increments keys Output).
Proof.
  intros HInc. revert Output.
  induction keys as [|k ks IH]; intros Output; simpl.
  - apply keeps_ret.
  - apply keeps_bind; [apply keeps_lift|intros v].
    apply keeps_bind; [by apply keeps_modify|intros _]. apply IH.
Qed.

Lemma keeps_calls_store_output D Output : keeps calls (store_output D Output).
Proof.
  unfold store_output, State_update.
  apply keeps_bind; [by apply keeps_extract_increments|intros ?].
  keeps_auto.
Qed.

(** What a [compute] that got past the gate does up to the kernel call. *)
Lemma run_kernel_run D c Input args :
  assemble_input D c = Done Input →
  extension_args Input (ToExtension D) = Done args →
  run_kernel D c =
    (build_output (FromExtension D) (driver D args), log (CallDriver args) c).
Proof.
  intros HI Ha. unfold run_kernel, bind, get, lift, call_driver, modify.
  rewrite HI, Ha. simpl.
  by destruct (build_output (FromExtension D) (driver D args)).
Qed.

Lemma compute_forced_calls D c Input args :
  assemble_input D c = Done Input →
  extension_args Input (ToExtension D) = Done args →
  calls (compute D true c).2 = CallDriver args :: calls c.
Proof.
  intros HI Ha. unfold compute.
  rewrite (bind_Done _ _ c true c) by done. simpl.
  unfold bind at 1. rewrite (run_kernel_run D c Input args HI Ha).
  destruct (build_output (FromExtension D) (driver D args)) as [Output|e];
    [|done].
  by rewrite keeps_calls_store_output.
Qed.

(** C2. With the stepping scheme 'implicit', the input that [compute]
    assembles binds every key of [State.Old] to its [Old] value, whatever
    [State.Now], the grid or the parameters hold for that key, and so do
    the positional arguments handed to the kernel. *)
Theorem implicit_input_is_old D c :
  SteppingScheme D = "implicit" →
  ∃ Input,
    assemble_input D c = Done Input ∧
    (∀ key v, Old c !! key = Some v → Input !! key = Some v) ∧
    (∀ args, extension_args Input (ToExtension D) = Done args →
       calls (compute D true c).2 = CallDriver args :: calls c ∧
       ∀ i key v, ToExtension D !! i = Some key →
                  Old c !! key = Some v → args !! i = Some v).
Proof.
  intros Hs. exists (Old c ∪ baseline_input c).
  pose proof (assemble_input_implicit D c Hs) as HI.
  split; [done|]. split.
  - intros key v Hold. by apply lookup_union_Some_l.
  - intros args Hargs. split.
    + by apply (compute_forced_calls D c _ args HI).
    + intros i key v Hi Hold.
      rewrite (extension_args_lookup _ _ _ _ _ Hargs Hi).
      by apply lookup_union_Some_l.
Qed.

(** * Increment extraction *)

Lemma length_append (s t : string) :
  String.length (s +:+ t) = (String.length s + String.length t)%nat.
Proof. induction s as [|a s IH]; simpl; [done|by rewrite IH]. Qed.

(** Two field names with the same increment key are the same field. *)
Lemma suffix_inj (t s1 s2 : string) : s1 +:+ t = s2 +:+ t → s1 = s2.
Proof.
  revert s2. induction s1 as [|a s1 IH]; intros [|b s2] H; simpl in *.
  - done.
  - apply (f_equal String.length) in H.
    rewrite !length_append in H. simpl in H. lia.
  - apply (f_equal String.length) in H.
    rewrite !length_append in H. simpl in H. lia.
  - injection H as -> H. f_equal. by apply IH.
Qed.

Lemma only_Inc_changed_refl c : only_Inc_changed c c.
Proof. by destruct c. Qed.

Lemma only_Inc_changed_set f c c' :
  only_Inc_changed (set_Inc f c) c' → only_Inc_changed c c'.
Proof. unfold only_Inc_changed. intros ->. by destruct c. Qed.

(** The loop of lines 109-110 over a prefix [pre] of the keys, all of
    whose increment keys the output holds. *)
Lemma extract_increments_app pre rest Output c :
  NoDup pre →
  (∀ k, k ∈ pre → is_Some (Output !! (k +:+ "inc"))) →
  ∃ c1 Output1,
    extract_increments (pre ++ rest) Output c
      = extract_increments rest Output1 c1 ∧
    only_Inc_changed c c1 ∧
    (∀ k, k ∈ pre → Inc c1 !! k = Output !! (k +:+ "inc")) ∧
    (∀ k, k ∉ pre → Inc c1 !! k = Inc c !! k) ∧
    (∀ k, k ∈ pre → Output1 !! (k +:+ "inc") = None) ∧
    (∀ x, (∀ k, k ∈ pre → x ≠ k +:+ "inc") → Output1 !! x = Output !! x).
Proof.
  revert Output c. induction pre as [|p pre IH]; intros Output c Hnd Hin.
  - exists c, Output. simpl. split_and!; try done.
    + apply only_Inc_changed_refl.
    + intros k Hk. by apply elem_of_nil in Hk.
    + intros k Hk. by apply elem_of_nil in Hk.
  - apply NoDup_cons in Hnd as [Hp Hnd].
    destruct (Hin p) as [v Hv]; [left|].
    assert (Hne : ∀ k, k ∈ pre → k +:+ "inc" ≠ p +:+ "inc").
    { intros k Hk Heq. apply suffix_inj in Heq. by subst. }
    destruct (IH (delete (p +:+ "inc") Output) (set_Inc <[p := v]> c) Hnd)
      as (c1 & Output1 & Hrun & Honly & Hpre & Hother & Hgone & Hout).
    { intros k Hk. rewrite lookup_delete_ne by (by apply not_eq_sym, Hne).
      apply Hin. by right. }
    exists c1, Output1. split_and!.
    + simpl. unfold subscript. rewrite Hv.
      rewrite (bind_Done _ _ c v c) by done.
      rewrite (bind_Done _ _ c tt (set_Inc <[p := v]> c)) by done.
      apply Hrun.
    + by apply only_Inc_changed_set in Honly.
    + intros k [->|Hk]%elem_of_cons.
      * rewrite Hother by done. simpl. by rewrite lookup_insert_eq.
      * rewrite Hpre by done.
        by rewrite lookup_delete_ne by (by apply not_eq_sym, Hne).
    + intros k [Hkp Hk]%not_elem_of_cons.
      rewrite Hother by done. simpl. by rewrite lookup_insert_ne.
    + intros k [->|Hk]%elem_of_cons; [|by apply Hgone].
      rewrite Hout; [apply lookup_delete_eq|].
      intros k Hk. by apply not_eq_sym, Hne.
    + intros x Hx. rewrite Hout.
      * apply lookup_delete_ne, not_eq_sym, Hx. left.
      * intros k Hk. apply Hx. by right.
Qed.

(** A missing increment key stops the loop with [KeyError]. *)
Lemma extract_increments_missing keys Output c name :
  name ∈ keys →
  Output !! (name +:+ "inc") = None →
  ∃ field c',
    field ∈ keys ∧
    extract_increments keys Output c = (Raise (KeyError (field +:+ "inc")), c').
Proof.
  revert Output c. induction keys as [|k keys IH]; intros Output c Hin Hnone.
  - by apply elem_of_nil in Hin.
  - simpl. unfold subscript.
    destruct (Output !! (k +:+ "inc")) as [v|] eqn:Hk.
    + apply elem_of_cons in Hin as [->|Hin]; [congruence|].
      destruct (IH (delete (k +:+ "inc") Output) (set_Inc <[k := v]> c) Hin)
        as (field & c' & Hf & Hrun).
      { apply lookup_delete_None. by right. }
      exists field, c'. split; [by right|].
      rewrite (bind_Done _ _ c v c) by done.
      by rewrite (bind_Done _ _ c tt (set_Inc <[k := v]> c)) by done.
    + exists k, c. split; [left|]. by apply bind_Raise.
Qed.

Lemma compute_open D forced c :
  gate_open forced c →
  compute D forced c = bind (run_kernel D) (store_output D) c.
Proof.
  intros [->|Hopen]; unfold compute.
  - by rewrite (bind_Done _ _ c true c).
  - destruct forced; [by rewrite (bind_Done _ _ c true c)|].
    by rewrite (bind_Done _ _ c true c).
Qed.

Lemma compute_store D forced c Input args Output :
  gate_open forced c →
  assemble_input D c = Done Input →
  extension_args Input (ToExtension D) = Done args →
  build_output (FromExtension D) (driver D args) = Done Output →
  compute D forced c = store_output D Output (log (CallDriver args) c).
Proof.
  intros Hopen HI Ha HO. rewrite compute_open by done.
  apply bind_Done. by rewrite (run_kernel_run D c Input args), HO.
Qed.

(** C4. When the kernel's outputs lack the increment key of a declared
    Prognostic field, a [compute] that calls the kernel raises
    [KeyError] on the increment key of a Prognostic field. *)
Theorem missing_increment_raises D forced c Input args Output name :
  gate_open forced c →
  assemble_input D c = Done Input →
  extension_args Input (ToExtension D) = Done args →
  build_output (FromExtension D) (driver D args) = Done Output →
  name ∈ Prognostic D →
  Output !! (name +:+ "inc") = None →
  ∃ field c',
    field ∈ Prognostic D ∧
    compute D forced c = (Raise (KeyError (field +:+ "inc")), c') ∧
    calls c' = CallDriver args :: calls c.
Proof.
  intros Hopen HI Ha HO Hin Hnone.
  rewrite (compute_store D forced c Input args Output) by done.
  set (c1 := log (CallDriver args) c).
  destruct (extract_increments_missing (Prognostic D) Output c1 name Hin Hnone)
    as (field & c' & Hf & Hrun).
  exists field, c'. split; [done|]. split.
  - unfold store_output. by apply bind_Raise.
  - pose proof (keeps_extract_increments calls (Prognostic D) Output
                  (λ _ _, eq_refl) c1) as Hk.
    by rewrite Hrun in Hk.
Qed.

(** C10. When the first increment key the kernel's outputs lack is that
    of the field [p], after the fields [pre] in the declared order,
    [compute] raises with [Inc] already holding the new increments of
    [pre], and with nothing else of the component changed but the log of
    the kernel call: no output was merged into [State.Now]. *)
Theorem missing_increment_not_atomic
    D forced c Input args Output pre p post :
  gate_open forced c →
  assemble_input D c = Done Input →
  extension_args Input (ToExtension D) = Done args →
  build_output (FromExtension D) (driver D args) = Done Output →
  Prognostic D = pre ++ p :: post →
  NoDup pre →
  (∀ k, k ∈ pre → is_Some (Output !! (k +:+ "inc"))) →
  Output !! (p +:+ "inc") = None →
  ∃ c',
    compute D forced c = (Raise (KeyError (p +:+ "inc")), c') ∧
    (∀ k, k ∈ pre → Inc c' !! k = Output !! (k +:+ "inc")) ∧
    (∀ k, k ∉ pre → Inc c' !! k = Inc c !! k) ∧
    Now c' = Now c ∧ Old c' = Old c ∧ attrs c' = attrs c ∧
    parameters c' = parameters c ∧ ElapsedTime c' = ElapsedTime c ∧
    calls c' = CallDriver args :: calls c.
Proof.
  intros Hopen HI Ha HO Hprog Hnd Hpre Hnone.
  rewrite (compute_store D forced c Input args Output) by done.
  set (c0 := log (CallDriver args) c).
  destruct (extract_increments_app pre (p :: post) Output c0 Hnd Hpre)
    as (c1 & Output1 & Hrun & Honly & Hin & Hother & _ & Hout).
  assert (Hraise : extract_increments (Prognostic D) Output c0
                   = (Raise (KeyError (p +:+ "inc")), c1)).
  { rewrite Hprog, Hrun. simpl. unfold subscript.
    rewrite Hout, Hnone; [by apply bind_Raise|].
    intros k Hk Heq. apply suffix_inj in Heq. subst k.
    destruct (Hpre p Hk) as [v Hv]. congruence. }
  exists c1. split.
  { unfold store_output. by apply bind_Raise. }
  split; [done|]. split; [done|].
  rewrite Honly. by split_and!.
Qed.

(** * The recompute gate *)

Lemma time_for_update_run c v dt :
  getitem c "dt" = Done v →
  as_num v = Done dt →
  ¬ update_frequency c == 0 →
  time_for_update c =
    (Done (negb (py_int (float_div (ElapsedTime c) (update_frequency c))
                 =? py_int (float_div (float_sub (ElapsedTime c) dt)
                                      (update_frequency c)))%Z), c).
Proof.
  intros Hv Hdt Hf. unfold time_for_update.
  assert (Hdiv : ∀ a, py_div a (update_frequency c)
                      = Done (float_div a (update_frequency c))).
  { intros a. unfold py_div.
    destruct (Qeq_bool (update_frequency c) 0) eqn:E; [|done].
    by apply Qeq_bool_iff in E. }
  rewrite (bind_Done _ _ c c c) by done.
  rewrite (bind_Done _ _ c _ c) by (unfold lift; by rewrite Hdiv).
  rewrite (bind_Done _ _ c dt c) by (by rewrite getnum_run, Hv, Hdt).
  by rewrite (bind_Done _ _ c _ c) by (unfold lift; by rewrite Hdiv).
Qed.

Lemma py_int_nonneg x : (0 <= x)%Q → py_int x = Qfloor x.
Proof.
  intros Hx. unfold py_int. apply Qle_bool_iff in Hx. by rewrite Hx.
Qed.

(** C1, as the code has it. Without [ForcedCompute], [compute] compares
    [int(t/f)] with [int((t-dt)/f)], the difference and the quotients
    being those of floats and [int] truncating toward zero: when they
    agree it returns and leaves the component as it was; when they
    differ it does what a forced call does; and with the declared inputs
    at hand a forced call calls the kernel, so that the kernel is called
    exactly when the two differ. From the first step on ([0 <= t - dt],
    [0 < f]) truncation and floor agree. *)
Theorem recompute_gate D c v dt :
  getitem c "dt" = Done v →
  as_num v = Done dt →
  ¬ update_frequency c == 0 →
  let t := ElapsedTime c in
  let f := update_frequency c in
  let now := float_div t f in
  let before := float_div (float_sub t dt) f in
  (py_int now = py_int before → compute D false c = (Done tt, c)) ∧
  (py_int now ≠ py_int before → compute D false c = compute D true c) ∧
  (∀ Input args,
     assemble_input D c = Done Input →
     extension_args Input (ToExtension D) = Done args →
     calls (compute D true c).2 = CallDriver args :: calls c ∧
     (kernel_invoked c (compute D false c).2
        ↔ py_int now ≠ py_int before)) ∧
  ((0 < f)%Q → (0 <= t - dt)%Q → (0 <= dt)%Q →
     py_int now = Qfloor now ∧ py_int before = Qfloor before).
Proof.
  intros Hv Hdt Hf t f now before.
  pose proof (time_for_update_run c v dt Hv Hdt Hf) as Hgate.
  fold t f now before in Hgate.
  assert (Hclosed : py_int now = py_int before →
                    compute D false c = (Done tt, c)).
  { intros Heq. unfold compute.
    rewrite (bind_Done _ _ c false c); [done|].
    rewrite Hgate. by rewrite Heq, Z.eqb_refl. }
  assert (Hopen : py_int now ≠ py_int before →
                  compute D false c = compute D true c).
  { intros Hne. rewrite !compute_open; [done|by left|right].
    rewrite Hgate. by apply Z.eqb_neq in Hne as ->. }
  split_and!; try done.
  - intros Input args HI Ha.
    pose proof (compute_forced_calls D c Input args HI Ha) as Hforced.
    split; [done|]. split.
    + intros [args' Hcalls] Heq. rewrite Hclosed in Hcalls by done.
      simpl in Hcalls. apply (f_equal length) in Hcalls. simpl in Hcalls. lia.
    + intros Hne. exists args. by rewrite Hopen.
  - intros Hfpos Htdt Hdtpos.
    assert (0 <= t)%Q as Ht by lra.
    split; apply py_int_nonneg, float_div_nonneg; try done.
    by apply round64_nonneg.
Qed.

(** * What a completed [compute] leaves behind *)

Lemma remove_keys_lookup keys (m : gmap string value) k :
  remove_keys keys m !! k = if decide (k ∈ keys) then None else m !! k.
Proof.
  unfold remove_keys. revert m.
  induction keys as [|x keys IH]; intros m; cbn [foldl].
  - case_decide as H; [by apply elem_of_nil in H|done].
  - rewrite IH. destruct (decide (k ∈ keys)) as [Hin|Hnin].
    + case_decide as H; [done|]. exfalso. apply H. by right.
    + case_decide as H.
      * apply elem_of_cons in H as [->|?]; [|done]. apply lookup_delete_eq.
      * apply lookup_delete_ne. intros ->. apply H. left.
Qed.

Lemma extract_increments_Done keys Output c Output' c' :
  extract_increments keys Output c = (Done Output', c') →
  only_Inc_changed c c' ∧
  (∀ k, k ∈ keys → is_Some (Inc c' !! k)) ∧
  (∀ k, k ∉ keys → Inc c' !! k = Inc c !! k) ∧
  Output' ⊆ Output.
Proof.
  revert Output c. induction keys as [|p keys IH]; intros Output c Hrun.
  - simpl in Hrun. injection Hrun as <- <-. split_and!; try done.
    + apply only_Inc_changed_refl.
    + intros k Hk. by apply elem_of_nil in Hk.
  - simpl in Hrun.
    apply bind_inv_Done in Hrun as (v & c1 & Hv & Hrun).
    unfold lift in Hv. injection Hv as Hv <-.
    apply bind_inv_Done in Hrun as ([] & c2 & Hm & Hrun).
    injection Hm as <-.
    apply IH in Hrun as (Honly & Hin & Hout & Hsub).
    split_and!.
    + by apply only_Inc_changed_set in Honly.
    + intros k Hk. destruct (decide (k ∈ keys)) as [|Hnk]; [by apply Hin|].
      apply elem_of_cons in Hk as [->|]; [|done].
      rewrite Hout by done. simpl. rewrite lookup_insert_eq. eauto.
    + intros k [Hkp Hk]%not_elem_of_cons.
      rewrite Hout by done. simpl. by rewrite lookup_insert_ne.
    + etrans; [done|]. apply delete_subseteq.
Qed.

Lemma store_output_Done D Output c c' :
  store_output D Output c = (Done tt, c') →
  Fixed c' = Fixed c ∧ calls c' = calls c ∧
  parameters c' = parameters c ∧
  (∀ k, k ∈ Fixed c → Inc c' !! k = None ∧ Now c' !! k = Now c !! k) ∧
  (∀ k, is_Some (Inc c' !! k) →
     (k ∉ Fixed c) ∧ (k ∈ Prognostic D ∨ is_Some (Inc c !! k))) ∧
  (∀ k, k ∈ Prognostic D → k ∉ Fixed c → is_Some (Inc c' !! k)) ∧
  (∀ k, k ∉ Prognostic D → k ∉ Fixed c → Inc c' !! k = Inc c !! k).
Proof.
  unfold store_output. intros Hrun.
  apply bind_inv_Done in Hrun as (Output' & c1 & Hext & Hrun).
  apply extract_increments_Done in Hext as (Honly & Hin & Hout & Hsub).
  unfold bind, get, modify, State_update in Hrun. simpl in Hrun.
  injection Hrun as <-. rewrite Honly. simpl.
  split_and!; try done.
  - intros k Hk. rewrite lookup_union_r.
    + rewrite remove_keys_lookup. by rewrite decide_True.
    + rewrite remove_keys_lookup. by rewrite decide_True.
  - intros k. rewrite remove_keys_lookup. case_decide; intros Hs.
    + by destruct Hs.
    + split; [done|]. destruct (decide (k ∈ Prognostic D)); [by left|].
      right. by rewrite <- Hout.
  - intros k Hk Hnf. rewrite remove_keys_lookup.
    rewrite decide_False by done. by apply Hin.
  - intros k Hk Hnf. rewrite remove_keys_lookup.
    rewrite decide_False by done. by apply Hout.
Qed.

Lemma run_kernel_Done D c Output c1 :
  run_kernel D c = (Done Output, c1) →
  ∃ args, c1 = log (CallDriver args) c.
Proof.
  unfold run_kernel. intros Hrun.
  apply bind_inv_Done in Hrun as (c0 & ? & [= <- <-] & Hrun).
  apply bind_inv_Done in Hrun as (Input & ? & [= _ <-] & Hrun).
  apply bind_inv_Done in Hrun as (args & ? & [= _ <-] & Hrun).
  exists args. unfold call_driver in Hrun.
  apply bind_inv_Done in Hrun as ([] & ? & [= <-] & Hrun).
  by injection Hrun as _ <-.
Qed.

(** A [compute] that returns either was stopped at the gate, or called
    the kernel once and stored its outputs. *)
Lemma compute_Done D forced c c' :
  compute D forced c = (Done tt, c') →
  c' = c ∨
  ∃ args Output,
    store_output D Output (log (CallDriver args) c) = (Done tt, c').
Proof.
  unfold compute. intros Hrun.
  apply bind_inv_Done in Hrun as (go & c0 & Hgo & Hrun).
  assert (c0 = c) as ->.
  { destruct forced; [by injection Hgo|].
    pose proof (time_for_update_state c) as Hs. by rewrite Hgo in Hs. }
  destruct go; simpl in Hrun.
  - right. apply bind_inv_Done in Hrun as (Output & c1 & Hk & Hrun).
    apply run_kernel_Done in Hk as [args ->]. eauto.
  - left. by injection Hrun.
Qed.

(** C5, as the code has it. After a [compute] that returns, no Fixed
    field has had its value in [State.Now] replaced, and when the call
    reached the kernel [Inc] holds no Fixed field. *)
Theorem fixed_fields_after_compute D forced c c' k :
  compute D forced c = (Done tt, c') →
  k ∈ Fixed c →
  Now c' !! k = Now c !! k ∧
  (kernel_invoked c c' → Inc c' !! k = None) ∧
  (¬ kernel_invoked c c' → c' = c).
Proof.
  intros Hrun Hk.
  apply compute_Done in Hrun as [->|(args & Output & Hstore)].
  - split_and!; try done. intros [args Hcalls].
    apply (f_equal length) in Hcalls. simpl in Hcalls. lia.
  - apply store_output_Done in Hstore
      as (_ & Hcalls & _ & Hfixed & _).
    destruct (Hfixed k Hk) as [HInc HNow]. split_and!; try done.
    intros Hno. exfalso. apply Hno. by exists args.
Qed.

(** * External increments *)

Lemma add_external_increment_Done kv c c' :
  add_external_increment kv c = (Done tt, c') →
  ∃ s, merged (Inc c !! kv.1) kv.2 s ∧ c' = set_Inc <[kv.1 := s]> c.
Proof.
  unfold add_external_increment. intros Hrun.
  apply bind_inv_Done in Hrun as (c0 & ? & [= <- <-] & Hrun).
  destruct (Inc c !! kv.1) as [old|] eqn:Hold.
  - apply bind_inv_Done in Hrun as (s & ? & [= Hs <-] & Hrun).
    injection Hrun as <-. by exists s.
  - injection Hrun as <-. by exists kv.2.
Qed.


Lemma add_external_increments_keys ext c c' k :
  for_each ext add_external_increment c = (Done tt, c') →
  is_Some (Inc c' !! k) →
  is_Some (Inc c !! k) ∨ k ∈ ext.*1.
Proof.
  revert c. induction ext as [|[k0 dv0] ext IH]; intros c Hrun Hk.
  - injection Hrun as <-. by left.
  - simpl in Hrun.
    apply bind_inv_Done in Hrun as ([] & c1 & Hadd & Hrun).
    apply add_external_increment_Done in Hadd as (s0 & Hs0 & ->).
    destruct (IH _ Hrun Hk) as [Hs|Hin].
    + simpl in Hs. destruct (decide (k0 = k)) as [->|Hne].
      * right. simpl. left.
      * rewrite lookup_insert_ne in Hs by done. by left.
    + right. simpl. by right.
Qed.

(** * The parts of an iteration and what they leave alone *)

Lemma keeps_setitem {X} (proj : Component → X) D key v :
  (∀ f c, proj (set_parameters f c) = proj c) →
  (∀ f c, proj (set_grid f c) = proj c) →
  (∀ f c, proj (set_Now f c) = proj c) →
  keeps proj (setitem D key v).
Proof.
  intros Hp Hg Hn.
  unfold setitem, Parameters_setitem, Grid_setitem, State_setitem.
  apply keeps_bind; [apply keeps_get|intros c].
  repeat case_decide; try (by apply keeps_modify); try apply keeps_raise.
  destruct (KnownFields D !! key) as [[[? ?] dims]|]; [|apply keeps_raise].
  destruct (Shape3D c) as [[nlev nlat] nlon].
  repeat case_decide; try apply keeps_raise;
    (apply keeps_bind; [apply keeps_lift|intros ?]; by apply keeps_modify).
Qed.

Lemma keeps_advance_calendar {X} (proj : Component → X) D :
  (∀ f c, proj (set_parameters f c) = proj c) →
  (∀ f c, proj (set_grid f c) = proj c) →
  (∀ f c, proj (set_Now f c) = proj c) →
  keeps proj (advance_calendar D).
Proof.
  intros Hp Hg Hn. unfold advance_calendar.
  repeat first
    [ apply keeps_getnum | apply keeps_lift | apply keeps_ret
    | by apply keeps_setitem
    | apply keeps_bind; [|intros ?]
    | match goal with |- keeps _ (if ?b then _ else _) => destruct b end ].
Qed.

Lemma keeps_periodic_triggers {X} (proj : Component → X) :
  (∀ c, proj (log CallWrite c) = proj c) →
  (∀ c, proj (log CallRefresh c) = proj c) →
  keeps proj periodic_triggers.
Proof.
  intros Hw Hr. unfold periodic_triggers.
  repeat first
    [ apply keeps_get | apply keeps_lift | apply keeps_ret
    | by apply keeps_modify
    | apply keeps_bind; [|intros ?]
    | match goal with |- keeps _ (if ?b then _ else _) => destruct b end ].
Qed.

Lemma keeps_State_advance {X} (proj : Component → X) D :
  (∀ c, proj (log CallAdvance c) = proj c) →
  (∀ f c, proj (set_Old f c) = proj c) →
  (∀ f c, proj (set_Now f c) = proj c) →
  (∀ f c, proj (set_ElapsedTime f c) = proj c) →
  keeps proj (State_advance D).
Proof.
  intros Hl Ho Hn He. unfold State_advance, advance_field.
  repeat first
    [ apply keeps_get | apply keeps_lift | apply keeps_ret | apply keeps_getnum
    | by apply keeps_modify
    | apply keeps_for_each; intros ?
    | apply keeps_bind; [|intros ?] ].
Qed.

Lemma keeps_add_external_increments {X} (proj : Component → X) ext :
  (∀ f c, proj (set_Inc f c) = proj c) →
  keeps proj (for_each ext add_external_increment).
Proof.
  intros Hi. apply keeps_for_each. intros kv. unfold add_external_increment.
  apply keeps_bind; [apply keeps_get|intros c].
  destruct (Inc c !! kv.1); [|by apply keeps_modify].
  apply keeps_bind; [apply keeps_lift|intros ?]. by apply keeps_modify.
Qed.

Lemma keeps_compute {X} (proj : Component → X) D forced :
  (∀ args c, proj (log (CallDriver args) c) = proj c) →
  (∀ f c, proj (set_Inc f c) = proj c) →
  (∀ f c, proj (set_Now f c) = proj c) →
  (∀ f c, proj (set_attrs f c) = proj c) →
  keeps proj (compute D forced).
Proof.
  intros Hl Hi Hn Ha. unfold compute.
  apply keeps_bind.
  { destruct forced; [apply keeps_ret|].
    unfold time_for_update.
    repeat first [ apply keeps_get | apply keeps_lift | apply keeps_ret
                 | apply keeps_getnum | apply keeps_bind; [|intros ?] ]. }
  intros [|]; simpl; [|apply keeps_ret].
  apply keeps_bind.
  { unfold run_kernel, call_driver.
    repeat first [ apply keeps_get | apply keeps_lift | by apply keeps_modify
                 | apply keeps_bind; [|intros ?] ]. }
  intros Output. unfold store_output, State_update.
  apply keeps_bind; [by apply keeps_extract_increments|intros ?].
  repeat first [ apply keeps_get | by apply keeps_modify
               | apply keeps_bind; [|intros ?] ].
Qed.

(** The steps of an iteration that returned, one after the other. *)
Lemma step_iteration_Done D ext c c' :
  step_iteration D ext c = (Done tt, c') →
  ∃ c1 c2 c3 c4,
    for_each ext add_external_increment c = (Done tt, c1) ∧
    State_advance D c1 = (Done tt, c2) ∧
    compute D false c2 = (Done tt, c3) ∧
    advance_calendar D c3 = (Done tt, c4) ∧
    periodic_triggers c4 = (Done tt, c').
Proof.
  unfold step_iteration. intros Hrun.
  apply bind_inv_Done in Hrun as ([] & c1 & H1 & Hrun).
  apply bind_inv_Done in Hrun as ([] & c2 & H2 & Hrun).
  apply bind_inv_Done in Hrun as ([] & c3 & H3 & Hrun).
  apply bind_inv_Done in Hrun as ([] & c4 & H4 & Hrun).
  by exists c1, c2, c3, c4.
Qed.

(** [keeps] read on a run that returned. *)
Lemma keeps_Done {X A} (proj : Component → X) (m : Py A) c a c' :
  keeps proj m → m c = (Done a, c') → proj c' = proj c.
Proof. intros Hk Hrun. specialize (Hk c). by rewrite Hrun in Hk. Qed.

(** * The keys of [Inc] *)

Lemma elem_of_marched D c k :
  k ∈ marched D c ↔ k ∈ Prognostic D ∧ k ∉ Fixed c.
Proof.
  unfold marched. rewrite elem_of_difference, !elem_of_list_to_set. done.
Qed.

Lemma compute_inc_keys D forced c c' :
  compute D forced c = (Done tt, c') →
  dom (Inc c) ⊆ list_to_set (Prognostic D) →
  Fixed c' = Fixed c ∧
  (c' = c ∨ dom (Inc c') ⊆ marched D c').
Proof.
  intros Hrun Hdom.
  apply compute_Done in Hrun as [->|(args & Output & Hstore)]; [by auto|].
  apply store_output_Done in Hstore as (HF & _ & _ & _ & Hkeys & _).
  split; [done|]. right. intros k Hk%elem_of_dom.
  apply elem_of_marched. rewrite HF.
  destruct (Hkeys k Hk) as [Hnf [Hp|Hold]]; split; try done.
  simpl in Hold. apply elem_of_dom in Hold.
  by apply Hdom, elem_of_list_to_set in Hold.
Qed.

Lemma marched_subseteq D c : marched D c ⊆ list_to_set (Prognostic D).
Proof. unfold marched. by intros k [Hk _]%elem_of_difference. Qed.

Lemma marched_Fixed D c c' : Fixed c' = Fixed c → marched D c' = marched D c.
Proof. unfold marched. by intros ->. Qed.

(** C6, as the code has it. In every component of a [lifetime], that
    is, one reached from construction by calls of [compute] and
    iterations of [step] every one of which, from construction on, has
    returned, every iteration having been given external increments for
    marched fields only, the keys of [Inc] are Prognostic fields that
    are not Fixed. The condition bears on the whole history, not on the
    last call alone. *)
Theorem inc_keys_invariant D c :
  lifetime D c → dom (Inc c) ⊆ marched D c.
Proof.
  intros Hlife.
  induction Hlife as [c0 c Hseed|forced c c' Hlife IH Hrun
                     |ext c c' Hlife IH Hext Hrun].
  - unfold seed_diagnostics in Hseed.
    apply bind_inv_Done in Hseed as ([] & c1 & [= <-] & Hrun).
    apply compute_inc_keys in Hrun as [_ [->|Hok]]; [|done|].
    + simpl. rewrite dom_empty_L. set_solver.
    + simpl. rewrite dom_empty_L. set_solver.
  - apply compute_inc_keys in Hrun as [HF [->|Hok]]; try done.
    etrans; [done|]. apply marched_subseteq.
  - apply step_iteration_Done in Hrun
      as (c1 & c2 & c3 & c4 & H1 & H2 & H3 & H4 & H5).
    assert (HF1 : Fixed c1 = Fixed c).
    { by apply (keeps_Done Fixed _ _ _ _
                  (keeps_add_external_increments Fixed ext (λ _ _, eq_refl))
                  H1). }
    assert (HI1 : dom (Inc c1) ⊆ marched D c).
    { intros k Hk%elem_of_dom.
      destruct (add_external_increments_keys ext c c1 k H1 Hk) as [Hs|Hin].
      - by apply IH, elem_of_dom.
      - by apply Hext. }
    assert (HF2 : Fixed c2 = Fixed c1).
    { apply (keeps_Done Fixed _ _ _ _ (keeps_State_advance Fixed D
               (λ _, eq_refl) (λ _ _, eq_refl) (λ _ _, eq_refl)
               (λ _ _, eq_refl)) H2). }
    assert (HI2 : Inc c2 = Inc c1).
    { apply (keeps_Done Inc _ _ _ _ (keeps_State_advance Inc D
               (λ _, eq_refl) (λ _ _, eq_refl) (λ _ _, eq_refl)
               (λ _ _, eq_refl)) H2). }
    assert (HI3 : Fixed c3 = Fixed c ∧ dom (Inc c3) ⊆ marched D c).
    { apply compute_inc_keys in H3 as [HF3 [->|Hok]].
      - split; [congruence|]. by rewrite HI2.
      - split; [congruence|].
        rewrite (marched_Fixed D c3 c) by congruence. done.
      - rewrite HI2. etrans; [done|]. apply marched_subseteq. }
    destruct HI3 as [HF3 HI3].
    assert (HF4 : Fixed c4 = Fixed c3).
    { apply (keeps_Done Fixed _ _ _ _ (keeps_advance_calendar Fixed D
               (λ _ _, eq_refl) (λ _ _, eq_refl) (λ _ _, eq_refl)) H4). }
    assert (HI4 : Inc c4 = Inc c3).
    { apply (keeps_Done Inc _ _ _ _ (keeps_advance_calendar Inc D
               (λ _ _, eq_refl) (λ _ _, eq_refl) (λ _ _, eq_refl)) H4). }
    assert (HF5 : Fixed c' = Fixed c4).
    { apply (keeps_Done Fixed _ _ _ _ (keeps_periodic_triggers Fixed
               (λ _, eq_refl) (λ _, eq_refl)) H5). }
    assert (HI5 : Inc c' = Inc c4).
    { apply (keeps_Done Inc _ _ _ _ (keeps_periodic_triggers Inc
               (λ _, eq_refl) (λ _, eq_refl)) H5). }
    rewrite (marched_Fixed D c c') by congruence.
    by rewrite HI5, HI4.
Qed.

(** * Accumulation of external increments *)



(** * The number of iterations *)

Lemma to_nat_py_int x : Z.to_nat (py_int x) = Z.to_nat (Qfloor x).
Proof.
  unfold py_int. destruct (Qle_bool 0 x) eqn:E; [done|].
  assert (x < 0)%Q as Hneg.
  { apply Qnot_le_lt. intros H. apply Qle_bool_iff in H. congruence. }
  assert (Qfloor x <= 0)%Z.
  { change 0%Z with (Qfloor 0). by apply Qfloor_resp_le, Qlt_le_weak. }
  assert (Qceiling x <= 0)%Z.
  { change 0%Z with (Qceiling 0). by apply Qceiling_resp_le, Qlt_le_weak. }
  lia.
Qed.

Lemma Qfloor_unit_interval y : (0 <= y)%Q → (y < 1)%Q → Qfloor y = 0%Z.
Proof.
  intros H0 H1.
  assert (0 <= Qfloor y)%Z.
  { change 0%Z with (Qfloor 0). by apply Qfloor_resp_le. }
  assert (Qfloor y < 1)%Z.
  { rewrite Zlt_Qlt. apply Qle_lt_trans with y; [apply Qfloor_le|done]. }
  lia.
Qed.

Lemma number_of_steps_run RunLength c dt :
  length_given RunLength c dt →
  ∃ n, number_of_steps RunLength c = (Done n, c) ∧
       Z.to_nat n = Z.to_nat (requested_steps RunLength dt).
Proof.
  destruct RunLength as [n|x|]; simpl; [by exists n| |done].
  intros [(v & Hv & Hdt) Hnz].
  exists (py_int (float_div x dt)). split; [|apply to_nat_py_int].
  rewrite (bind_Done _ _ c dt c) by (by rewrite getnum_run, Hv, Hdt).
  unfold py_div. destruct (Qeq_bool dt 0) eqn:E.
  - by apply Qeq_bool_iff in E.
  - done.
Qed.

Lemma State_advance_Done D c c' :
  State_advance D c = (Done tt, c') → calls c' = CallAdvance :: calls c.
Proof.
  unfold State_advance. intros Hrun.
  apply bind_inv_Done in Hrun as ([] & c1 & [= <-] & Hrun).
  revert Hrun. apply (keeps_Done calls). unfold advance_field.
  repeat first
    [ apply keeps_get | apply keeps_lift | apply keeps_getnum
    | by apply keeps_modify
    | apply keeps_for_each; intros ?
    | apply keeps_bind; [|intros ?] ].
Qed.

(** An iteration that returns has called [State.advance] once. *)
Lemma step_iteration_advances D ext c c' :
  step_iteration D ext c = (Done tt, c') →
  count_calls is_advance_call c' = S (count_calls is_advance_call c).
Proof.
  intros Hrun.
  apply step_iteration_Done in Hrun
    as (c1 & c2 & c3 & c4 & H1 & H2 & H3 & H4 & H5).
  pose proof (keeps_Done (count_calls is_advance_call) _ _ _ _
    (keeps_add_external_increments (count_calls is_advance_call) ext
       (λ _ _, eq_refl)) H1) as K1.
  apply State_advance_Done in H2.
  assert (count_calls is_advance_call c2
          = S (count_calls is_advance_call c1)) as K2.
  { unfold count_calls. by rewrite H2. }
  pose proof (keeps_Done (count_calls is_advance_call) _ _ _ _
    (keeps_compute (count_calls is_advance_call) D false (λ _ _, eq_refl)
       (λ _ _, eq_refl) (λ _ _, eq_refl) (λ _ _, eq_refl)) H3) as K3.
  pose proof (keeps_Done (count_calls is_advance_call) _ _ _ _
    (keeps_advance_calendar (count_calls is_advance_call) D
       (λ _ _, eq_refl) (λ _ _, eq_refl) (λ _ _, eq_refl)) H4) as K4.
  pose proof (keeps_Done (count_calls is_advance_call) _ _ _ _
    (keeps_periodic_triggers (count_calls is_advance_call)
       (λ _, eq_refl) (λ _, eq_refl)) H5) as K5.
  lia.
Qed.

Lemma repeat_body_advances D ext n c c' :
  repeat_body n (step_iteration D ext) c = (Done tt, c') →
  count_calls is_advance_call c'
    = (count_calls is_advance_call c + n)%nat.
Proof.
  revert c. induction n as [|n IH]; intros c Hrun; simpl in Hrun.
  - injection Hrun as <-. lia.
  - apply bind_inv_Done in Hrun as ([] & c1 & H1 & Hrun).
    apply step_iteration_advances in H1. apply IH in Hrun. lia.
Qed.

(** C9. [step] runs the body of its loop as many times as [RunLength]
    asks: [RunLength] itself when it is an integer, [floor(RunLength/dt)]
    when it is a float, the quotient being the quotient of floats that
    line 137 forms; each run that returns has advanced the state that
    many times. A float [RunLength] with [0 <= RunLength < dt] asks for
    no iteration: [step] returns and the component (state, increments,
    calendar, log of writes) is as before. *)
Theorem step_runs_requested_iterations D RunLength ExternalInc c dt :
  length_given RunLength c dt →
  let N := Z.to_nat (requested_steps RunLength dt) in
  step D RunLength ExternalInc c
    = repeat_body N (step_iteration D ExternalInc) c ∧
  (∀ c', step D RunLength ExternalInc c = (Done tt, c') →
         count_calls is_advance_call c'
           = (count_calls is_advance_call c + N)%nat) ∧
  (∀ x, RunLength = Seconds x → is_float x → is_float dt →
        (0 <= x)%Q → (x < dt)%Q →
        step D RunLength ExternalInc c = (Done tt, c)).
Proof.
  intros Hgiven N.
  destruct (number_of_steps_run RunLength c dt Hgiven) as (n & Hn & HN).
  assert (Hstep : step D RunLength ExternalInc c
                  = repeat_body N (step_iteration D ExternalInc) c).
  { unfold step. rewrite (bind_Done _ _ c n c) by done. unfold N.
    by rewrite HN. }
  split_and!.
  - done.
  - intros c' Hrun. rewrite Hstep in Hrun.
    by apply repeat_body_advances in Hrun.
  - intros x -> Fx Fdt Hx0 Hxdt. rewrite Hstep. unfold N.
    cbn [requested_steps].
    assert (0 < dt)%Q as Hdt by (by apply Qle_lt_trans with x).
    rewrite Qfloor_unit_interval; [done| |].
    + by apply float_div_nonneg.
    + by apply float_div_lt_1.
Qed.

(** * The calendar *)

Lemma getnum_parameter c key x :
  parameters c !! key = Some (VNum x) → getnum key c = (Done x, c).
Proof.
  intros H. rewrite getnum_run. unfold getitem, lookup_order. simpl.
  by rewrite H.
Qed.

Lemma setitem_parameter D c key old v :
  parameters c !! key = Some old →
  setitem D key v c = (Done tt, set_parameters <[key := v]> c).
Proof.
  intros H. unfold setitem. rewrite (bind_Done _ _ c c c) by done.
  rewrite decide_True; [done|]. by rewrite H.
Qed.

Lemma calendar_set_insert c x cal dt lod dpy :
  calendar_set c cal dt lod dpy →
  calendar_set (set_parameters <["calday" := VNum x]> c) x dt lod dpy.
Proof.
  intros (Hc & Hdt & Hlod & Hdpy). unfold calendar_set. simpl.
  rewrite lookup_insert_eq. by rewrite !lookup_insert_ne.
Qed.

Lemma advance_calendar_run D c cal dt lod dpy :
  calendar_set c cal dt lod dpy →
  ¬ lod == 0 →
  ∃ c', advance_calendar D c = (Done tt, c') ∧
        calendar_set c' (next_calday cal dt lod dpy) dt lod dpy.
Proof.
  intros Hset Hlod. pose proof Hset as (Hc & Hdt & Hl & Hdpy).
  unfold advance_calendar.
  rewrite (bind_Done _ _ c cal c) by (by apply getnum_parameter).
  rewrite (bind_Done _ _ c dt c) by (by apply getnum_parameter).
  rewrite (bind_Done _ _ c lod c) by (by apply getnum_parameter).
  rewrite (bind_Done _ _ c (float_div dt lod) c).
  2:{ unfold lift, py_div. destruct (Qeq_bool lod 0) eqn:E; [|done].
      by apply Qeq_bool_iff in E. }
  set (sum := float_add cal (float_div dt lod)).
  set (c1 := set_parameters <["calday" := VNum sum]> c).
  pose proof (calendar_set_insert c sum _ _ _ _ Hset)
    as Hset1. fold c1 in Hset1. pose proof Hset1 as (Hc1 & _ & _ & Hdpy1).
  rewrite (bind_Done _ _ c tt c1) by (by eapply setitem_parameter).
  rewrite (bind_Done _ _ c1 _ c1) by (by apply getnum_parameter).
  rewrite (bind_Done _ _ c1 _ c1) by (by apply getnum_parameter).
  unfold next_calday. fold sum. cbv zeta. destruct (Qle_bool sum dpy).
  - by exists c1.
  - rewrite (bind_Done _ _ c1 _ c1) by (by apply getnum_parameter).
    rewrite (bind_Done _ _ c1 _ c1) by (by apply getnum_parameter).
    eexists. split; [by eapply setitem_parameter|].
    by eapply calendar_set_insert, Hset1.
Qed.

Lemma calendar_set_parameters c c' cal dt lod dpy :
  parameters c' = parameters c →
  calendar_set c cal dt lod dpy → calendar_set c' cal dt lod dpy.
Proof. unfold calendar_set. by intros ->. Qed.

Lemma step_iteration_calendar D ext c c' cal dt lod dpy :
  calendar_set c cal dt lod dpy →
  ¬ lod == 0 →
  step_iteration D ext c = (Done tt, c') →
  calendar_set c' (next_calday cal dt lod dpy) dt lod dpy.
Proof.
  intros Hset Hlod Hrun.
  apply step_iteration_Done in Hrun
    as (c1 & c2 & c3 & c4 & H1 & H2 & H3 & H4 & H5).
  pose proof (keeps_Done parameters _ _ _ _
    (keeps_add_external_increments parameters ext (λ _ _, eq_refl)) H1) as K1.
  pose proof (keeps_Done parameters _ _ _ _
    (keeps_State_advance parameters D (λ _, eq_refl) (λ _ _, eq_refl)
       (λ _ _, eq_refl) (λ _ _, eq_refl)) H2) as K2.
  pose proof (keeps_Done parameters _ _ _ _
    (keeps_compute parameters D false (λ _ _, eq_refl)
       (λ _ _, eq_refl) (λ _ _, eq_refl) (λ _ _, eq_refl)) H3) as K3.
  pose proof (keeps_Done parameters _ _ _ _
    (keeps_periodic_triggers parameters (λ _, eq_refl) (λ _, eq_refl)) H5)
    as K5.
  assert (calendar_set c3 cal dt lod dpy) as Hset3.
  { apply (calendar_set_parameters c); [congruence|done]. }
  destruct (advance_calendar_run D c3 cal dt lod dpy Hset3 Hlod)
    as (c4' & H4' & Hset4).
  assert (c4' = c4) as -> by congruence.
  by apply (calendar_set_parameters c4).
Qed.

Lemma repeat_body_calendar D ext n c c' cal dt lod dpy :
  calendar_set c cal dt lod dpy →
  ¬ lod == 0 →
  repeat_body n (step_iteration D ext) c = (Done tt, c') →
  calendar_set c' (calday_after n cal dt lod dpy) dt lod dpy.
Proof.
  revert c cal. induction n as [|n IH]; intros c cal Hset Hlod Hrun.
  - by injection Hrun as <-.
  - simpl in Hrun. apply bind_inv_Done in Hrun as ([] & c1 & H1 & Hrun).
    simpl. apply (IH c1); [|done..].
    by apply (step_iteration_calendar D ext c).
Qed.

(** An iteration that rounds nothing ends on the exact day. *)
Lemma next_calday_unrounded cal dt lod dpy :
  is_float (dt / lod) →
  is_float (cal + dt / lod) →
  (if Qle_bool (cal + dt / lod) dpy then True
   else is_float (cal + dt / lod - dpy)) →
  next_calday cal dt lod dpy
    == if Qle_bool (cal + dt / lod) dpy then cal + dt / lod
       else cal + dt / lod - dpy.
Proof.
  intros Fq Fs Fw. unfold next_calday, float_add, float_sub, float_div.
  cbv zeta. unfold is_float in *.
  assert (round64 (cal + round64 (dt / lod)) == cal + dt / lod) as Hsum.
  { rewrite (round64_proper _ (cal + dt / lod)); [done|]. by rewrite Fq. }
  assert (Qle_bool (round64 (cal + round64 (dt / lod))) dpy
          = Qle_bool (cal + dt / lod) dpy) as ->.
  { apply eq_true_iff_eq. rewrite !Qle_bool_iff. by rewrite Hsum. }
  destruct (Qle_bool (cal + dt / lod) dpy); [done|].
  rewrite (round64_proper _ (cal + dt / lod - dpy)); [done|].
  by rewrite Hsum.
Qed.

(** [n] iterations that round nothing add [n] times [dt/lod] and take
    away [daysperyear] once for each wrap. *)
Lemma calday_after_wraps n cal dt lod dpy :
  unrounded n cal dt lod dpy →
  ∃ k : Z,
    (0 <= k <= Z.of_nat n)%Z ∧
    calday_after n cal dt lod dpy
      == cal + inject_Z (Z.of_nat n) * (dt / lod) - inject_Z k * dpy.
Proof.
  revert cal. induction n as [|n IH]; intros cal Hun.
  - exists 0%Z. split; [lia|]. simpl. ring.
  - destruct Hun as (Fq & Fs & Fw & Hun).
    destruct (IH _ Hun) as (k & Hk & Heq).
    pose proof (next_calday_unrounded cal dt lod dpy Fq Fs Fw) as Hnext.
    simpl. destruct (Qle_bool (cal + dt / lod) dpy).
    + exists k. split; [lia|]. rewrite Heq, Hnext.
      rewrite Nat2Z.inj_succ, <- Z.add_1_r, inject_Z_plus. ring.
    + exists (k + 1)%Z. split; [lia|]. rewrite Heq, Hnext.
      rewrite Nat2Z.inj_succ, <- Z.add_1_r, !inject_Z_plus. ring.
Qed.

(** A calendar day within the year stays within the year, as long as a
    step is no longer than a year: rounding keeps the order, and [0] and
    [daysperyear] are floats. *)
Lemma next_calday_range cal dt lod dpy :
  is_float dpy →
  (0 < cal)%Q → (cal <= dpy)%Q → (0 <= dt / lod)%Q → (dt / lod <= dpy)%Q →
  (0 < next_calday cal dt lod dpy)%Q ∧ (next_calday cal dt lod dpy <= dpy)%Q.
Proof.
  intros Fd H0 H1 Hq0 Hq1. unfold next_calday, float_div, float_add, float_sub.
  cbv zeta. unfold is_float in Fd.
  set (q := round64 (dt / lod)).
  assert (0 <= q)%Q as Q0 by (by apply round64_nonneg).
  assert (q <= dpy)%Q as Q1.
  { rewrite <- Fd. by apply round64_mono. }
  set (sum := round64 (cal + q)).
  assert (0 < sum)%Q as S0 by (apply round64_pos; lra).
  assert (sum <= 2 * dpy)%Q as S1.
  { rewrite <- Fd at 1. rewrite <- round64_double.
    apply round64_mono. lra. }
  destruct (Qle_bool sum dpy) eqn:E.
  - apply Qle_bool_iff in E. by split.
  - assert (dpy < sum)%Q.
    { apply Qnot_le_lt. intros H. apply Qle_bool_iff in H. congruence. }
    split.
    + apply round64_pos. lra.
    + rewrite <- Fd at 2. apply round64_mono. lra.
Qed.

Lemma calday_after_range n cal dt lod dpy :
  is_float dpy →
  (0 < cal)%Q → (cal <= dpy)%Q → (0 <= dt / lod)%Q → (dt / lod <= dpy)%Q →
  (0 < calday_after n cal dt lod dpy)%Q ∧
  (calday_after n cal dt lod dpy <= dpy)%Q.
Proof.
  intros Fd. revert cal. induction n as [|n IH]; intros cal H0 H1 Hq0 Hq1; simpl.
  - done.
  - destruct (next_calday_range cal dt lod dpy) as [? ?]; [done..|].
    by apply IH.
Qed.

(** Two days of the year a whole number of years apart are one day. *)
Lemma whole_years_apart x y m dpy :
  (0 < x)%Q → (x <= dpy)%Q → (0 < y)%Q → (y <= dpy)%Q →
  y == x + inject_Z m * dpy → y == x.
Proof.
  intros Hx0 Hx1 Hy0 Hy1 Heq.
  assert (0 <= dpy)%Q as Hdpy by lra.
  destruct (Z.lt_trichotomy m 0) as [Hm|[->|Hm]].
  - exfalso. assert (inject_Z m <= -1)%Q as Hle.
    { change (-1)%Q with (inject_Z (-1)). rewrite <- Zle_Qle. lia. }
    pose proof (Qmult_le_compat_r _ _ dpy Hle Hdpy). lra.
  - rewrite Heq. change (inject_Z 0) with 0%Q. ring.
  - exfalso. assert (1 <= inject_Z m)%Q as Hle.
    { change 1%Q with (inject_Z 1). rewrite <- Zle_Qle. lia. }
    pose proof (Qmult_le_compat_r _ _ dpy Hle Hdpy). lra.
Qed.

(** C8, as the code has it. Each iteration of [step] adds [dt/lod] to
    [calday] and takes [daysperyear] away when the sum exceeds it, in the
    arithmetic of floats. A day of the year stays a day of the year when
    a step is no longer than a year. When [n] steps make up
    [daysperyear] days and nothing is rounded on the way, [calday] ends a
    whole number of years away from where it started: back at its
    starting value modulo [daysperyear], and at the starting value
    itself when that was a day of the year. *)
Theorem calendar_wraps_yearly D n ExternalInc c c' cal dt lod dpy :
  calendar_set c cal dt lod dpy →
  ¬ lod == 0 →
  inject_Z (Z.of_nat n) * dt == dpy * lod →
  step D (Steps (Z.of_nat n)) ExternalInc c = (Done tt, c') →
  let cal' := calday_after n cal dt lod dpy in
  calendar_set c' cal' dt lod dpy ∧
  (is_float dpy →
   (0 < cal)%Q → (cal <= dpy)%Q → (0 <= dt / lod)%Q → (dt / lod <= dpy)%Q →
   (0 < cal')%Q ∧ (cal' <= dpy)%Q) ∧
  (unrounded n cal dt lod dpy →
   (∃ m : Z, cal' == cal + inject_Z m * dpy) ∧
   (is_float dpy →
    (0 < cal)%Q → (cal <= dpy)%Q → (0 <= dt / lod)%Q → (dt / lod <= dpy)%Q →
    cal' == cal)).
Proof.
  intros Hset Hlod Hyear Hrun cal'.
  unfold step in Hrun. simpl in Hrun.
  apply bind_inv_Done in Hrun as (n' & c0 & [= <- <-] & Hrun).
  rewrite Nat2Z.id in Hrun.
  split; [by apply (repeat_body_calendar D ExternalInc n c)|].
  split; [intros; by apply calday_after_range|].
  intros Hun.
  destruct (calday_after_wraps n cal dt lod dpy Hun) as (k & _ & Heq).
  assert (Hm : cal' == cal + inject_Z (1 - k) * dpy).
  { unfold cal'. rewrite Heq.
    assert (inject_Z (Z.of_nat n) * (dt / lod) == dpy) as ->.
    { unfold Qdiv. rewrite Qmult_assoc, Hyear. by field. }
    unfold Z.sub. rewrite inject_Z_plus, inject_Z_opp. ring. }
  split; [by exists (1 - k)%Z|].
  intros Fd H0 H1 Hq0 Hq1.
  destruct (calday_after_range n cal dt lod dpy) as [? ?]; [done..|].
  by apply (whole_years_apart cal _ (1 - k)%Z dpy).
Qed.

(** * The accessor round trip *)

Lemma getitem_Now c key v :
  parameters c !! key = None →
  grid c !! key = None →
  Now c !! key = Some v →
  getitem c key = Done (fetched v).
Proof.
  intros Hp Hg Hn. unfold getitem, lookup_order. simpl.
  by rewrite Hp, Hg, Hn.
Qed.

(** C7, as the code has it. For a 2D state field [key] that no parameter
    or grid entry shadows, and a value of [nlat * nlon] elements,
    [component[key] = v] followed by [component[key]] returns the
    elements of [v] in order, in the shape [(nlat, nlon)] with its
    length-one dimensions squeezed out: the shape is [(nlat, nlon)]
    itself when neither is one. *)
Theorem accessor_round_trip
    D c key v xs nlev nlat nlon long_name units :
  parameters c !! key = None →
  grid c !! key = None →
  is_Some (Now c !! key) →
  KnownFields D !! key = Some (long_name, units, "2D") →
  Shape3D c = (nlev, nlat, nlon) →
  elements v = Done xs →
  length xs = (nlat * nlon)%nat →
  ∃ c',
    setitem D key v c = (Done tt, c') ∧
    getitem c' key
      = Done (VArr {| shape := filter (λ n, n ≠ 1%nat) [nlat; nlon];
                      data := xs |}) ∧
    (nlat ≠ 1%nat → nlon ≠ 1%nat →
     getitem c' key = Done (VArr {| shape := [nlat; nlon]; data := xs |})).
Proof.
  intros Hp Hg Hn Hknown Hshape Hxs Hlen.
  set (r := VArr {| shape := [nlat; nlon]; data := xs |}).
  assert (Hr : reshape v [nlat; nlon] = Done r).
  { unfold reshape. rewrite Hxs. simpl.
    rewrite Hlen, Nat.mul_1_r, Nat.eqb_refl. done. }
  exists (set_Now <[key := r]> c).
  assert (Hget : getitem (set_Now <[key := r]> c) key = Done (squeeze r)).
  { rewrite (getitem_Now _ key r); [done..|]. simpl.
    by rewrite lookup_insert_eq. }
  split_and!.
  - unfold setitem. rewrite (bind_Done _ _ c c c) by done.
    rewrite decide_False by (rewrite Hp; by intros []).
    rewrite decide_False by (rewrite Hg; by intros []).
    rewrite decide_True by done.
    rewrite Hknown, Hshape. rewrite decide_True by done.
    by rewrite (bind_Done _ _ c r c) by (unfold lift; by rewrite Hr).
  - done.
  - intros Hlat Hlon. rewrite Hget. unfold r, squeeze. simpl.
    rewrite !filter_cons. rewrite !decide_True by done. done.
Qed.

(** * The sample component at work *)

(** At [t = 100] with [dt = 30] and an update every [100] seconds the
    boundary is crossed ([int(100/100) = 1], [int(70/100) = 0]): the
    kernel runs on the current temperature and the timestep. *)
Lemma recompute_gate_at_boundary :
  compute radiation false column_at_100 = compute radiation true column_at_100
  ∧ calls (compute radiation true column_at_100).2
      = [CallDriver [VNum 280; VNum 30]]
  ∧ kernel_invoked column_at_100 (compute radiation false column_at_100).2.
Proof.
  destruct (recompute_gate radiation column_at_100 (VNum 30) 30)
    as (_ & Hopen & Hkernel & _).
  - reflexivity.
  - reflexivity.
  - intros H. vm_compute in H. discriminate.
  - destruct (Hkernel (baseline_input column_at_100) [VNum 280; VNum 30])
      as (Hcalls & Hiff); [reflexivity..|].
    split; [|split; [exact Hcalls|]].
    + apply Hopen. vm_compute. discriminate.
    + apply Hiff. vm_compute. discriminate.
Defined.

(** Before the first step ([t = 0], [dt = 30], an update every [100]
    seconds) the floors of [t/f] and [(t-dt)/f] differ, [0] and [-1],
    and yet [compute] returns without calling the kernel. *)
Lemma floor_gate_fails_before_first_step :
  getitem column "dt" = Done (VNum 30) ∧
  ¬ (kernel_invoked column (compute radiation false column).2
     ↔ Qfloor (float_div (ElapsedTime column) (update_frequency column))
       ≠ Qfloor (float_div (float_sub (ElapsedTime column) 30)
                           (update_frequency column))).
Proof.
  split; [reflexivity|]. intros [_ Hinv].
  destruct Hinv as [args Hargs].
  - vm_compute. discriminate.
  - vm_compute in Hargs. discriminate.
Qed.

(** The float written [0.1], as [(0.1).as_integer_ratio()] gives it. *)
Lemma tenth_as_integer_ratio :
  tenth = 3602879701896397 # 36028797018963968.
Proof. vm_compute. reflexivity. Qed.

(** At [t = 0.6] with [dt = 0.1] and an update every [0.1] seconds the
    quotients of floats are [5.999...] and [5]: both truncate to [5] and
    the kernel is not called, though the multiple [5 * 0.1] lies in
    [(t - dt, t]]. *)
Lemma gate_closed_at_six_tenths :
  py_int (float_div six_tenths tenth) = 5%Z ∧
  py_int (float_div (float_sub six_tenths tenth) tenth) = 5%Z ∧
  compute radiation false fine = (Done tt, fine) ∧
  six_tenths - tenth < 5 * tenth ∧ 5 * tenth <= six_tenths.
Proof. split_and!; vm_compute; first [reflexivity | discriminate]. Qed.

(** [step(0.5)] with [dt = 0.1]: the quotient of floats is [5] and five
    iterations are asked for, where the exact quotient of the two floats
    lies below [5]. *)
Lemma half_second_is_five_steps :
  requested_steps (Seconds (1 # 2)) tenth = 5%Z ∧
  Qfloor ((1 # 2) / tenth) = 4%Z.
Proof. split; vm_compute; reflexivity. Qed.

Lemma implicit_input_is_old_lagged :
  ∃ Input,
    assemble_input lagged column = Done Input ∧
    Input !! "T" = Some (VNum 250) ∧
    calls (compute lagged true column).2 = [CallDriver [VNum 250; VNum 30]].
Proof.
  destruct (implicit_input_is_old lagged column eq_refl)
    as (Input & HI & Hold & Hargs).
  exists Input. split; [exact HI|]. split.
  - apply Hold. reflexivity.
  - assert (Input = Old column ∪ baseline_input column) as ->.
    { rewrite (assemble_input_implicit lagged column eq_refl) in HI.
      by injection HI. }
    destruct (Hargs [VNum 250; VNum 30]) as [Hcalls _]; [reflexivity|].
    exact Hcalls.
Defined.



(** The kernel of [moist] returns no [qinc] for the Prognostic [q]. *)
Lemma missing_increment_raises_moist :
  ∃ field c',
    field ∈ Prognostic moist ∧
    compute moist true column = (Raise (KeyError (field +:+ "inc")), c') ∧
    calls c' = CallDriver [VNum 280; VNum 30] :: calls column.
Proof.
  apply (missing_increment_raises moist true column
           (baseline_input column) [VNum 280; VNum 30]
           {[ "Tinc" := VNum 1; "flux" := VNum 5 ]} "q").
  - left. reflexivity.
  - reflexivity.
  - reflexivity.
  - vm_compute. reflexivity.
  - apply elem_of_cons. right. apply list_elem_of_singleton. reflexivity.
  - vm_compute. reflexivity.
Defined.

(** [T] is held fixed and an earlier merge left an entry for it in
    [Inc]; the gated [compute] inside the iteration returns and the entry
    is still there. *)
Lemma fixed_field_kept_by_gated_compute :
  "T" ∈ Fixed held_before_compute ∧
  compute radiation false held_before_compute
    = (Done tt, held_before_compute) ∧
  Inc (compute radiation false held_before_compute).2 !! "T"
    = Some (VNum 2).
Proof.
  split_and!.
  - apply list_elem_of_singleton. reflexivity.
  - vm_compute. reflexivity.
  - vm_compute. reflexivity.
Qed.

Lemma fixed_fields_after_compute_held :
  Now held_born !! "T" = Now (configured ["T"] 30 0 (1, 1, 1)%nat) !! "T" ∧
  Inc held_born !! "T" = None.
Proof.
  destruct (fixed_fields_after_compute radiation true
              (set_Inc (λ _, ∅) held) held_born "T")
    as (HNow & HInc & _).
  - vm_compute. reflexivity.
  - apply list_elem_of_singleton. reflexivity.
  - split; [exact HNow|]. apply HInc.
    exists [VNum 280; VNum 30]. vm_compute. reflexivity.
Defined.

(** [step(1, {'q': 1.})] on a component that declares [T] alone leaves
    [q] in [Inc]; and there it stays through a later [compute] that
    calls the kernel and a later iteration given no external increment
    at all. *)
Lemma undeclared_increment_stays :
  step_iteration radiation [("q", VNum 1)] column_born
    = (Done tt, column_stepped) ∧
  ¬ dom (Inc column_stepped) ⊆ marched radiation column_stepped ∧
  (∃ c', compute radiation true column_stepped = (Done tt, c') ∧
         Inc c' !! "q" = Some (VNum 1)) ∧
  (∃ c', step_iteration radiation [] column_stepped = (Done tt, c') ∧
         Inc c' !! "q" = Some (VNum 1)).
Proof.
  split; [vm_compute; reflexivity|]. split.
  - intros Hsub. specialize (Hsub "q").
    assert ("q" ∈ dom (Inc column_stepped)) as Hq.
    { apply elem_of_dom. exists (VNum 1). vm_compute. reflexivity. }
    apply Hsub, elem_of_marched in Hq as [Hq _].
    apply list_elem_of_singleton in Hq. discriminate.
  - split.
    + exists (compute radiation true column_stepped).2.
      split; vm_compute; reflexivity.
    + exists (step_iteration radiation [] column_stepped).2.
      split; vm_compute; reflexivity.
Qed.

Lemma inc_keys_invariant_born :
  dom (Inc column_born) ⊆ marched radiation column_born.
Proof.
  apply inc_keys_invariant. apply (born radiation column).
  vm_compute. reflexivity.
Defined.

(** On a grid of one latitude and three longitudes the value read back
    has the shape [(3,)], not [(1, 3)]. *)
Lemma accessor_round_trip_row_squeezed :
  let v := VArr {| shape := [3%nat]; data := [1; 2; 3] |} in
  Shape3D row = (1, 1, 3)%nat ∧
  KnownFields radiation !! "T" = Some ("temperature", "K", "2D") ∧
  (setitem radiation "T" v row).1 = Done tt ∧
  getitem (setitem radiation "T" v row).2 "T"
    = Done (VArr {| shape := [3%nat]; data := [1; 2; 3] |}) ∧
  getitem (setitem radiation "T" v row).2 "T"
    ≠ Done (VArr {| shape := [1%nat; 3%nat]; data := [1; 2; 3] |}).
Proof.
  split_and!; try (vm_compute; reflexivity).
  vm_compute. discriminate.
Qed.

Lemma accessor_round_trip_plane :
  ∃ c',
    setitem radiation "T"
      (VArr {| shape := [6%nat]; data := [1; 2; 3; 4; 5; 6] |}) plane
      = (Done tt, c') ∧
    getitem c' "T"
      = Done (VArr {| shape := [2%nat; 3%nat];
                      data := [1; 2; 3; 4; 5; 6] |}).
Proof.
  destruct (accessor_round_trip radiation plane "T"
              (VArr {| shape := [6%nat]; data := [1; 2; 3; 4; 5; 6] |})
              [1; 2; 3; 4; 5; 6] 1%nat 2%nat 3%nat "temperature" "K")
    as (c' & Hset & _ & Hget).
  - reflexivity.
  - reflexivity.
  - exists (VNum 280). reflexivity.
  - reflexivity.
  - reflexivity.
  - reflexivity.
  - reflexivity.
  - exists c'. split; [exact Hset|]. apply Hget; discriminate.
Defined.

(** Five steps of [73] days make up the year of [365] days, and every
    sum on the way is a whole number of days. *)
Lemma calendar_wraps_yearly_seasonal :
  let c := (seed_diagnostics radiation seasonal).2 in
  let c' := (step radiation (Steps 5) [] c).2 in
  calendar_set c' (calday_after 5 1 6307200 86400 365) 6307200 86400 365 ∧
  unrounded 5 1 6307200 86400 365 ∧
  calday_after 5 1 6307200 86400 365 == 1.
Proof.
  intros c c'.
  assert (unrounded 5 1 6307200 86400 365) as Hun
    by (vm_compute; repeat split).
  destruct (calendar_wraps_yearly radiation 5 [] c c' 1 6307200 86400 365)
    as (Hset & _ & Hback).
  - split_and!; vm_compute; reflexivity.
  - intros H. vm_compute in H. discriminate.
  - vm_compute. reflexivity.
  - vm_compute. reflexivity.
  - split; [exact Hset|]. split; [exact Hun|].
    destruct (Hback Hun) as [_ Hsame].
    apply Hsame; vm_compute; congruence.
Defined.

(** Nine steps of [3504000] seconds make up the year of [365] days, a
    step being [40.5555...] days: each sum is rounded, and [calday],
    which started at [1], ends at [0.9999999999999432]. *)
Lemma calendar_drifts_over_a_year :
  let c := (seed_diagnostics radiation ninths).2 in
  let c' := (step radiation (Steps 9) [] c).2 in
  calendar_set c 1 3504000 86400 365 ∧
  inject_Z 9 * 3504000 == 365 * 86400 ∧
  step radiation (Steps 9) [] c = (Done tt, c') ∧
  calendar_set c' (calday_after 9 1 3504000 86400 365) 3504000 86400 365 ∧
  calday_after 9 1 3504000 86400 365 = 17592186044415 # 17592186044416 ∧
  ¬ calday_after 9 1 3504000 86400 365 == 1.
Proof.
  intros c c'. split_and!; vm_compute; repeat split; discriminate.
Qed.

(** [step(95.)] with [dt = 30]: three iterations; [step(20.)]: none. *)
Lemma step_runs_requested_iterations_95s :
  step radiation (Seconds 95) [] column_born
    = repeat_body 3 (step_iteration radiation []) column_born ∧
  count_calls is_advance_call (step radiation (Seconds 95) [] column_born).2
    = 3%nat ∧
  step radiation (Seconds 20) [] column_born = (Done tt, column_born).
Proof.
  destruct (step_runs_requested_iterations radiation (Seconds 95) []
              column_born 30) as (Hrun & Hcount & _).
  - split.
    + exists (VNum 30). split; reflexivity.
    + intros H. vm_compute in H. discriminate.
  - split; [exact Hrun|]. split.
    + apply (Hcount (step radiation (Seconds 95) [] column_born).2).
      vm_compute. reflexivity.
    + destruct (step_runs_requested_iterations radiation (Seconds 20) []
                  column_born 30) as (_ & _ & Hnone).
      * split.
        -- exists (VNum 30). split; reflexivity.
        -- intros H. vm_compute in H. discriminate.
      * apply (Hnone 20); [reflexivity| | | |reflexivity];
          vm_compute; first [reflexivity | discriminate].
Defined.

(** [moist] declares [T] before [q]: the increment of [T] is stored
    before the missing [qinc] raises. *)
Lemma missing_increment_not_atomic_moist :
  ∃ c',
    compute moist true column = (Raise (KeyError "qinc"), c') ∧
    Inc c' !! "T" = Some (VNum 1) ∧
    Now c' = Now column.
Proof.
  destruct (missing_increment_not_atomic moist true column
              (baseline_input column) [VNum 280; VNum 30]
              {[ "Tinc" := VNum 1; "flux" := VNum 5 ]} ["T"] "q" [])
    as (c' & Hrun & Hpre & _ & HNow & _).
  - left. reflexivity.
  - reflexivity.
  - reflexivity.
  - vm_compute. reflexivity.
  - reflexivity.
  - apply NoDup_singleton.
  - intros k Hk. apply list_elem_of_singleton in Hk. subst k.
    exists (VNum 1). vm_compute. reflexivity.
  - vm_compute. reflexivity.
  - exists c'. split; [exact Hrun|]. split; [|exact HNow].
    rewrite Hpre; [vm_compute; reflexivity|].
    apply list_elem_of_singleton. reflexivity.
Defined.

(** * More on input assembly *)

Lemma baseline_input_lookup c key :
  baseline_input c !! key =
    if decide (key = "UpdateFreq") then Some (VNum (update_frequency c))
    else match parameters c !! key with
         | Some v => Some v
         | None => match grid c !! key with
                   | Some v => Some v
                   | None => Now c !! key
                   end
         end.
Proof.
  unfold baseline_input. case_decide as Hk.
  - subst. apply lookup_insert_eq.
  - rewrite lookup_insert_ne by done.
    rewrite !lookup_union.
    destruct (parameters c !! key), (grid c !! key), (Now c !! key); done.
Qed.

(** X1. Under any stepping scheme other than 'implicit' and
    'semi-implicit' (so under 'explicit', and under a misspelt scheme as
    well) the input is the plain union: [UpdateFreq] is the update
    frequency, and any other key is read from the parameters, else from
    the grid, else from [State.Now]; the kernel's positional arguments
    are these values in the order of [ToExtension]. *)
Theorem explicit_input_is_current D c :
  SteppingScheme D ≠ "implicit" →
  SteppingScheme D ≠ "semi-implicit" →
  assemble_input D c = Done (baseline_input c) ∧
  (∀ key v, key ≠ "UpdateFreq" → parameters c !! key = None →
            grid c !! key = None → Now c !! key = Some v →
            baseline_input c !! key = Some v) ∧
  (∀ args i key,
     extension_args (baseline_input c) (ToExtension D) = Done args →
     ToExtension D !! i = Some key →
     args !! i =
       if decide (key = "UpdateFreq") then Some (VNum (update_frequency c))
       else match parameters c !! key with
            | Some v => Some v
            | None => match grid c !! key with
                      | Some v => Some v
                      | None => Now c !! key
                      end
            end).
Proof.
  intros Hi Hs. split_and!.
  - unfold assemble_input. by repeat case_decide.
  - intros key v Hk Hp Hg Hn. rewrite baseline_input_lookup.
    rewrite decide_False by done. by rewrite Hp, Hg.
  - intros args i key Hargs Hkey.
    rewrite (extension_args_lookup _ _ _ _ _ Hargs Hkey).
    apply baseline_input_lookup.
Qed.

Lemma explicit_input_is_current_column :
  assemble_input radiation column = Done (baseline_input column) ∧
  baseline_input column !! "T" = Some (VNum 280).
Proof.
  destruct (explicit_input_is_current radiation column) as (H1 & H2 & _).
  - discriminate.
  - discriminate.
  - split; [exact H1|]. apply H2; [discriminate|reflexivity..].
Defined.

(** * The semi-implicit scheme *)

Lemma append_old_Done old keys Input :
  (∀ k, k ∈ keys → is_Some (old !! k)) →
  ∃ Input',
    append_old old keys Input = Done Input' ∧
    (∀ k, k ∈ keys → Input' !! (k +:+ "old") = old !! k) ∧
    (∀ x, (∀ k, k ∈ keys → x ≠ k +:+ "old") → Input' !! x = Input !! x).
Proof.
  revert Input. induction keys as [|p keys IH]; intros Input Hold.
  - exists Input. split_and!; try done.
    intros k Hk. by apply elem_of_nil in Hk.
  - destruct (Hold p) as [v Hv]; [left|].
    destruct (IH (<[p +:+ "old" := v]> Input)) as (Input' & Hrun & Hin & Hout).
    { intros k Hk. apply Hold. by right. }
    exists Input'. split_and!.
    + simpl. unfold subscript. by rewrite Hv.
    + intros k Hk. destruct (decide (k ∈ keys)) as [Hkk|Hnk]; [by apply Hin|].
      apply elem_of_cons in Hk as [->|]; [|done].
      rewrite Hout.
      * by rewrite lookup_insert_eq.
      * intros k Hk Heq. apply suffix_inj in Heq. by subst.
    + intros x Hx. rewrite Hout.
      * apply lookup_insert_ne, not_eq_sym, Hx. left.
      * intros k Hk. apply Hx. by right.
Qed.

Lemma append_old_missing old pre key post Input :
  (∀ k, k ∈ pre → is_Some (old !! k)) →
  old !! key = None →
  append_old old (pre ++ key :: post) Input = Raise (KeyError key).
Proof.
  revert Input. induction pre as [|p pre IH]; intros Input Hpre Hnone; simpl.
  - unfold subscript. by rewrite Hnone.
  - destruct (Hpre p) as [v Hv]; [left|]. unfold subscript. rewrite Hv.
    apply IH; [|done]. intros k Hk. apply Hpre. by right.
Qed.

(** X2. Under 'semi-implicit', the input carries for every Prognostic
    field its old level under the field's name followed by 'old', beside
    the plain union, which is unchanged at every other key. *)
Theorem semi_implicit_input_has_both_levels D c :
  SteppingScheme D = "semi-implicit" →
  (∀ k, k ∈ Prognostic D → is_Some (Old c !! k)) →
  ∃ Input,
    assemble_input D c = Done Input ∧
    (∀ k, k ∈ Prognostic D → Input !! (k +:+ "old") = Old c !! k) ∧
    (∀ x, (∀ k, k ∈ Prognostic D → x ≠ k +:+ "old") →
          Input !! x = baseline_input c !! x).
Proof.
  intros Hs Hold.
  destruct (append_old_Done (Old c) (Prognostic D) (baseline_input c) Hold)
    as (Input & Hrun & Hin & Hout).
  exists Input. split; [|done].
  unfold assemble_input. rewrite Hs. by repeat case_decide.
Qed.

(** * Arguments that cannot be assembled *)

Lemma extension_args_missing Input pre key post :
  (∀ k, k ∈ pre → is_Some (Input !! k)) →
  Input !! key = None →
  extension_args Input (pre ++ key :: post) = Raise (KeyError key).
Proof.
  induction pre as [|p pre IH]; intros Hpre Hnone; simpl.
  - unfold subscript. by rewrite Hnone.
  - destruct (Hpre p) as [v Hv]; [left|]. unfold subscript. rewrite Hv.
    rewrite IH; [done| |done]. intros k Hk. apply Hpre. by right.
Qed.

Lemma run_kernel_no_input D c e :
  assemble_input D c = Raise e → run_kernel D c = (Raise e, c).
Proof.
  intros H. unfold run_kernel, bind, get, lift. by rewrite H.
Qed.

Lemma run_kernel_no_args D c Input e :
  assemble_input D c = Done Input →
  extension_args Input (ToExtension D) = Raise e →
  run_kernel D c = (Raise e, c).
Proof.
  intros HI H. unfold run_kernel, bind, get, lift. by rewrite HI, H.
Qed.

(** X3. When a name of [ToExtension] is in none of state, grid and
    parameters, a [compute] that got past the gate raises [KeyError] on
    the first such name, without calling the kernel and without changing
    the component. *)
Theorem missing_input_raises D forced c Input pre key post :
  gate_open forced c →
  assemble_input D c = Done Input →
  ToExtension D = pre ++ key :: post →
  (∀ k, k ∈ pre → is_Some (Input !! k)) →
  Input !! key = None →
  compute D forced c = (Raise (KeyError key), c).
Proof.
  intros Hopen HI HT Hpre Hnone. rewrite compute_open by done.
  apply bind_Raise. apply (run_kernel_no_args D c Input); [done|].
  rewrite HT. by apply extension_args_missing.
Qed.

(** X4. Under 'semi-implicit', a Prognostic field with no entry in
    [State.Old] makes [compute] raise [KeyError] on the field's own name
    (the first such field in declared order), again before the kernel is
    called and with the component unchanged. *)
Theorem missing_old_level_raises D forced c pre key post :
  gate_open forced c →
  SteppingScheme D = "semi-implicit" →
  Prognostic D = pre ++ key :: post →
  (∀ k, k ∈ pre → is_Some (Old c !! k)) →
  Old c !! key = None →
  compute D forced c = (Raise (KeyError key), c).
Proof.
  intros Hopen Hs HP Hpre Hnone. rewrite compute_open by done.
  apply bind_Raise, run_kernel_no_input.
  unfold assemble_input. rewrite Hs, HP.
  repeat case_decide; try done. by apply append_old_missing.
Qed.

(** * What a kernel call leaves in [Inc] and in the state *)

Lemma extract_increments_exact keys Output c Output' c' :
  extract_increments keys Output c = (Done Output', c') →
  NoDup keys ∧
  (∀ k, k ∈ keys → Inc c' !! k = Output !! (k +:+ "inc")) ∧
  (∀ x, Output' !! x =
        if decide (x ∈ increment_keys keys) then None else Output !! x).
Proof.
  revert Output c. induction keys as [|p keys IH]; intros Output c Hrun.
  - simpl in Hrun. injection Hrun as <- <-. split_and!.
    + constructor.
    + intros k Hk. by apply elem_of_nil in Hk.
    + intros x. rewrite decide_False; [done|]. apply not_elem_of_nil.
  - simpl in Hrun.
    apply bind_inv_Done in Hrun as (v & c1 & Hv & Hrun).
    unfold lift, subscript in Hv.
    destruct (Output !! (p +:+ "inc")) as [v'|] eqn:Hp; [|done].
    injection Hv as -> <-.
    apply bind_inv_Done in Hrun as ([] & c2 & [= <-] & Hrun).
    pose proof (extract_increments_Done _ _ _ _ _ Hrun)
      as (_ & Hsome & Hout & _).
    apply IH in Hrun as (Hnd & Hin & HO).
    assert (p ∉ keys) as Hpk.
    { intros Hpk. specialize (Hin p Hpk). rewrite lookup_delete_eq in Hin.
      destruct (Hsome p Hpk) as [? ?]. congruence. }
    split_and!.
    + by constructor.
    + intros k [->|Hk]%elem_of_cons.
      * rewrite Hout by done. simpl. by rewrite lookup_insert_eq.
      * rewrite Hin by done. apply lookup_delete_ne.
        intros Heq. apply suffix_inj in Heq. by subst.
    + intros x. rewrite HO. unfold increment_keys. rewrite fmap_cons.
      destruct (decide (x = p +:+ "inc")) as [->|Hne].
      * rewrite (decide_True (P := _ ∈ _ :: _)) by left.
        case_decide; [done|]. apply lookup_delete_eq.
      * rewrite lookup_delete_ne by done.
        repeat case_decide; try done.
        -- exfalso. by apply H0; right.
        -- exfalso. apply elem_of_cons in H0 as [?|?]; done.
Qed.

(** X5. A [compute] that called the kernel and returned leaves in [Inc]
    exactly this: nothing for a Fixed field; for any other Prognostic
    field the kernel's increment, whatever [Inc] held before (increments
    merged in by [step] are dropped, not added to); and what was there
    for any other name. The declared Prognostic fields are then all
    different. *)
Theorem kernel_increments_overwrite D forced c Input args Output c' :
  gate_open forced c →
  assemble_input D c = Done Input →
  extension_args Input (ToExtension D) = Done args →
  build_output (FromExtension D) (driver D args) = Done Output →
  compute D forced c = (Done tt, c') →
  NoDup (Prognostic D) ∧
  ∀ k, Inc c' !! k =
         if decide (k ∈ Fixed c) then None
         else if decide (k ∈ Prognostic D) then Output !! (k +:+ "inc")
         else Inc c !! k.
Proof.
  intros Hopen HI Ha HO Hrun.
  rewrite (compute_store D forced c Input args Output) in Hrun by done.
  unfold store_output in Hrun.
  apply bind_inv_Done in Hrun as (Output' & c1 & Hext & Hrun).
  pose proof (extract_increments_Done _ _ _ _ _ Hext) as (Honly & _ & Hout & _).
  apply extract_increments_exact in Hext as (Hnd & Hin & _).
  unfold bind, get, modify, State_update in Hrun. simpl in Hrun.
  injection Hrun as <-. split; [done|]. intros k. simpl.
  rewrite remove_keys_lookup. rewrite Honly. simpl.
  case_decide; [done|]. case_decide; [by apply Hin|by apply Hout].
Qed.

(** X6. The same [compute] merges into [State.Now], and sets as
    attributes, every output that is neither the increment of a
    Prognostic field nor named like a Fixed field; at any other name
    [State.Now] and the attributes are as before. *)
Theorem diagnostics_are_merged D forced c Input args Output c' :
  gate_open forced c →
  assemble_input D c = Done Input →
  extension_args Input (ToExtension D) = Done args →
  build_output (FromExtension D) (driver D args) = Done Output →
  compute D forced c = (Done tt, c') →
  ∀ x,
    let kept :=
      if decide (x ∈ Fixed c) then None
      else if decide (x ∈ increment_keys (Prognostic D)) then None
      else Output !! x in
    Now c' !! x = (if kept is Some v then Some v else Now c !! x) ∧
    attrs c' !! x = (if kept is Some v then Some v else attrs c !! x).
Proof.
  intros Hopen HI Ha HO Hrun x.
  rewrite (compute_store D forced c Input args Output) in Hrun by done.
  unfold store_output in Hrun.
  apply bind_inv_Done in Hrun as (Output' & c1 & Hext & Hrun).
  pose proof (extract_increments_Done _ _ _ _ _ Hext) as (Honly & _).
  apply extract_increments_exact in Hext as (_ & _ & HO').
  unfold bind, get, modify, State_update in Hrun. simpl in Hrun.
  injection Hrun as <-. simpl. rewrite Honly. simpl.
  rewrite !lookup_union, remove_keys_lookup, HO'.
  repeat case_decide; simpl;
    by destruct (Output !! x), (Now c !! x), (attrs c !! x).
Qed.

(** * The dictionary of outputs *)

Lemma insert_pairs_other (pairs : list (string * value))
    (m0 : gmap string value) name :
  name ∉ pairs.*1 →
  foldl (λ m p, <[p.1 := p.2]> m) m0 pairs !! name = m0 !! name.
Proof.
  revert m0. induction pairs as [|[k w] ps IH]; intros m0 Hk; simpl; [done|].
  simpl in Hk. apply not_elem_of_cons in Hk as [Hne Hk].
  rewrite IH by done. simpl. by apply lookup_insert_ne.
Qed.

Lemma zip_keys_subseteq (names : list string) (vs : list value) name :
  name ∈ (zip names vs).*1 → name ∈ names.
Proof.
  intros Hin.
  apply list_elem_of_fmap in Hin as ([k w] & -> & Hin).
  apply list_elem_of_lookup in Hin as [j Hj].
  apply lookup_zip_with_Some in Hj as (x & y & [= -> ->] & Hx & _).
  by apply list_elem_of_lookup_2 in Hx.
Qed.

Lemma insert_pairs_zip_lookup names (vs : list value)
    (m0 : gmap string value) i name :
  NoDup names →
  names !! i = Some name →
  foldl (λ m p, <[p.1 := p.2]> m) m0 (zip names vs) !! name
    = match vs !! i with Some v => Some v | None => m0 !! name end.
Proof.
  intros Hnd. revert vs i m0.
  induction Hnd as [|n names Hn Hnd IH]; intros vs i m0 Hi; [done|].
  destruct vs as [|v vs]; simpl; [by destruct i|].
  destruct i as [|i]; simpl in *.
  - injection Hi as ->.
    rewrite insert_pairs_other; [by rewrite lookup_insert_eq|].
    intros Hin. by apply Hn, (zip_keys_subseteq names vs).
  - rewrite (IH vs i _ Hi). destruct (vs !! i); [done|].
    simpl. apply lookup_insert_ne. intros ->. apply Hn.
    by apply list_elem_of_lookup_2 in Hi.
Qed.

(** X7. With several declared outputs, the values the kernel returns are
    matched to the names of [FromExtension] by position; a name beyond
    the last returned value gets no entry (nothing is raised for the
    missing value at this point). *)
Theorem outputs_are_matched_by_position names OutputValues vs :
  NoDup names →
  length names ≠ 1%nat →
  py_iter OutputValues = Done vs →
  ∃ Output,
    build_output names OutputValues = Done Output ∧
    (∀ i name, names !! i = Some name → Output !! name = vs !! i) ∧
    (∀ name, name ∉ names → Output !! name = None).
Proof.
  intros Hnd Hlen Hvs. exists (py_dict (zip names vs)). split_and!.
  - unfold build_output. rewrite Hvs.
    destruct names as [|n [|n' names]]; done.
  - intros i name Hi. unfold py_dict.
    rewrite (insert_pairs_zip_lookup names vs ∅ i name Hnd Hi).
    by destruct (vs !! i).
  - intros name Hn. unfold py_dict. rewrite insert_pairs_other; [done|].
    intros Hin. by apply Hn, (zip_keys_subseteq names vs).
Qed.

Lemma outputs_are_matched_by_position_short :
  ∃ Output,
    build_output ["Tinc"; "flux"; "albedo"] (VSeq [VNum 1; VNum 5])
      = Done Output ∧
    Output !! "flux" = Some (VNum 5) ∧
    Output !! "albedo" = None.
Proof.
  destruct (outputs_are_matched_by_position ["Tinc"; "flux"; "albedo"]
              (VSeq [VNum 1; VNum 5]) [VNum 1; VNum 5])
    as (Output & Hrun & Hpos & _).
  - compute_done.
  - discriminate.
  - reflexivity.
  - exists Output. split; [exact Hrun|].
    split; [exact (Hpos 1%nat "flux" eq_refl)|exact (Hpos 2%nat "albedo" eq_refl)].
Defined.

(** * A gate that cannot be evaluated *)

(** X10. A zero update frequency makes [compute] without
    [ForcedCompute] raise [ZeroDivisionError] before anything is looked
    up, called or changed. *)
Theorem zero_update_frequency_raises D c :
  update_frequency c == 0 →
  compute D false c = (Raise ZeroDivisionError, c).
Proof.
  intros Hf. unfold compute. apply bind_Raise.
  unfold time_for_update. rewrite (bind_Done _ _ c c c) by done.
  apply bind_Raise. unfold lift, py_div.
  apply Qeq_bool_iff in Hf. by rewrite Hf.
Qed.

(** * An iteration that fails *)

(** X12. When the [compute] of the first iteration raises, [step]
    raises with the component as that [compute] left it: the external
    increments stay merged and the state stays advanced, while the
    calendar parameters have not moved and nothing was written. *)
Theorem failed_iteration_is_not_rolled_back D n ext c c1 c2 c3 e :
  (0 < n)%Z →
  for_each ext add_external_increment c = (Done tt, c1) →
  State_advance D c1 = (Done tt, c2) →
  compute D false c2 = (Raise e, c3) →
  step D (Steps n) ext c = (Raise e, c3) ∧
  count_calls is_advance_call c3 = S (count_calls is_advance_call c) ∧
  count_calls is_write_call c3 = count_calls is_write_call c ∧
  parameters c3 = parameters c.
Proof.
  intros Hn H1 H2 H3.
  assert (Hiter : step_iteration D ext c = (Raise e, c3)).
  { unfold step_iteration. rewrite (bind_Done _ _ c tt c1) by done.
    rewrite (bind_Done _ _ c1 tt c2) by done. by apply bind_Raise. }
  split_and!.
  - unfold step. simpl. rewrite (bind_Done _ _ c n c) by done.
    destruct (Z.to_nat n) as [|m] eqn:E; [lia|]. simpl.
    by apply bind_Raise.
  - pose proof (keeps_add_external_increments
      (count_calls is_advance_call) ext (λ _ _, eq_refl) c) as K1.
    rewrite H1 in K1. simpl in K1.
    apply State_advance_Done in H2.
    pose proof (keeps_compute (count_calls is_advance_call) D false
      (λ _ _, eq_refl) (λ _ _, eq_refl) (λ _ _, eq_refl) (λ _ _, eq_refl) c2)
      as K3.
    rewrite H3 in K3. simpl in K3. rewrite K3, <- K1.
    unfold count_calls. by rewrite H2.
  - pose proof (keeps_add_external_increments
      (count_calls is_write_call) ext (λ _ _, eq_refl) c) as K1.
    rewrite H1 in K1. simpl in K1.
    apply State_advance_Done in H2.
    pose proof (keeps_compute (count_calls is_write_call) D false
      (λ _ _, eq_refl) (λ _ _, eq_refl) (λ _ _, eq_refl) (λ _ _, eq_refl) c2)
      as K3.
    rewrite H3 in K3. simpl in K3. rewrite K3, <- K1.
    unfold count_calls. by rewrite H2.
  - pose proof (keeps_add_external_increments parameters ext
      (λ _ _, eq_refl) c) as K1. rewrite H1 in K1. simpl in K1.
    pose proof (keeps_State_advance parameters D (λ _, eq_refl)
      (λ _ _, eq_refl) (λ _ _, eq_refl) (λ _ _, eq_refl) c1) as K2.
    rewrite H2 in K2. simpl in K2.
    pose proof (keeps_compute parameters D false
      (λ _ _, eq_refl) (λ _ _, eq_refl) (λ _ _, eq_refl) (λ _ _, eq_refl) c2)
      as K3.
    rewrite H3 in K3. simpl in K3. congruence.
Qed.

(** * The calendar within the year *)

(** X13. A calendar day in [(0, daysperyear]] stays there through any
    number of iterations of [step], as long as one step is no longer
    than a year and [daysperyear] is a float: with the sums and
    differences rounded as they are, the wrap never leaves [calday] at
    or below zero, nor above [daysperyear]. *)
Theorem calday_stays_within_year D n ExternalInc c c' cal dt lod dpy :
  calendar_set c cal dt lod dpy →
  ¬ lod == 0 →
  is_float dpy →
  (0 < cal)%Q → (cal <= dpy)%Q →
  (0 <= dt / lod)%Q → (dt / lod <= dpy)%Q →
  step D (Steps (Z.of_nat n)) ExternalInc c = (Done tt, c') →
  ∃ cal',
    calendar_set c' cal' dt lod dpy ∧ (0 < cal')%Q ∧ (cal' <= dpy)%Q.
Proof.
  intros Hset Hlod Fd H0 H1 Hq0 Hq1 Hrun.
  unfold step in Hrun. simpl in Hrun.
  apply bind_inv_Done in Hrun as (n' & c0 & [= <- <-] & Hrun).
  rewrite Nat2Z.id in Hrun.
  exists (calday_after n cal dt lod dpy). split.
  - by apply (repeat_body_calendar D ExternalInc n c).
  - by apply calday_after_range.
Qed.

(** * More on the accessor *)

(** X14. Assigning to a name the parameters hold, or else the grid
    holds, stores the value there as given (no reshape, no check) and
    leaves the state alone, even when the state has a field of that
    name; reading the name back gives the value, squeezed unless it is
    a string. *)
Theorem parameter_or_grid_round_trip D c key v :
  is_Some (parameters c !! key) ∨ is_Some (grid c !! key) →
  ∃ c',
    setitem D key v c = (Done tt, c') ∧
    getitem c' key = Done (fetched v) ∧
    Now c' = Now c ∧ Old c' = Old c ∧ Inc c' = Inc c.
Proof.
  intros Hheld. unfold setitem.
  destruct (decide (is_Some (parameters c !! key))) as [Hp|Hp].
  - exists (set_parameters <[key := v]> c). split_and!; try done.
    + rewrite (bind_Done _ _ c c c) by done. by rewrite decide_True.
    + unfold getitem, lookup_order. simpl. by rewrite lookup_insert_eq.
  - destruct Hheld as [?|Hg]; [done|].
    exists (set_grid <[key := v]> c). split_and!; try done.
    + rewrite (bind_Done _ _ c c c) by done.
      rewrite decide_False by done. by rewrite decide_True.
    + unfold getitem, lookup_order. simpl.
      destruct (parameters c !! key) eqn:E; [by destruct Hp|].
      by rewrite lookup_insert_eq.
Qed.

(** X15. An assignment that raises changes nothing, and it can only
    raise for a name that neither the parameters nor the grid hold:
    [IndexError] when the state does not hold it either or its
    dimension tag is neither '2D' nor '3D', [KeyError] when the state
    holds it but [KnownFields] does not know it, [ValueError] when the
    value does not have as many elements as the field's shape. *)
Theorem failed_assignment_changes_nothing D c key v e c' :
  setitem D key v c = (Raise e, c') →
  c' = c ∧
  parameters c !! key = None ∧ grid c !! key = None ∧
  (e = IndexError key ∨
   (e = KeyError key ∧ is_Some (Now c !! key)
      ∧ KnownFields D !! key = None) ∨
   (e = ValueError ∧ is_Some (Now c !! key))).
Proof.
  unfold setitem. intros Hrun.
  apply (f_equal id) in Hrun. unfold bind at 1 in Hrun. simpl in Hrun.
  destruct (decide (is_Some (parameters c !! key))) as [Hp|Hp]; [done|].
  destruct (decide (is_Some (grid c !! key))) as [Hg|Hg]; [done|].
  assert (parameters c !! key = None) as Hpn.
  { destruct (parameters c !! key); [by destruct Hp|done]. }
  assert (grid c !! key = None) as Hgn.
  { destruct (grid c !! key); [by destruct Hg|done]. }
  destruct (decide (is_Some (Now c !! key))) as [Hn|Hn].
  - destruct (KnownFields D !! key) as [[[ln un] dims]|] eqn:Hk.
    + destruct (Shape3D c) as [[nlev nlat] nlon].
      assert (Hreshape : ∀ sh r cr,
        bind (lift (reshape v sh)) (λ r, State_setitem key r) c
          = (Raise r, cr) → r = ValueError ∧ cr = c).
      { intros sh r cr. unfold bind, lift, reshape.
        destruct (elements v) as [xs|e'] eqn:Hx.
        - destruct (length xs =? size_of sh)%nat; [done|].
          by intros [= <- <-].
        - intros [= <- <-]. split; [|done].
          unfold elements in Hx. destruct (numeric v); congruence. }
      repeat case_decide.
      * apply Hreshape in Hrun as [-> ->]. split_and!; try done.
        right. by right.
      * apply Hreshape in Hrun as [-> ->]. split_and!; try done.
        right. by right.
      * injection Hrun as <- <-. split_and!; try done. by left.
    + injection Hrun as <- <-. split_and!; try done. right. by left.
  - injection Hrun as <- <-. split_and!; try done. by left.
Qed.

(** X16. The 3D counterpart of the round trip: for a 3D state field that
    no parameter or grid entry shadows and a value of
    [nlev * nlat * nlon] elements, assignment then lookup returns the
    elements in order, in the shape [(nlev, nlat, nlon)] with its
    length-one dimensions squeezed out. *)
Theorem accessor_round_trip_3D
    D c key v xs nlev nlat nlon long_name units :
  parameters c !! key = None →
  grid c !! key = None →
  is_Some (Now c !! key) →
  KnownFields D !! key = Some (long_name, units, "3D") →
  Shape3D c = (nlev, nlat, nlon) →
  elements v = Done xs →
  length xs = (nlev * nlat * nlon)%nat →
  ∃ c',
    setitem D key v c = (Done tt, c') ∧
    Now c' !! key
      = Some (VArr {| shape := [nlev; nlat; nlon]; data := xs |}) ∧
    getitem c' key
      = Done (VArr {| shape := filter (λ n, n ≠ 1%nat) [nlev; nlat; nlon];
                      data := xs |}).
Proof.
  intros Hp Hg Hn Hknown Hshape Hxs Hlen.
  set (r := VArr {| shape := [nlev; nlat; nlon]; data := xs |}).
  assert (Hr : reshape v [nlev; nlat; nlon] = Done r).
  { unfold reshape. rewrite Hxs. simpl.
    rewrite Hlen, Nat.mul_1_r, Nat.mul_assoc, Nat.eqb_refl. done. }
  exists (set_Now <[key := r]> c). split_and!.
  - unfold setitem. rewrite (bind_Done _ _ c c c) by done.
    rewrite decide_False by (rewrite Hp; by intros []).
    rewrite decide_False by (rewrite Hg; by intros []).
    rewrite decide_True by done.
    rewrite Hknown, Hshape. rewrite decide_False by done.
    rewrite decide_True by done.
    by rewrite (bind_Done _ _ c r c) by (unfold lift; by rewrite Hr).
  - simpl. by rewrite lookup_insert_eq.
  - unfold getitem, lookup_order. simpl.
    by rewrite Hp, Hg, lookup_insert_eq.
Qed.

(** X17. Whatever it does, an assignment never creates a name: the
    parameters, the grid and [State.Now] have the keys they had. *)
Theorem assignment_never_creates_a_name D c key v :
  let c' := (setitem D key v c).2 in
  dom (parameters c') = dom (parameters c) ∧
  dom (grid c') = dom (grid c) ∧
  dom (Now c') = dom (Now c).
Proof.
  assert (Hins : ∀ (m : gmap string value) w,
            is_Some (m !! key) → dom (<[key := w]> m) = dom m).
  { intros m w Hs. rewrite dom_insert_L.
    by apply subseteq_union_1_L, singleton_subseteq_l, elem_of_dom. }
  unfold setitem, bind, get. simpl.
  destruct (decide (is_Some (parameters c !! key))) as [Hp|Hp].
  { simpl. by rewrite Hins. }
  destruct (decide (is_Some (grid c !! key))) as [Hg|Hg].
  { simpl. by rewrite Hins. }
  destruct (decide (is_Some (Now c !! key))) as [Hn|Hn]; [|done].
  destruct (KnownFields D !! key) as [[[ln un] dims]|]; [|done].
  destruct (Shape3D c) as [[nlev nlat] nlon].
  repeat case_decide; try done.
  - unfold lift. destruct (reshape v [nlat; nlon]); [|done].
    simpl. by rewrite Hins.
  - unfold lift. destruct (reshape v [nlev; nlat; nlon]); [|done].
    simpl. by rewrite Hins.
Qed.

(** * Axis lengths *)

Lemma field_lengths_unknown D AxisName kwargs n0 :
  (∀ kv, kv ∈ kwargs → KnownFields D !! kv.1 = None) →
  foldl (field_length D AxisName) n0 kwargs = n0.
Proof.
  revert n0. induction kwargs as [|kv kwargs IH]; intros n0 Hun; [done|].
  simpl. unfold field_length at 2. rewrite (Hun kv) by left. apply IH.
  intros kv' Hkv'. apply Hun. by right.
Qed.

Lemma field_lengths_no_level D kwargs n0 :
  (∀ kv ln un, kv ∈ kwargs →
     KnownFields D !! kv.1 ≠ Some (ln, un, "3D")) →
  foldl (field_length D "lev") n0 kwargs = n0.
Proof.
  revert n0. induction kwargs as [|kv kwargs IH]; intros n0 H3; [done|].
  simpl. rewrite IH.
  - unfold field_length.
    destruct (KnownFields D !! kv.1) as [[[ln un] dims]|] eqn:E; [|done].
    rewrite decide_False by (by intros [_ ?]).
    case_decide as Hd; [|done]. subst dims.
    exfalso. by apply (H3 kv ln un); [left|].
  - intros kv' ln un Hkv'. apply H3. by right.
Qed.

Lemma field_length_3D D AxisName n key v ln un :
  KnownFields D !! key = Some (ln, un, "3D") →
  field_length D AxisName n (key, v) = Some (shape_at v (index_3D AxisName)).
Proof.
  intros Hk. unfold field_length. simpl. rewrite Hk.
  rewrite decide_False by (by intros [? _]). by rewrite decide_True.
Qed.

(** X18. [_getAxisLength] never returns a length the extension
    disagrees with: when it returns [n] for an axis whose length the
    extension fixes, the extension's length is [n]; and it returns only
    for the axes 'lev', 'lat' and 'lon'. *)
Theorem axis_length_agrees_with_extension
    D get_n extension_n AxisName kwargs n :
  getAxisLength D get_n extension_n AxisName kwargs = Holds n →
  AxisName ∈ ["lev"; "lat"; "lon"] ∧
  ∀ m, extension_n AxisName = Some m → m = n.
Proof.
  unfold getAxisLength. intros Hrun.
  case_decide as Hax; [|done]. split; [done|].
  intros m Hm.
  destruct (match keyword kwargs AxisName with
            | Some v => _ | None => _ end) as [n0|]; [|done].
  unfold agreed in Hrun. rewrite Hm in Hrun. simpl in Hrun.
  case_decide as Heq; [|done]. injection Hrun as <-. done.
Qed.
(** X19. Without the axis 'lev' among the inputs, and with no 3D field
    among them, the number of levels is the compiled-in one: 2D fields
    say nothing about it. It is returned when the extension fixes no
    other number. *)
Theorem levels_default_to_compiled_in D get_n extension_n kwargs :
  keyword kwargs "lev" = None →
  (∀ kv ln un, kv ∈ kwargs →
     KnownFields D !! kv.1 ≠ Some (ln, un, "3D")) →
  getAxisLength D get_n extension_n "lev" kwargs
    = agreed extension_n "lev" (get_n "lev").
Proof.
  intros Hlev H3. unfold getAxisLength, agreed.
  rewrite decide_True by (left; done). rewrite Hlev.
  unfold length_from_fields. by rewrite field_lengths_no_level.
Qed.

(** X20. An axis given among the inputs decides its length alone: one
    for a scalar, the number of entries for a rank-1 sequence or array,
    and a failed [assert] for anything of higher rank. Fields among the
    inputs are not looked at, whatever their shapes. *)
Theorem supplied_axis_decides D get_n extension_n AxisName kwargs v :
  AxisName ∈ ["lev"; "lat"; "lon"] →
  keyword kwargs AxisName = Some v →
  getAxisLength D get_n extension_n AxisName kwargs =
    match array_shape v with
    | [] => agreed extension_n AxisName 1
    | [n] => agreed extension_n AxisName n
    | _ => AssertionError
    end.
Proof.
  intros Hax Hv. unfold getAxisLength, agreed.
  rewrite decide_True by done. rewrite Hv.
  by destruct (array_shape v) as [|n [|? ?]].
Qed.

(** X21. With no axis among the inputs and no extension fixing a
    length, the shape is read off the last known 3D field the inputs
    yield, whatever earlier fields say: its first three dimensions, one
    standing in for a dimension it does not have. *)
Theorem shape_follows_last_3D_field
    D get_n extension_n pre key v post ln un :
  (∀ a, extension_n a = None) →
  (∀ kv, kv ∈ pre ++ (key, v) :: post →
         kv.1 ∉ ["lev"; "lat"; "lon"]) →
  KnownFields D !! key = Some (ln, un, "3D") →
  (∀ kv, kv ∈ post → KnownFields D !! kv.1 = None) →
  getShape3D D get_n extension_n (pre ++ (key, v) :: post)
    = Holds (shape_at v 0, shape_at v 1, shape_at v 2).
Proof.
  intros Hext Hnoaxis Hknown Hpost.
  assert (Hkw : ∀ a, a ∈ ["lev"; "lat"; "lon"] →
                keyword (pre ++ (key, v) :: post) a = None).
  { intros a Ha. unfold keyword.
    destruct (list_find _ _) as [[i kv]|] eqn:E; [|done].
    apply list_find_Some in E as (Hi & Hkv & _).
    apply list_elem_of_lookup_2, Hnoaxis in Hi. by rewrite Hkv in Hi. }
  assert (Hlen : ∀ a, a ∈ ["lev"; "lat"; "lon"] →
            getAxisLength D get_n extension_n a (pre ++ (key, v) :: post)
            = Holds (shape_at v (index_3D a))).
  { intros a Ha. unfold getAxisLength.
    rewrite decide_True by done. rewrite Hkw by done.
    unfold length_from_fields. rewrite foldl_app. simpl.
    rewrite field_lengths_unknown by done.
    rewrite (field_length_3D D a _ key v ln un Hknown).
    unfold agreed. rewrite Hext. simpl. by rewrite decide_True. }
  unfold getShape3D.
  rewrite (Hlen "lev"), (Hlen "lat"), (Hlen "lon"); [done|..];
    repeat first [by left | right].
Qed.

(** * Restart files *)

Lemma fills_refl names k : fills names k k.
Proof. split; [done|]. intros x Hx. by left. Qed.

Lemma fills_trans n1 n2 k1 k2 k3 :
  fills n1 k1 k2 → fills n2 k2 k3 → fills (n1 ++ n2) k1 k3.
Proof.
  intros [S1 D1] [S2 D2]. split; [by etrans|].
  intros x Hx. destruct (D2 x Hx) as [H2|H2].
  - destruct (D1 x H2) as [H1|H1]; [by left|].
    right. apply elem_of_app. by left.
  - right. apply elem_of_app. by right.
Qed.

Lemma fills_insert Name v (k : gmap string value) :
  ¬ is_Some (k !! Name) → fills [Name] k (<[Name := v]> k).
Proof.
  intros Hk. split.
  - apply insert_subseteq. by destruct (k !! Name); [destruct Hk|].
  - intros x Hx. destruct (decide (x = Name)) as [->|Hne].
    + right. by left.
    + left. by rewrite lookup_insert_ne in Hx.
Qed.

Lemma fills_weaken n1 n2 k k' :
  (∀ x, x ∈ n1 → x ∈ n2) → fills n1 k k' → fills n2 k k'.
Proof.
  intros Hn [S D]. split; [done|]. intros x Hx.
  destruct (D x Hx); [by left|right; by apply Hn].
Qed.

Lemma read_parameter_fills File (k : gmap string value) Name :
  fills [Name] k (read_parameter File k Name).
Proof.
  unfold read_parameter. case_decide as Hk; [apply fills_refl|].
  destruct (global_attributes File !! Name); [|apply fills_refl].
  by apply fills_insert.
Qed.

Lemma read_field_fills known File (k : gmap string value) Name :
  fills [Name] k (read_field known File k Name).
Proof.
  unfold read_field. case_decide as Hk; [apply fills_refl|].
  destruct (variable File Name) as [a|]; [|apply fills_refl].
  destruct (last_record a) as [v|]; [|apply fills_refl].
  assert (∀ w, fills [Name] k (<[Name := w]> (<[Name := v]> k))) as H2.
  { intros w. rewrite insert_insert_eq. by apply fills_insert. }
  destruct (known !! Name) as [[[? ?] dims]|]; [|by apply fills_insert].
  case_decide; [|by apply fills_insert].
  destruct (reversed v); [apply H2|by apply fills_insert].
Qed.

Lemma foldl_fills (f : gmap string value → string → gmap string value)
    Names k :
  (∀ k Name, fills [Name] k (f k Name)) →
  fills Names k (foldl f k Names).
Proof.
  intros Hf. revert k. induction Names as [|Name Names IH]; intros k.
  - apply fills_refl.
  - simpl. apply (fills_trans [Name] Names _ (f k Name)); [apply Hf|apply IH].
Qed.

Lemma read_axis_fills File b (k k' : gmap string value) Name :
  read_axis File b k Name = Done k' →
  fills [Name] k k' ∧ is_Some (k' !! Name).
Proof.
  unfold read_axis. case_decide as Hk.
  - intros [= <-]. split; [apply fills_refl|done].
  - destruct (variable File Name) as [a|]; [|done].
    destruct b.
    + destruct (reversed (VArr a)) as [v|]; [|done]. intros [= <-].
      split; [by apply fills_insert|]. by rewrite lookup_insert_eq.
    + intros [= <-].
      split; [by apply fills_insert|]. by rewrite lookup_insert_eq.
Qed.

Lemma read_elapsed_time_fills File (k k' : gmap string value) :
  read_elapsed_time File k = Done k' →
  fills ["ElapsedTime"] k k' ∧ is_Some (k' !! "ElapsedTime").
Proof.
  unfold read_elapsed_time. case_decide as Hk.
  - intros [= <-]. split; [apply fills_refl|done].
  - destruct (variable File "time") as [a|]; [|done].
    destruct (last_record a) as [v|]; [|done]. intros [= <-].
    split; [by apply fills_insert|]. by rewrite lookup_insert_eq.
Qed.

Lemma fills_is_Some names k k' x :
  fills names k k' → is_Some (k !! x) → is_Some (k' !! x).
Proof.
  intros [S _] [v Hv]. exists v. by apply (lookup_weaken k).
Qed.

(** X22. [readRestart] only fills in: every input the caller supplied
    comes back with the value supplied, whatever the file holds; with
    netCDF at hand the result always has the elapsed time and the three
    axes; and it has no name beyond the supplied ones, these four, the
    parameter names and the field names. *)
Theorem restart_fills_in_and_never_overrides
    got_netcdf known File appending index FieldNames ParamNames
    (kwargs kwargs' : gmap string value) index' :
  readRestart got_netcdf known (Returned File) appending index
              FieldNames ParamNames kwargs = Returned (kwargs', index') →
  (∀ key v, kwargs !! key = Some v → kwargs' !! key = Some v) ∧
  (got_netcdf = true →
   ∀ key, key ∈ ["ElapsedTime"; "lev"; "lat"; "lon"] →
          is_Some (kwargs' !! key)) ∧
  (∀ key, is_Some (kwargs' !! key) →
     is_Some (kwargs !! key) ∨
     key ∈ ["ElapsedTime"; "lev"; "lat"; "lon"] ∨
     key ∈ ParamNames ∨ key ∈ FieldNames).
Proof.
  unfold readRestart. destruct got_netcdf; simpl.
  2:{ intros [= <- <-]. split_and!; [done|done|]. intros key Hk. by left. }
  destruct (read_elapsed_time File kwargs) as [k1|] eqn:E1; [|done]. simpl.
  apply read_elapsed_time_fills in E1 as [F1 T1].
  pose proof (foldl_fills (read_parameter File) ParamNames k1
                (read_parameter_fills File)) as F2.
  set (k2 := foldl (read_parameter File) k1 ParamNames) in *.
  destruct (read_axis File true k2 "lev") as [k3|] eqn:E3; [|done]. simpl.
  apply read_axis_fills in E3 as [F3 T3].
  destruct (read_axis File false k3 "lat") as [k4|] eqn:E4; [|done]. simpl.
  apply read_axis_fills in E4 as [F4 T4].
  destruct (read_axis File false k4 "lon") as [k5|] eqn:E5; [|done]. simpl.
  apply read_axis_fills in E5 as [F5 T5].
  pose proof (foldl_fills (read_field known File) FieldNames k5
                (read_field_fills known File)) as F6.
  set (k6 := foldl (read_field known File) k5 FieldNames) in *.
  intros Hrun.
  assert (kwargs' = k6) as ->.
  { destruct appending; [|by injection Hrun].
    destruct (variable File "time") as [t|]; [|done]. simpl in Hrun.
    destruct (first_dimension t); [|done]. by injection Hrun. }
  pose proof (fills_trans _ _ _ _ _ F1 F2) as F12.
  pose proof (fills_trans _ _ _ _ _ F12 F3) as F13.
  pose proof (fills_trans _ _ _ _ _ F13 F4) as F14.
  pose proof (fills_trans _ _ _ _ _ F14 F5) as F15.
  pose proof (fills_trans _ _ _ _ _ F15 F6) as [S D].
  split_and!.
  - intros key v Hv. by apply (lookup_weaken kwargs).
  - intros _ key Hkey.
    repeat (apply elem_of_cons in Hkey as [->|Hkey]).
    + apply (fills_is_Some _ _ _ _ F6), (fills_is_Some _ _ _ _ F5),
        (fills_is_Some _ _ _ _ F4), (fills_is_Some _ _ _ _ F3),
        (fills_is_Some _ _ _ _ F2), T1.
    + apply (fills_is_Some _ _ _ _ F6), (fills_is_Some _ _ _ _ F5),
        (fills_is_Some _ _ _ _ F4), T3.
    + apply (fills_is_Some _ _ _ _ F6), (fills_is_Some _ _ _ _ F5), T4.
    + apply (fills_is_Some _ _ _ _ F6), T5.
    + by apply elem_of_nil in Hkey.
  - intros key Hkey. destruct (D key Hkey) as [?|Hin]; [by left|right].
    rewrite !elem_of_app in Hin. rewrite !elem_of_cons.
    destruct Hin as [[[[[Hin|Hin]|Hin]|Hin]|Hin]|Hin];
      try apply list_elem_of_singleton in Hin; subst; auto 10.
Qed.

Lemma chunks_singletons (xs : list Q) :
  chunks (length xs) 1 xs = map (λ x, [x]) xs.
Proof. induction xs as [|x xs IH]; simpl; [done|]. by rewrite drop_0, IH. Qed.

Lemma last_record_1D pre x :
  last_record {| shape := [length (pre ++ [x])]; data := pre ++ [x] |}
    = Done (VNum x).
Proof.
  unfold last_record. cbn [shape data size_of foldr].
  rewrite chunks_singletons, map_app, reverse_app. done.
Qed.

(** X23. A run restarted without an elapsed time of its own resumes at
    the time of the last record of the file, the file's days turned into
    seconds by the product of floats [time * 86400.]; and when it
    appends to the restart file, its next record goes after the records
    the file has. *)
Theorem restart_resumes_at_last_record
    known File appending index FieldNames ParamNames
    (kwargs kwargs' : gmap string value) index' earlier last :
  kwargs !! "ElapsedTime" = None →
  variables File !! "time"
    = Some {| shape := [length (earlier ++ [last])];
              data := earlier ++ [last] |} →
  readRestart true known (Returned File) appending index
              FieldNames ParamNames kwargs = Returned (kwargs', index') →
  kwargs' !! "ElapsedTime" = Some (VNum (float_mul last 86400)) ∧
  index' = if appending then Some (length (earlier ++ [last])) else index.
Proof.
  intros Hnone Htime. unfold readRestart. simpl.
  assert (E1 : read_elapsed_time File kwargs
               = Done (<["ElapsedTime" := VNum (float_mul last 86400)]> kwargs)).
  { unfold read_elapsed_time. rewrite decide_False by (rewrite Hnone; by intros []).
    unfold variable. rewrite Htime. by rewrite last_record_1D. }
  rewrite E1. simpl.
  set (k1 := <["ElapsedTime" := VNum (float_mul last 86400)]> kwargs).
  pose proof (foldl_fills (read_parameter File) ParamNames k1
                (read_parameter_fills File)) as F2.
  set (k2 := foldl (read_parameter File) k1 ParamNames) in *.
  destruct (read_axis File true k2 "lev") as [k3|] eqn:E3; [|done]. simpl.
  apply read_axis_fills in E3 as [F3 _].
  destruct (read_axis File false k3 "lat") as [k4|] eqn:E4; [|done]. simpl.
  apply read_axis_fills in E4 as [F4 _].
  destruct (read_axis File false k4 "lon") as [k5|] eqn:E5; [|done]. simpl.
  apply read_axis_fills in E5 as [F5 _].
  pose proof (foldl_fills (read_field known File) FieldNames k5
                (read_field_fills known File)) as F6.
  set (k6 := foldl (read_field known File) k5 FieldNames) in *.
  assert (k6 !! "ElapsedTime" = Some (VNum (float_mul last 86400))) as Hk6.
  { apply (lookup_weaken k5); [|apply F6].
    apply (lookup_weaken k4); [|apply F5].
    apply (lookup_weaken k3); [|apply F4].
    apply (lookup_weaken k2); [|apply F3].
    apply (lookup_weaken k1); [|apply F2].
    apply lookup_insert_eq. }
  destruct appending.
  - unfold variable. rewrite Htime. simpl. by intros [= <- <-].
  - by intros [= <- <-].
Qed.

(** * Construction of the [IO] instance and writing *)

Lemma from_kwargs_lookup_ne kwargs key attr self name :
  name ≠ attr → from_kwargs kwargs key attr self !! name = self !! name.
Proof.
  intros Hne. unfold from_kwargs. destruct (kwargs !! key); [|done].
  by rewrite lookup_insert_ne.
Qed.

Lemma from_kwargs_lookup kwargs key attr self :
  from_kwargs kwargs key attr self !! attr
  = match kwargs !! key with Some v => Some v | None => self !! attr end.
Proof.
  unfold from_kwargs. destruct (kwargs !! key); [|done].
  by rewrite lookup_insert_eq.
Qed.

Lemma IO_settings_output_filename kwargs :
  IO_settings kwargs !! "output_filename"
  = Some (default ANone (kwargs !! "OutputFile")).
Proof.
  unfold IO_settings.
  rewrite !from_kwargs_lookup_ne by done. rewrite from_kwargs_lookup.
  rewrite from_kwargs_lookup_ne by done.
  by destruct (kwargs !! "OutputFile").
Qed.

Lemma IO_settings_output_fields kwargs :
  IO_settings kwargs !! "output_fields"
  = Some (default ANone (kwargs !! "OutputFields")).
Proof.
  unfold IO_settings.
  rewrite !from_kwargs_lookup_ne by done. rewrite from_kwargs_lookup.
  rewrite !from_kwargs_lookup_ne by done.
  by destruct (kwargs !! "OutputFields").
Qed.

Lemma IO_settings_doing_output kwargs :
  IO_settings kwargs !! "doing_output" = Some (ABool false).
Proof. unfold IO_settings. by rewrite !from_kwargs_lookup_ne by done. Qed.

Lemma IO_settings_other kwargs name :
  name ∉ ["OutputTimeIndex"; "appending"; "doing_output"; "output_frequency";
          "output_fields"; "output_filename"; "restart_filename"] →
  IO_settings kwargs !! name = None.
Proof.
  intros Hn. unfold IO_settings.
  rewrite !from_kwargs_lookup_ne
    by (intros ->; apply Hn; repeat first [by left | right]).
  unfold IO_defaults.
  rewrite !lookup_insert_ne
    by (intros <-; apply Hn; repeat first [by left | right]).
  done.
Qed.

Lemma IO_init_output R D P kwargs :
  is_None (default ANone (kwargs !! "OutputFile")) = false →
  IO_init true R D P kwargs
  = match odd_fields_of (default ANone (kwargs !! "OutputFields"))
                        (all_fields_of R D P) with
    | Raise e => Failed (Uncaught e)
    | Done odd_fields =>
        if (0 <? length odd_fields)%nat then Failed StringRaised
        else Returned (output_instance R D P kwargs)
    end.
Proof.
  intros Hname. unfold IO_init. cbn [negb]. cbv zeta.
  rewrite IO_settings_output_filename. cbn [default from_option id].
  rewrite Hname.
  rewrite !lookup_insert_ne by done.
  rewrite IO_settings_output_fields. done.
Qed.

Lemma IO_init_Returned R D P kwargs self :
  is_None (default ANone (kwargs !! "OutputFile")) = false →
  IO_init true R D P kwargs = Returned self →
  self = output_instance R D P kwargs.
Proof.
  intros Hname. rewrite IO_init_output by done.
  destruct (odd_fields_of _ _); [|done].
  destruct (0 <? _)%nat; [done|]. by intros [= <-].
Qed.

Lemma odd_fields_none names all_fields :
  odd_fields_of (ANames names) all_fields = Done [] ↔
  (∀ x, x ∈ names → x ∈ all_fields).
Proof.
  unfold odd_fields_of. cbn [is_None iterate_names]. split.
  - intros [= Hel] x Hx. apply elements_empty_inv in Hel.
    destruct (decide (x ∈ all_fields)) as [|Hn]; [done|].
    exfalso. apply (not_elem_of_empty (C:=gset string) x).
    apply leibniz_equiv in Hel. rewrite <- Hel.
    apply elem_of_difference. split; [by apply elem_of_list_to_set|].
    by rewrite elem_of_list_to_set.
  - intros Hsub. f_equal. apply elements_empty_iff, elem_of_equiv_empty.
    intros x [Hx Hn]%elem_of_difference.
    apply elem_of_list_to_set in Hx. apply Hn, elem_of_list_to_set. auto.
Qed.

Lemma elem_of_all_fields R D P x :
  x ∈ all_fields_of R D P ↔ x ∈ R ++ D ++ P.
Proof. unfold all_fields_of. by rewrite elem_of_elements, elem_of_list_to_set. Qed.

(** X24. With an output file named and a list of output fields given,
    the construction returns when every output field is a Required,
    Diagnostic or Prognostic field of the component, with output switched
    on, the fields recorded and the record index at zero; when one is
    not, it raises and no instance results. *)
Theorem output_fields_are_checked R D P kwargs names :
  is_None (default ANone (kwargs !! "OutputFile")) = false →
  kwargs !! "OutputFields" = Some (ANames names) →
  ((∀ x, x ∈ names → x ∈ R ++ D ++ P) →
   ∃ self, IO_init true R D P kwargs = Returned self ∧
           self !! "doing_output" = Some (ABool true) ∧
           self !! "output_fields" = Some (ANames names) ∧
           self !! "output_time_index" = Some (AInt 0)) ∧
  (¬ (∀ x, x ∈ names → x ∈ R ++ D ++ P) →
   IO_init true R D P kwargs = Failed StringRaised).
Proof.
  intros Hname Hfields. rewrite IO_init_output by done.
  rewrite Hfields. cbn [default from_option id]. split.
  - intros Hsub.
    assert (odd_fields_of (ANames names) (all_fields_of R D P) = Done [])
      as -> by (apply odd_fields_none; intros x Hx;
                by apply elem_of_all_fields, Hsub).
    cbn. eexists. split; [done|]. unfold output_instance.
    rewrite lookup_insert_eq.
    rewrite !lookup_insert_ne by done. rewrite lookup_insert_eq.
    rewrite !lookup_insert_ne by done.
    rewrite IO_settings_output_fields, Hfields. done.
  - intros Hodd.
    destruct (odd_fields_of (ANames names) (all_fields_of R D P))
      as [[|y odd]|e] eqn:Hof.
    + exfalso. apply Hodd. intros x Hx.
      apply elem_of_all_fields. by apply (proj1 (odd_fields_none _ _) Hof).
    + done.
    + done.
Qed.

(** X25. Constructed without an output file (no OutputFile argument, or
    None), the instance has output switched off, and [writeOutput] on it
    returns at once: it does not open a file and leaves the instance as
    it is, whether or not a netCDF interface was found. *)
Theorem no_output_file_no_output got_netcdf R D P kwargs :
  is_None (default ANone (kwargs !! "OutputFile")) = true →
  ∃ self, IO_init got_netcdf R D P kwargs = Returned self ∧
          self !! "doing_output" = Some (ABool false) ∧
          ∀ File (put : File → file_write → io_outcome File)
            known opened c,
            writeOutput put got_netcdf known self opened c
            = (Returned tt, self, None).
Proof.
  intros Hname. unfold IO_init. destruct got_netcdf; cbn [negb].
  - cbv zeta. rewrite IO_settings_output_filename. cbn [default from_option id].
    rewrite Hname. eexists. split; [done|].
    split; [apply IO_settings_doing_output|].
    intros. unfold writeOutput, attr_of. cbn [negb].
    by rewrite IO_settings_doing_output.
  - eexists. split; [done|]. split; [done|]. done.
Qed.

Lemma output_instance_doing R D P kwargs :
  output_instance R D P kwargs !! "doing_output" = Some (ABool true).
Proof.
  unfold output_instance.
  rewrite !lookup_insert_ne by done. by rewrite lookup_insert_eq.
Qed.

Lemma output_instance_filename R D P kwargs :
  output_instance R D P kwargs !! "output_filename"
  = Some (default ANone (kwargs !! "OutputFile")).
Proof.
  unfold output_instance.
  rewrite !lookup_insert_ne by done. apply IO_settings_output_filename.
Qed.

Lemma output_instance_fields R D P kwargs :
  output_instance R D P kwargs !! "output_fields"
  = Some (default ANone (kwargs !! "OutputFields")).
Proof.
  unfold output_instance.
  rewrite !lookup_insert_ne by done. apply IO_settings_output_fields.
Qed.

Lemma output_instance_no_names R D P kwargs :
  output_instance R D P kwargs !! "OutputFieldNames" = None.
Proof.
  unfold output_instance.
  rewrite !lookup_insert_ne by done. apply IO_settings_other.
  intros Hin. repeat (apply elem_of_cons in Hin as [Hin|Hin]; [done|]).
  by apply elem_of_nil in Hin.
Qed.

(** X26. On an instance constructed with an output file, a call of
    [writeOutput] at an elapsed time other than zero whose file opens
    raises AttributeError for [OutputFieldNames], which the constructor
    never sets: nothing is asked of the file and the instance is left as
    it is. *)
Theorem write_after_time_zero_fails {File}
    (put : File → file_write → io_outcome File)
    R D P kwargs self known f c :
  is_None (default ANone (kwargs !! "OutputFile")) = false →
  IO_init true R D P kwargs = Returned self →
  ¬ ElapsedTime c == 0 →
  writeOutput put true known self (Returned f) c
  = (Failed (AttributeError "OutputFieldNames"), self, Some f).
Proof.
  intros Hname Hinit Ht.
  apply IO_init_Returned in Hinit as ->; [|done].
  unfold writeOutput, attr_of. cbn [negb].
  rewrite output_instance_doing. cbn [truthy negb].
  rewrite output_instance_filename.
  destruct (Qeq_bool (ElapsedTime c) 0) eqn:Heq.
  { by apply Qeq_bool_iff in Heq. }
  by rewrite output_instance_no_names.
Qed.

(** X27. On an instance constructed with an output file but without
    output fields (no OutputFields argument, or None), no call of
    [writeOutput] returns normally, whatever the file does and whatever
    the state holds: the fields to write stay None and are never replaced
    by all the fields of the state. *)
Theorem no_output_fields_no_write {File}
    (put : File → file_write → io_outcome File)
    R D P kwargs self known opened c :
  is_None (default ANone (kwargs !! "OutputFile")) = false →
  is_None (default ANone (kwargs !! "OutputFields")) = true →
  IO_init true R D P kwargs = Returned self →
  ∃ e, (writeOutput put true known self opened c).1.1 = Failed e.
Proof.
  intros Hname Hfields Hinit.
  apply IO_init_Returned in Hinit as ->; [|done].
  unfold writeOutput, attr_of. cbn [negb].
  rewrite output_instance_doing. cbn [truthy negb].
  rewrite output_instance_filename.
  destruct opened as [f|e]; [|by eexists].
  destruct (Qeq_bool (ElapsedTime c) 0).
  2: { rewrite output_instance_no_names. by eexists. }
  rewrite output_instance_fields.
  destruct (default ANone (kwargs !! "OutputFields")); try done.
  unfold output_instance at 1. rewrite lookup_insert_eq.
  destruct (put f _); [|by eexists].
  destruct (lift_io (subscript _ _)); [|by eexists].
  cbn [iterate_names lift_io]. by eexists.
Qed.

(** * The level axis of a written record *)

Lemma chunks_length n k xs : length (chunks n k xs) = n.
Proof. revert xs. induction n as [|n IH]; intros xs; simpl; [done|]. by rewrite IH. Qed.

Lemma concat_chunks n k xs :
  length xs = (n * k)%nat → concat (chunks n k xs) = xs.
Proof.
  revert xs. induction n as [|n IH]; intros xs Hlen; simpl in *.
  - by destruct xs.
  - rewrite IH; [apply take_drop|]. rewrite length_drop. lia.
Qed.

Lemma chunks_concat k (ls : list (list Q)) :
  Forall (λ l, length l = k) ls → chunks (length ls) k (concat ls) = ls.
Proof.
  induction 1 as [|l ls Hl _ IH]; simpl; [done|].
  rewrite take_app_length' by done. rewrite drop_app_length' by done.
  by rewrite IH.
Qed.

Lemma chunks_Forall n k xs :
  length xs = (n * k)%nat → Forall (λ l, length l = k) (chunks n k xs).
Proof.
  revert xs. induction n as [|n IH]; intros xs Hlen; simpl in *; [done|].
  constructor.
  - rewrite length_take. lia.
  - apply IH. rewrite length_drop. lia.
Qed.

Lemma concat_length_uniform k (ls : list (list Q)) :
  Forall (λ l, length l = k) ls → length (concat ls) = (length ls * k)%nat.
Proof.
  induction 1 as [|l ls Hl _ IH]; simpl; [done|].
  rewrite length_app. lia.
Qed.

(** Reversing the blocks of a row twice gives the row back. *)
Lemma flip_row_involutive n k row :
  length row = (n * k)%nat →
  let flip r := concat (reverse (chunks n k r)) in
  length (flip row) = (n * k)%nat ∧ flip (flip row) = row.
Proof.
  intros Hlen flip. unfold flip.
  pose proof (chunks_Forall n k row Hlen) as Hall.
  assert (Forall (λ l, length l = k) (reverse (chunks n k row))) as Hrev
    by by apply Forall_reverse.
  split.
  - rewrite (concat_length_uniform k) by done.
    by rewrite length_reverse, chunks_length.
  - replace n with (length (reverse (chunks n k row))) at 1
      by by rewrite length_reverse, chunks_length.
    rewrite chunks_concat by done.
    rewrite reverse_involutive. by apply concat_chunks.
Qed.

Lemma levels_taken_all n : levels_taken (Z.of_nat n) n = n.
Proof.
  unfold levels_taken. destruct (Z.ltb_spec 0 (Z.of_nat n)).
  - rewrite Nat2Z.id. lia.
  - lia.
Qed.

(** With [nlev] the length of the third axis, the slice
    [out[:,:,nlev-1::-1]] keeps the shape, and taking it twice gives the
    array back. *)
Lemma flip_levels_involutive a n1 n2 n3 rest :
  shape a = n1 :: n2 :: n3 :: rest →
  length (data a) = size_of (shape a) →
  ∃ b, flip_levels (Z.of_nat n3) a = Returned (VArr b) ∧
       shape b = shape a ∧
       length (data b) = length (data a) ∧
       flip_levels (Z.of_nat n3) b = Returned (VArr a).
Proof.
  intros Hshape Hlen. unfold flip_levels. rewrite Hshape.
  rewrite levels_taken_all. eexists. split; [done|].
  cbn [shape data]. rewrite levels_taken_all.
  set (k := size_of rest). set (m := (n1 * n2)%nat).
  set (flip := λ row, concat (reverse (take n3 (chunks n3 k row)))).
  assert (length (data a) = m * (n3 * k))%nat as Hlen'.
  { rewrite Hlen, Hshape. unfold m, k, size_of. cbn [foldr].
    by rewrite !Nat.mul_assoc. }
  assert (∀ row, length row = (n3 * k)%nat →
                 length (flip row) = (n3 * k)%nat ∧ flip (flip row) = row)
    as Hflip.
  { intros row Hrow. unfold flip.
    rewrite !(take_ge (chunks n3 k _)) by (rewrite chunks_length; lia).
    by apply (flip_row_involutive n3 k row). }
  pose proof (chunks_Forall m (n3 * k) (data a) Hlen') as Hrows.
  assert (Forall (λ l, length l = (n3 * k)%nat)
                 (map flip (chunks m (n3 * k) (data a)))) as Hflipped.
  { apply Forall_fmap. eapply Forall_impl; [exact Hrows|].
    intros row Hrow. by apply Hflip. }
  split; [done|]. split.
  - rewrite (concat_length_uniform (n3 * k)) by done.
    rewrite length_map, chunks_length. lia.
  - do 2 f_equal. destruct a as [sh d]. cbn [shape data] in *. subst sh.
    f_equal.
    replace m with (length (map flip (chunks m (n3 * k) d))) at 1
      by by rewrite length_map, chunks_length.
    rewrite chunks_concat by done.
    rewrite map_map.
    rewrite <- (concat_chunks m (n3 * k) d) at 2 by done.
    f_equal. rewrite <- (map_id (chunks m (n3 * k) d)) at 2.
    apply map_ext_Forall. eapply Forall_impl; [exact Hrows|].
    intros row Hrow. by apply Hflip.
Qed.

Lemma as_index_whole n : as_index (VNum (inject_Z n)) = Returned n.
Proof.
  unfold as_index. rewrite Qfloor_Z.
  by rewrite (proj2 (Qeq_bool_iff _ _) (Qeq_refl _)).
Qed.

(** X28. For a known 3D field held as an array whose third axis has the
    grid's [nlev] entries, [writeOutput] asks for one record, of the
    shape of the field and with as many entries, holding all its levels
    in reverse order: reversed once more along that axis it is the field
    again. *)
Theorem levels_are_written_reversed known c index key long_name units
    a n1 n2 n3 rest :
  known !! key = Some (long_name, units, "3D") →
  Now c !! key = Some (VArr a) →
  shape a = n1 :: n2 :: n3 :: rest →
  length (data a) = size_of (shape a) →
  ∃ b, record_of known c (VNum (inject_Z (Z.of_nat n3))) index key
         = Returned (Some (PutRecord key index (VArr b))) ∧
       shape b = shape a ∧
       length (data b) = length (data a) ∧
       flip_levels (Z.of_nat n3) b = Returned (VArr a).
Proof.
  intros Hknown Hnow Hshape Hlen.
  destruct (flip_levels_involutive a n1 n2 n3 rest Hshape Hlen)
    as (b & Hb & Hsh & Hl & Hback).
  exists b. split; [|done].
  unfold record_of. rewrite Hknown.
  rewrite decide_False by done. rewrite decide_True by done.
  unfold subscript. rewrite Hnow. cbn [lift_io copy_of].
  by rewrite as_index_whole, Hb.
Qed.

(** * The further samples at work *)

Import Cases.
Import Files.

Lemma semi_implicit_input_has_both_levels_centred :
  ∃ Input,
    assemble_input centred column = Done Input ∧
    Input !! "Told" = Some (VNum 250) ∧
    Input !! "T" = Some (VNum 280).
Proof.
  destruct (semi_implicit_input_has_both_levels centred column eq_refl)
    as (Input & HI & Hold & Hrest).
  - intros k Hk. apply list_elem_of_singleton in Hk. subst k.
    exists (VNum 250). reflexivity.
  - exists Input. split; [exact HI|]. split.
    + apply (Hold "T"). apply list_elem_of_singleton. reflexivity.
    + rewrite Hrest; [reflexivity|].
      intros k Hk. apply list_elem_of_singleton in Hk. subst k.
      discriminate.
Defined.

Lemma missing_input_raises_hungry :
  compute hungry true column = (Raise (KeyError "ps"), column).
Proof.
  apply (missing_input_raises hungry true column (baseline_input column)
           ["T"] "ps" ["dt"]).
  - left. reflexivity.
  - reflexivity.
  - reflexivity.
  - intros k Hk. apply list_elem_of_singleton in Hk. subst k.
    exists (VNum 280). reflexivity.
  - reflexivity.
Defined.

Lemma missing_old_level_raises_centred_moist :
  compute centred_moist true column = (Raise (KeyError "q"), column).
Proof.
  apply (missing_old_level_raises centred_moist true column ["T"] "q" []).
  - left. reflexivity.
  - reflexivity.
  - reflexivity.
  - intros k Hk. apply list_elem_of_singleton in Hk. subst k.
    exists (VNum 250). reflexivity.
  - reflexivity.
Defined.

(** An increment merged in by hand is gone after the kernel call. *)
Lemma kernel_increments_overwrite_column :
  let c := set_Inc (λ _, {[ "T" := VNum 7; "q" := VNum 9 ]}) column in
  Inc (compute radiation true c).2 !! "T" = Some (VNum 1) ∧
  Inc (compute radiation true c).2 !! "q" = Some (VNum 9).
Proof.
  intros c.
  destruct (kernel_increments_overwrite radiation true c
              (baseline_input c) [VNum 280; VNum 30]
              {[ "Tinc" := VNum 1; "flux" := VNum 5 ]}
              (compute radiation true c).2) as [_ HInc].
  - left. reflexivity.
  - reflexivity.
  - reflexivity.
  - vm_compute. reflexivity.
  - vm_compute. reflexivity.
  - split; rewrite HInc; vm_compute; reflexivity.
Defined.

Lemma diagnostics_are_merged_column :
  Now column_born !! "flux" = Some (VNum 5) ∧
  attrs column_born !! "flux" = Some (VNum 5) ∧
  Now column_born !! "Tinc" = None ∧
  Now column_born !! "T" = Some (VNum 280).
Proof.
  pose proof (diagnostics_are_merged radiation true
                (set_Inc (λ _, ∅) column) (baseline_input column)
                [VNum 280; VNum 30]
                {[ "Tinc" := VNum 1; "flux" := VNum 5 ]} column_born) as H.
  assert (∀ x,
    let kept :=
      if decide (x ∈ Fixed (set_Inc (λ _, ∅) column)) then None
      else if decide (x ∈ increment_keys (Prognostic radiation)) then None
      else ({[ "Tinc" := VNum 1; "flux" := VNum 5 ]} : gmap string value) !! x in
    Now column_born !! x
      = (if kept is Some v then Some v
         else Now (set_Inc (λ _, ∅) column) !! x) ∧
    attrs column_born !! x
      = (if kept is Some v then Some v
         else attrs (set_Inc (λ _, ∅) column) !! x)) as H'.
  { apply H.
    - left. reflexivity.
    - reflexivity.
    - reflexivity.
    - vm_compute. reflexivity.
    - vm_compute. reflexivity. }
  destruct (H' "flux") as [H1 H2]. destruct (H' "Tinc") as [H3 _].
  destruct (H' "T") as [H4 _].
  split_and!; [rewrite H1|rewrite H2|rewrite H3|rewrite H4];
    vm_compute; reflexivity.
Defined.

Lemma zero_update_frequency_raises_stalled :
  compute radiation false stalled = (Raise ZeroDivisionError, stalled).
Proof.
  apply zero_update_frequency_raises. reflexivity.
Defined.

(** [hungry] fails in its first [compute]; the state has been advanced
    by then. *)
Lemma failed_iteration_is_not_rolled_back_hungry :
  let c2 := (State_advance hungry coarse_born).2 in
  step hungry (Steps 3) [] coarse_born = (Raise (KeyError "ps"), c2) ∧
  ElapsedTime c2 == 200 ∧
  parameters c2 = parameters coarse_born.
Proof.
  intros c2.
  destruct (failed_iteration_is_not_rolled_back hungry 3 [] coarse_born
              coarse_born c2 c2 (KeyError "ps"))
    as (Hstep & _ & _ & Hpar).
  - reflexivity.
  - reflexivity.
  - vm_compute. reflexivity.
  - vm_compute. reflexivity.
  - split; [exact Hstep|]. split; [vm_compute; reflexivity|exact Hpar].
Defined.

Lemma calday_stays_within_year_seasonal :
  let c := (seed_diagnostics radiation seasonal).2 in
  ∃ cal',
    calendar_set (step radiation (Steps 3) [] c).2 cal' 6307200 86400 365 ∧
    0 < cal' ∧ cal' <= 365.
Proof.
  intros c.
  apply (calday_stays_within_year radiation 3 [] c _ 1 6307200 86400 365).
  - split_and!; vm_compute; reflexivity.
  - intros H. vm_compute in H. discriminate.
  - vm_compute. reflexivity.
  - reflexivity.
  - vm_compute. discriminate.
  - vm_compute. discriminate.
  - vm_compute. discriminate.
  - vm_compute. reflexivity.
Defined.

(** The grid holds a [T] of its own: the assignment goes to the grid and
    the field [T] of the state keeps its value. *)
Lemma parameter_or_grid_round_trip_column_grid :
  ∃ c',
    setitem radiation "T" (VNum 3) column_grid = (Done tt, c') ∧
    getitem c' "T" = Done (VNum 3) ∧
    Now c' !! "T" = Some (VNum 280).
Proof.
  destruct (parameter_or_grid_round_trip radiation column_grid "T" (VNum 3))
    as (c' & Hset & Hget & HNow & _).
  - right. exists (VNum 1). reflexivity.
  - exists c'. split; [exact Hset|]. split; [exact Hget|].
    rewrite HNow. reflexivity.
Defined.

Lemma failed_assignment_changes_nothing_row :
  (setitem radiation "T" (VArr {| shape := [2%nat]; data := [1; 2] |}) row).2
    = row.
Proof.
  destruct (failed_assignment_changes_nothing radiation row "T"
              (VArr {| shape := [2%nat]; data := [1; 2] |}) ValueError
              (setitem radiation "T"
                 (VArr {| shape := [2%nat]; data := [1; 2] |}) row).2)
    as [H _].
  - vm_compute. reflexivity.
  - exact H.
Defined.

Lemma accessor_round_trip_3D_levels :
  ∃ c',
    setitem layered "T"
      (VArr {| shape := [6%nat]; data := [1; 2; 3; 4; 5; 6] |}) levels
      = (Done tt, c') ∧
    getitem c' "T"
      = Done (VArr {| shape := [2%nat; 3%nat];
                      data := [1; 2; 3; 4; 5; 6] |}).
Proof.
  destruct (accessor_round_trip_3D layered levels "T"
              (VArr {| shape := [6%nat]; data := [1; 2; 3; 4; 5; 6] |})
              [1; 2; 3; 4; 5; 6] 2%nat 1%nat 3%nat "temperature" "K")
    as (c' & Hset & _ & Hget).
  - reflexivity.
  - reflexivity.
  - exists (VNum 280). reflexivity.
  - reflexivity.
  - reflexivity.
  - reflexivity.
  - reflexivity.
  - exists c'. split; [exact Hset|exact Hget].
Defined.

(** An extension that fixes [9] levels refuses a [lev] of two entries
    and accepts one of nine. *)
Lemma axis_length_agrees_with_extension_nine :
  getAxisLength layered (λ _, 7%nat)
    (λ a, if decide (a = "lev") then Some 9%nat else None) "lev"
    [("lev", VSeq (replicate 9 (VNum 0)))] = Holds 9%nat.
Proof.
  destruct (getAxisLength layered (λ _, 7%nat)
    (λ a, if decide (a = "lev") then Some 9%nat else None) "lev"
    [("lev", VSeq (replicate 9 (VNum 0)))]) as [n|] eqn:E.
  - destruct (axis_length_agrees_with_extension _ _ _ _ _ _ E) as [_ H].
    rewrite <- (H 9%nat eq_refl). reflexivity.
  - vm_compute in E. discriminate.
Defined.

Lemma levels_default_to_compiled_in_surface :
  getAxisLength layered (λ _, 7%nat) (λ _, None) "lev"
    [("Ts", VArr {| shape := [4%nat; 5%nat]; data := [] |})] = Holds 7%nat.
Proof.
  rewrite (levels_default_to_compiled_in layered (λ _, 7%nat) (λ _, None)).
  - reflexivity.
  - reflexivity.
  - intros kv ln un Hkv. apply list_elem_of_singleton in Hkv. subst kv.
    vm_compute. discriminate.
Defined.

Lemma supplied_axis_decides_lat :
  getAxisLength layered (λ _, 7%nat) (λ _, None) "lat"
    [("T", VArr {| shape := [3%nat; 4%nat; 5%nat]; data := [] |});
     ("lat", VSeq [VNum 0; VNum 10])] = Holds 2%nat.
Proof.
  rewrite (supplied_axis_decides layered (λ _, 7%nat) (λ _, None) "lat" _
             (VSeq [VNum 0; VNum 10])).
  - reflexivity.
  - compute_done.
  - reflexivity.
Defined.

Lemma shape_follows_last_3D_field_T :
  getShape3D layered (λ _, 7%nat) (λ _, None)
    [("Ts", VArr {| shape := [8%nat; 9%nat]; data := [] |});
     ("T", VArr {| shape := [3%nat; 4%nat; 5%nat]; data := [] |});
     ("RestartFile", VStr "run.nc")]
    = Holds (3, 4, 5)%nat.
Proof.
  apply (shape_follows_last_3D_field layered (λ _, 7%nat) (λ _, None)
           [("Ts", VArr {| shape := [8%nat; 9%nat]; data := [] |})]
           "T" (VArr {| shape := [3%nat; 4%nat; 5%nat]; data := [] |})
           [("RestartFile", VStr "run.nc")] "temperature" "K").
  - reflexivity.
  - intros kv Hkv. repeat (apply elem_of_cons in Hkv as [->|Hkv]);
      [compute_done..|by apply elem_of_nil in Hkv].
  - reflexivity.
  - intros kv Hkv. apply list_elem_of_singleton in Hkv. subst kv.
    reflexivity.
Defined.

Lemma restart_fills_in_and_never_overrides_two_days :
  (∀ key v, supplied !! key = Some v → restarted !! key = Some v) ∧
  (true = true →
   ∀ key, key ∈ ["ElapsedTime"; "lev"; "lat"; "lon"] →
          is_Some (restarted !! key)) ∧
  (∀ key, is_Some (restarted !! key) →
     is_Some (supplied !! key) ∨
     key ∈ ["ElapsedTime"; "lev"; "lat"; "lon"] ∨
     key ∈ ["dt"] ∨ key ∈ ["Ts"]).
Proof.
  apply (restart_fills_in_and_never_overrides true known two_days true None
           ["Ts"] ["dt"] supplied restarted (Some 2%nat)).
  reflexivity.
Defined.

Lemma restart_resumes_at_last_record_two_days :
  restarted !! "ElapsedTime" = Some (VNum (float_mul 2 86400)) ∧
  Some 2%nat = Some (length ([1] ++ [2])).
Proof.
  apply (restart_resumes_at_last_record known two_days true None
           ["Ts"] ["dt"] supplied restarted (Some 2%nat) [1] 2).
  - reflexivity.
  - reflexivity.
  - reflexivity.
Defined.

Lemma output_fields_are_checked_to_file :
  ((∀ x, x ∈ ["T"] → x ∈ ["T"] ++ ["flux"] ++ ["T"]) →
   ∃ self, IO_init true ["T"] ["flux"] ["T"] to_file = Returned self ∧
           self !! "doing_output" = Some (ABool true) ∧
           self !! "output_fields" = Some (ANames ["T"]) ∧
           self !! "output_time_index" = Some (AInt 0)) ∧
  (¬ (∀ x, x ∈ ["T"] → x ∈ ["T"] ++ ["flux"] ++ ["T"]) →
   IO_init true ["T"] ["flux"] ["T"] to_file = Failed StringRaised).
Proof.
  apply (output_fields_are_checked ["T"] ["flux"] ["T"] to_file ["T"]).
  - reflexivity.
  - reflexivity.
Defined.

Lemma no_output_file_no_output_plain :
  ∃ self, IO_init true ["T"] ["flux"] ["T"] ∅ = Returned self ∧
          self !! "doing_output" = Some (ABool false) ∧
          ∀ File (put : File → file_write → io_outcome File)
            known opened c,
            writeOutput put true known self opened c
            = (Returned tt, self, None).
Proof.
  apply (no_output_file_no_output true ["T"] ["flux"] ["T"] ∅).
  reflexivity.
Defined.

Lemma write_after_time_zero_fails_column_at_100 :
  writeOutput granted true known
              (output_instance ["T"] ["flux"] ["T"] to_file)
              (Returned []) column_at_100
  = (Failed (AttributeError "OutputFieldNames"),
     output_instance ["T"] ["flux"] ["T"] to_file, Some []).
Proof.
  apply (write_after_time_zero_fails granted ["T"] ["flux"] ["T"] to_file).
  - reflexivity.
  - reflexivity.
  - intros H. vm_compute in H. discriminate H.
Defined.

Lemma no_output_fields_no_write_column :
  ∃ e, (writeOutput granted true known
                    (output_instance ["T"] ["flux"] ["T"] to_file_all)
                    (Returned []) column).1.1 = Failed e.
Proof.
  apply (no_output_fields_no_write granted ["T"] ["flux"] ["T"] to_file_all).
  - reflexivity.
  - reflexivity.
  - reflexivity.
Defined.

Lemma levels_are_written_reversed_two_levels :
  ∃ b, record_of known two_levels (VNum (inject_Z (Z.of_nat 2))) (AInt 0) "T"
         = Returned (Some (PutRecord "T" (AInt 0) (VArr b))) ∧
       shape b = [1; 1; 2]%nat ∧
       length (data b) = 2%nat ∧
       flip_levels (Z.of_nat 2) b
         = Returned (VArr {| shape := [1; 1; 2]%nat; data := [280; 250] |}).
Proof.
  apply (levels_are_written_reversed known two_levels (AInt 0) "T"
           "temperature" "K"
           {| shape := [1; 1; 2]%nat; data := [280; 250] |}
           1%nat 1%nat 2%nat []).
  - reflexivity.
  - reflexivity.
  - reflexivity.
  - reflexivity.
Defined.
